(** * Token verification core of tabular-api (implementations/main.go)

    A shallow embedding of the Firebase ID-token verification path of the
    server: the public-key cache ([publicKeyCache], [getKey], [refresh]),
    the two verifiers ([verifyIDToken], [verifyEmulatorToken]), the JSON
    helpers and the [GET /api/me] handler registered by [newMux].

    The Go standard library and [github.com/golang-jwt/jwt/v4] (v4.5.2, the
    version pinned by the project) are modelled next to the program: pure
    string helpers are written out, down to the UTF-8 decoder and the
    white-space table behind [strings.TrimSpace], the parser of the jwt package is
    transcribed from its [parser.go] and [claims.go], and the primitives
    that have no useful logical content here (base64 and JSON decoding,
    PEM and X.509 parsing, RSA signature checking, float conversion of
    numeric dates) are the methods of the class [GoLibs]. *)

From stdpp Require Import base option list gmap fin_maps strings.
From Stdlib Require Import ZArith Lia Ascii.

Local Open Scope Z_scope.

(** ** Go strings: the functions of package [strings] and [strconv] the
    program calls, with what they use of [unicode/utf8] and [unicode].  A Go
    string is a byte sequence, as is a Rocq [string]: [len s] is [len(s)],
    [byteAt s i] is [s[i]] and [slice s i j] is [s[i:j]]. *)

Definition len (s : string) : Z := Z.of_nat (String.length s).

Definition byte (c : Ascii.ascii) : Z := Z.of_N (Ascii.N_of_ascii c).

Definition byteAt (s : string) (i : Z) : Z :=
  match String.get (Z.to_nat i) s with
  | Some c => byte c
  | None => 0
  end.

Definition slice (s : string) (i j : Z) : string :=
  String.substring (Z.to_nat i) (Z.to_nat (j - i)) s.

(** [unicode/utf8]: the decoder of [utf8.go]. *)
Module utf8.

Definition RuneError : Z := 0xFFFD.
Definition RuneSelf : Z := 0x80.
Definition UTFMax : Z := 4.

Definition maskx : Z := 0x3F.
Definition mask2 : Z := 0x1F.
Definition mask3 : Z := 0x0F.
Definition mask4 : Z := 0x07.

(** The default lowest and highest continuation byte. *)
Definition locb : Z := 0x80.
Definition hicb : Z := 0xBF.

(** Information about the first byte of a sequence: the first nibble is an
    index into [acceptRanges], or F for the one-byte cases; the second
    nibble is the length of the sequence. *)
Definition xx : Z := 0xF1.   (* invalid: size 1 *)
Definition as' : Z := 0xF0.  (* ASCII: size 1 *)
Definition s1 : Z := 0x02.   (* accept 0, size 2 *)
Definition s2 : Z := 0x13.   (* accept 1, size 3 *)
Definition s3 : Z := 0x03.   (* accept 0, size 3 *)
Definition s4 : Z := 0x23.   (* accept 2, size 3 *)
Definition s5 : Z := 0x34.   (* accept 3, size 4 *)
Definition s6 : Z := 0x04.   (* accept 0, size 4 *)
Definition s7 : Z := 0x44.   (* accept 4, size 4 *)

(** The table [first], row by row. *)
Definition first (b : Z) : Z :=
  if b <? 0x80 then as'            (* 0x00-0x7F *)
  else if b <? 0xC2 then xx        (* 0x80-0xBF, 0xC0, 0xC1 *)
  else if b <? 0xE0 then s1        (* 0xC2-0xDF *)
  else if b =? 0xE0 then s2
  else if b <? 0xED then s3        (* 0xE1-0xEC *)
  else if b =? 0xED then s4
  else if b <? 0xF0 then s3        (* 0xEE, 0xEF *)
  else if b =? 0xF0 then s5
  else if b <? 0xF4 then s6        (* 0xF1-0xF3 *)
  else if b =? 0xF4 then s7
  else xx.                         (* 0xF5-0xFF *)

(** [acceptRanges]: the range of the second byte. *)
Definition acceptRanges (i : Z) : Z * Z :=
  match i with
  | 0 => (locb, hicb)
  | 1 => (0xA0, hicb)
  | 2 => (locb, 0x9F)
  | 3 => (0x90, hicb)
  | 4 => (locb, 0x8F)
  | _ => (0, 0)
  end.

(** [utf8.DecodeRuneInString]: the first rune of [s] and its width in
    bytes; an invalid or incomplete encoding is [(RuneError, 1)]. *)
Definition DecodeRuneInString (s : string) : Z * Z :=
  let n := len s in
  if n <? 1 then (RuneError, 0)
  else
    let s0 := byteAt s 0 in
    let x := first s0 in
    if as' <=? x then
      (* ASCII is the byte itself, the invalid byte is RuneError *)
      (if Z.testbit x 0 then RuneError else s0, 1)
    else
      let sz := Z.land x 7 in
      let accept := acceptRanges (Z.shiftr x 4) in
      if n <? sz then (RuneError, 1)
      else
        let s1 := byteAt s 1 in
        if (s1 <? fst accept) || (snd accept <? s1) then (RuneError, 1)
        else if sz <=? 2 then
          (Z.lor (Z.shiftl (Z.land s0 mask2) 6) (Z.land s1 maskx), 2)
        else
          let s2 := byteAt s 2 in
          if (s2 <? locb) || (hicb <? s2) then (RuneError, 1)
          else if sz <=? 3 then
            (Z.lor (Z.lor (Z.shiftl (Z.land s0 mask3) 12) (Z.shiftl (Z.land s1 maskx) 6))
               (Z.land s2 maskx), 3)
          else
            let s3 := byteAt s 3 in
            if (s3 <? locb) || (hicb <? s3) then (RuneError, 1)
            else
              (Z.lor (Z.lor (Z.lor (Z.shiftl (Z.land s0 mask4) 18)
                               (Z.shiftl (Z.land s1 maskx) 12))
                        (Z.shiftl (Z.land s2 maskx) 6))
                 (Z.land s3 maskx), 4).

(** [utf8.RuneStart]: not a continuation byte. *)
Definition RuneStart (b : Z) : bool := negb (Z.land b 0xC0 =? 0x80).

(** The loop of [DecodeLastRuneInString] that walks back to the start of
    the last rune: [for start--; start >= lim; start--].  [lim] is at most
    [UTFMax] bytes before the end, so the body runs at most three times
    and the condition is read at most four times. *)
Fixpoint walkBack (reads : nat) (s : string) (start lim : Z) : Z :=
  match reads with
  | O => start
  | S reads =>
      if start <? lim then start
      else if RuneStart (byteAt s start) then start
      else walkBack reads s (start - 1) lim
  end.

(** [utf8.DecodeLastRuneInString] *)
Definition DecodeLastRuneInString (s : string) : Z * Z :=
  let end' := len s in
  if end' =? 0 then (RuneError, 0)
  else
    let start := end' - 1 in
    let r := byteAt s start in
    if r <? RuneSelf then (r, 1)
    else
      let lim := Z.max (end' - UTFMax) 0 in
      let start := walkBack 4 s (start - 1) lim in
      let start := if start <? 0 then 0 else start in
      let '(r, size) := DecodeRuneInString (slice s start end') in
      if negb (start + size =? end') then (RuneError, 1)
      else (r, size).

End utf8.

(** [unicode]: the property White_Space, as [tables.go] and [graphic.go]
    have it. *)
Module unicode.

Definition MaxLatin1 : Z := 0xFF.

Record Range16 : Type := { Lo : Z; Hi : Z; Stride : Z }.

(** [White_Space.R16]; the first four ranges are Latin-1
    ([LatinOffset: 4]), and there is no [R32]. *)
Definition White_Space_R16 : list Range16 :=
  [ {| Lo := 0x0009; Hi := 0x000d; Stride := 1 |};
    {| Lo := 0x0020; Hi := 0x0020; Stride := 1 |};
    {| Lo := 0x0085; Hi := 0x0085; Stride := 1 |};
    {| Lo := 0x00a0; Hi := 0x00a0; Stride := 1 |};
    {| Lo := 0x1680; Hi := 0x1680; Stride := 1 |};
    {| Lo := 0x2000; Hi := 0x200a; Stride := 1 |};
    {| Lo := 0x2028; Hi := 0x2029; Stride := 1 |};
    {| Lo := 0x202f; Hi := 0x202f; Stride := 1 |};
    {| Lo := 0x205f; Hi := 0x205f; Stride := 1 |};
    {| Lo := 0x3000; Hi := 0x3000; Stride := 1 |} ].

Definition White_Space_LatinOffset : nat := 4.

(** [is16], the linear search it makes in a short table. *)
Fixpoint is16 (ranges : list Range16) (r : Z) : bool :=
  match ranges with
  | [] => false
  | range_ :: ranges =>
      if r <? Lo range_ then false
      else if r <=? Hi range_ then
        (Stride range_ =? 1) || ((r - Lo range_) mod Stride range_ =? 0)
      else is16 ranges r
  end.

(** [isExcludingLatin], for a table without [R32] and a rune that fits 16
    bits or lies above the table. *)
Definition isExcludingLatin (r16 : list Range16) (off : nat) (r : Z) : bool :=
  match last r16 with
  | Some top =>
      if (off <? length r16)%nat && (r <=? Hi top) then is16 (drop off r16) r
      else false
  | None => false
  end.

(** [unicode.IsSpace] *)
Definition IsSpace (r : Z) : bool :=
  if r <=? MaxLatin1 then
    (r =? 0x09) || (r =? 0x0A) || (r =? 0x0B) || (r =? 0x0C) || (r =? 0x0D)
    || (r =? 0x20) || (r =? 0x85) || (r =? 0xA0)
  else isExcludingLatin White_Space_R16 White_Space_LatinOffset r.

End unicode.

Module strings.

Fixpoint HasPrefix (s prefix : string) {struct prefix} : bool :=
  match prefix with
  | EmptyString => true
  | String c prefix' =>
      match s with
      | EmptyString => false
      | String d s' => if Ascii.eqb c d then HasPrefix s' prefix' else false
      end
  end.

Fixpoint drop (n : nat) (s : string) : string :=
  match n, s with
  | O, _ => s
  | S n', String _ s' => drop n' s'
  | S _, EmptyString => EmptyString
  end.

(** [strings.TrimPrefix]: [s] without the leading [prefix], or [s] itself. *)
Definition TrimPrefix (s prefix : string) : string :=
  if HasPrefix s prefix then drop (String.length prefix) s else s.

(** [strings.Split(s, sep)] for a one-byte separator, the only use the
    program and the jwt parser make of it (["," ] and ["."]). *)
Fixpoint Split (s : string) (sep : Ascii.ascii) : list string :=
  match s with
  | EmptyString => [EmptyString]
  | String c s' =>
      if Ascii.eqb c sep then EmptyString :: Split s' sep
      else match Split s' sep with
           | piece :: rest => String c piece :: rest
           | [] => [String c EmptyString]
           end
  end.

(** [indexFunc(s, f, truth)]: the index of the first rune [r] of [s], read
    as [range s] reads it, with [f(r) == truth], or -1.  Each turn of the
    loop moves on by the width of a rune, at least one byte, so that
    [len(s)] turns are enough. *)
Fixpoint indexFunc_from (turns : nat) (s : string) (i : Z) (f : Z -> bool) (truth : bool)
  : Z :=
  match turns with
  | O => -1
  | S turns =>
      if len s <=? i then -1
      else
        let '(r, size) := utf8.DecodeRuneInString (slice s i (len s)) in
        if Bool.eqb (f r) truth then i
        else indexFunc_from turns s (i + size) f truth
  end.

Definition indexFunc (s : string) (f : Z -> bool) (truth : bool) : Z :=
  indexFunc_from (S (String.length s)) s 0 f truth.

(** [lastIndexFunc(s, f, truth)]: the same from the end,
    [for i := len(s); i > 0; ]. *)
Fixpoint lastIndexFunc_from (turns : nat) (s : string) (i : Z) (f : Z -> bool)
    (truth : bool) : Z :=
  match turns with
  | O => -1
  | S turns =>
      if i <=? 0 then -1
      else
        let '(r, size) := utf8.DecodeLastRuneInString (slice s 0 i) in
        let i := i - size in
        if Bool.eqb (f r) truth then i
        else lastIndexFunc_from turns s i f truth
  end.

Definition lastIndexFunc (s : string) (f : Z -> bool) (truth : bool) : Z :=
  lastIndexFunc_from (S (String.length s)) s (len s) f truth.

(** [strings.TrimLeftFunc] *)
Definition TrimLeftFunc (s : string) (f : Z -> bool) : string :=
  let i := indexFunc s f false in
  if i =? -1 then EmptyString
  else slice s i (len s).

(** [strings.TrimRightFunc] *)
Definition TrimRightFunc (s : string) (f : Z -> bool) : string :=
  let i := lastIndexFunc s f false in
  let i :=
    if (0 <=? i) && (utf8.RuneSelf <=? byteAt s i) then
      i + snd (utf8.DecodeRuneInString (slice s i (len s)))
    else i + 1 in
  slice s 0 i.

(** [strings.TrimFunc] *)
Definition TrimFunc (s : string) (f : Z -> bool) : string :=
  TrimRightFunc (TrimLeftFunc s f) f.

(** The table [asciiSpace]. *)
Definition asciiSpace (c : Z) : bool :=
  (c =? 0x09) || (c =? 0x0A) || (c =? 0x0B) || (c =? 0x0C) || (c =? 0x0D) || (c =? 0x20).

(** The two loops of [strings.TrimSpace].  Each ends with an index
    ([inl]), or returns from the function ([inr]) when it meets a byte that
    is not ASCII. *)
Fixpoint TrimSpace_start (turns : nat) (s : string) (start : Z) : Z + string :=
  match turns with
  | O => inl start
  | S turns =>
      if len s <=? start then inl start
      else
        let c := byteAt s start in
        if utf8.RuneSelf <=? c then
          inr (TrimFunc (slice s start (len s)) unicode.IsSpace)
        else if negb (asciiSpace c) then inl start
        else TrimSpace_start turns s (start + 1)
  end.

Fixpoint TrimSpace_stop (turns : nat) (s : string) (start stop : Z) : Z + string :=
  match turns with
  | O => inl stop
  | S turns =>
      if stop <=? start then inl stop
      else
        let c := byteAt s (stop - 1) in
        if utf8.RuneSelf <=? c then
          inr (TrimRightFunc (slice s start stop) unicode.IsSpace)
        else if negb (asciiSpace c) then inl stop
        else TrimSpace_stop turns s start (stop - 1)
  end.

(** [strings.TrimSpace]: white space as Unicode defines it, with the fast
    path for ASCII. *)
Definition TrimSpace (s : string) : string :=
  match TrimSpace_start (S (String.length s)) s 0 with
  | inr trimmed => trimmed
  | inl start =>
      match TrimSpace_stop (S (String.length s)) s start (len s) with
      | inr trimmed => trimmed
      | inl stop => slice s start stop
      end
  end.

(** [strings.Join] *)
Fixpoint Join (elems : list string) (sep : string) : string :=
  match elems with
  | [] => EmptyString
  | [e] => e
  | e :: rest => String.append e (String.append sep (Join rest sep))
  end.

End strings.

Module strconv.

Definition digit (c : Ascii.ascii) : option Z :=
  let n := Ascii.N_of_ascii c in
  if (N.leb 48 n && N.leb n 57)%bool then Some (Z.of_N n - 48) else None.

Fixpoint digits (acc : Z) (s : string) : option Z :=
  match s with
  | EmptyString => Some acc
  | String c s' =>
      match digit c with
      | Some d => digits (10 * acc + d) s'
      | None => None
      end
  end.

Definition minInt : Z := - 2 ^ 63.
Definition maxInt : Z := 2 ^ 63 - 1.

(** [strconv.Atoi] on a 64-bit platform: an optional sign, at least one
    decimal digit, nothing else, and a value that fits [int]; [None] is the
    [*NumError] of the library. *)
Definition Atoi (s : string) : option Z :=
  let '(neg, body) :=
    match s with
    | String "-"%char s' => (true, s')
    | String "+"%char s' => (false, s')
    | _ => (false, s)
    end in
  match body with
  | EmptyString => None
  | _ =>
      match digits 0 body with
      | Some v =>
          let v := if neg then - v else v in
          if (Z.leb minInt v && Z.leb v maxInt)%bool then Some v else None
      | None => None
      end
  end.

End strconv.

(** ** Values the libraries hand to the program *)

(** A Go value returned together with an [error]: [(v, nil)] or [(_, err)]. *)
Inductive result (A E : Type) : Type :=
| Ok (v : A)
| Err (e : E).
Arguments Ok {A E} v.
Arguments Err {A E} e.

(** A JSON value as [encoding/json] stores it in an [interface{}].  A number
    keeps its literal, as [json.Number] does. *)
#[local] Unset Elimination Schemes.
Inductive jvalue : Type :=
| JNull
| JBool (b : bool)
| JNum (lit : string)
| JStr (s : string)
| JArr (elems : list jvalue)
| JObj (members : list (string * jvalue)).
#[local] Set Elimination Schemes.

(** [time.Time] as nanoseconds since the Unix epoch, [time.Duration] as a
    64-bit count of nanoseconds. *)
Abbreviation Time := Z (only parsing).
Abbreviation Duration := Z (only parsing).

Module time.

Definition Second : Duration := 1000000000.

(** The zero [time.Time], January 1 of year 1, the expiry of a cache that
    was never filled. *)
Definition zero : Time := -62135596800 * Second.

Definition Before (t u : Time) : bool := Z.ltb t u.
Definition After (t u : Time) : bool := Z.ltb u t.
Definition Equal (t u : Time) : bool := Z.eqb t u.

(** Signed 64-bit wrap-around of [Duration] arithmetic. *)
Definition wrap64 (z : Z) : Duration := (z + 2 ^ 63) mod 2 ^ 64 - 2 ^ 63.

(** [time.Duration(n) * time.Second] *)
Definition Seconds (n : Z) : Duration := wrap64 (n * Second).

Definition Add (t : Time) (d : Duration) : Time := t + d.

End time.

Module rsa.
Record PublicKey : Type := { N : Z; E : Z }.
End rsa.

Module x509.
(** The dynamic type of [Certificate.PublicKey]: [*rsa.PublicKey], or a key
    of another algorithm (ECDSA, Ed25519, ...). *)
Inductive publicKey : Type :=
| RSAKey (k : rsa.PublicKey)
| OtherKey (algorithm : string).
Record Certificate : Type := { PublicKey : publicKey }.
End x509.

(** The library primitives the model does not open.  Each method is the Go
    call named in its comment; [None] stands for a non-nil [error]. *)
Class GoLibs : Type := {
  (** [jwt.DecodeSegment] (base64url) then [json.Unmarshal] into
      [Token.Header], a [map[string]interface{}]: the header members by
      name; a JSON [null] gives the empty map. *)
  decodeHeader : string -> option (gmap string jvalue);
  (** [jwt.DecodeSegment] then the object scan of [json.Decoder.Decode]
      into a claims struct: the members of the payload, each under the
      [json] tag of the struct field it is bound to (the last one when
      several members bind to a field); members bound to no field are
      dropped. *)
  decodeClaims : string -> option (gmap string jvalue);
  (** [jwt.NumericDate.UnmarshalJSON] on a member that is not [null]:
      number to float to a time truncated to [jwt.TimePrecision]. *)
  NumericDate_UnmarshalJSON : jvalue -> option Time;
  (** The cryptographic check behind [SigningMethodRSA.Verify] and
      [SigningMethodRSAPSS.Verify] for the method of that name:
      key, signing string, signature segment. *)
  crypto_Verify : string -> rsa.PublicKey -> string -> string -> bool;
  (** [json.Unmarshal] of a response body into [map[string]string]. *)
  json_Unmarshal_certMap : string -> option (gmap string string);
  (** [pem.Decode]: the bytes of the first PEM block, when there is one. *)
  pem_Decode : string -> option string;
  (** [x509.ParseCertificate] *)
  x509_ParseCertificate : string -> option x509.Certificate;
}.

(** ** github.com/golang-jwt/jwt/v4: token.go, parser.go, claims.go *)

Module jwt.

Inductive SigningMethod : Type :=
| HS256 | HS384 | HS512
| RS256 | RS384 | RS512
| PS256 | PS384 | PS512
| ES256 | ES384 | ES512
| EdDSA
| none.

Definition Alg (m : SigningMethod) : string :=
  match m with
  | HS256 => "HS256" | HS384 => "HS384" | HS512 => "HS512"
  | RS256 => "RS256" | RS384 => "RS384" | RS512 => "RS512"
  | PS256 => "PS256" | PS384 => "PS384" | PS512 => "PS512"
  | ES256 => "ES256" | ES384 => "ES384" | ES512 => "ES512"
  | EdDSA => "EdDSA"
  | none => "none"
  end.

(** The methods the package registers in its [init] functions. *)
Definition signingMethods : list SigningMethod :=
  [HS256; HS384; HS512; RS256; RS384; RS512; PS256; PS384; PS512;
   ES256; ES384; ES512; EdDSA; none].

Definition GetSigningMethod (alg : string) : option SigningMethod :=
  List.find (fun m => String.eqb (Alg m) alg) signingMethods.

(** The bit flags of [ValidationError.Errors]. *)
Definition ValidationErrorMalformed : Z := Z.shiftl 1 0.
Definition ValidationErrorUnverifiable : Z := Z.shiftl 1 1.
Definition ValidationErrorSignatureInvalid : Z := Z.shiftl 1 2.
Definition ValidationErrorAudience : Z := Z.shiftl 1 3.
Definition ValidationErrorExpired : Z := Z.shiftl 1 4.
Definition ValidationErrorIssuedAt : Z := Z.shiftl 1 5.
Definition ValidationErrorIssuer : Z := Z.shiftl 1 6.
Definition ValidationErrorNotValidYet : Z := Z.shiftl 1 7.
Definition ValidationErrorId : Z := Z.shiftl 1 8.
Definition ValidationErrorClaimsInvalid : Z := Z.shiftl 1 9.

Record ValidationError : Type := {
  Inner : string;   (* text of the inner error, or of the error itself; where the
                       library wraps the error of a decoder or formats a
                       duration, the text here is a fixed one *)
  Errors : Z;       (* bit field of the flags above *)
}.

Definition NewValidationError (errorText : string) (errorFlags : Z) : ValidationError :=
  {| Inner := errorText; Errors := errorFlags |}.

(** [ValidationError.valid]: no flag set. *)
Definition valid (e : ValidationError) : bool := Z.eqb (Errors e) 0.

Record RegisteredClaims : Type := {
  Issuer : string;
  Subject : string;
  Audience : list string;
  ExpiresAt : option Time;
  NotBefore : option Time;
  IssuedAt : option Time;
  ID : string;
}.

(** claims.go: [verifyExp], [verifyIat], [verifyNbf] *)
Definition verifyExp (exp : option Time) (now : Time) (required : bool) : bool :=
  match exp with
  | None => negb required
  | Some e => time.Before now e
  end.

Definition verifyIat (iat : option Time) (now : Time) (required : bool) : bool :=
  match iat with
  | None => negb required
  | Some t => time.After now t || time.Equal now t
  end.

Definition verifyNbf (nbf : option Time) (now : Time) (required : bool) : bool :=
  match nbf with
  | None => negb required
  | Some t => time.After now t || time.Equal now t
  end.

(** [RegisteredClaims.Valid], with [now] the reading of [TimeFunc()].  The
    three checks accumulate into one [ValidationError]. *)
Definition RegisteredClaims_Valid (now : Time) (c : RegisteredClaims) : option ValidationError :=
  let vErr := {| Inner := ""; Errors := 0 |} in
  let vErr :=
    if negb (verifyExp (ExpiresAt c) now false)
    then {| Inner := "token is expired";
            Errors := Z.lor (Errors vErr) ValidationErrorExpired |}
    else vErr in
  let vErr :=
    if negb (verifyIat (IssuedAt c) now false)
    then {| Inner := "token used before issued";
            Errors := Z.lor (Errors vErr) ValidationErrorIssuedAt |}
    else vErr in
  let vErr :=
    if negb (verifyNbf (NotBefore c) now false)
    then {| Inner := "token is not valid yet";
            Errors := Z.lor (Errors vErr) ValidationErrorNotValidYet |}
    else vErr in
  if valid vErr then None else Some vErr.

(** How [encoding/json] fills a struct field of type [string] from the
    member bound to it: no member or [null] leaves the zero value, a JSON
    string is stored, any other value is an [UnmarshalTypeError]. *)
Definition unmarshalString (member : option jvalue) : option string :=
  match member with
  | None | Some JNull => Some ""
  | Some (JStr s) => Some s
  | Some _ => None
  end.

(** [ClaimStrings.UnmarshalJSON]: one string or an array of strings. *)
Definition ClaimStrings_UnmarshalJSON (value : jvalue) : option (list string) :=
  match value with
  | JStr v => Some [v]
  | JArr v => mapM (fun vv => match vv with JStr vs => Some vs | _ => None end) v
  | JNull => Some []
  | _ => None
  end.

Definition unmarshalClaimStrings (member : option jvalue) : option (list string) :=
  match member with
  | None => Some []
  | Some v => ClaimStrings_UnmarshalJSON v
  end.

(** A field of type [*NumericDate]: [nil] without a member or on [null]. *)
Definition unmarshalNumericDate `{GoLibs} (member : option jvalue) : option (option Time) :=
  match member with
  | None | Some JNull => Some None
  | Some v => match NumericDate_UnmarshalJSON v with
              | Some t => Some (Some t)
              | None => None
              end
  end.

(** The fields of [RegisteredClaims] by their [json] tags. *)
Definition RegisteredClaims_Unmarshal `{GoLibs} (o : gmap string jvalue)
  : option RegisteredClaims :=
  iss ← unmarshalString (o !! "iss");
  sub ← unmarshalString (o !! "sub");
  aud ← unmarshalClaimStrings (o !! "aud");
  exp ← unmarshalNumericDate (o !! "exp");
  nbf ← unmarshalNumericDate (o !! "nbf");
  iat ← unmarshalNumericDate (o !! "iat");
  jti ← unmarshalString (o !! "jti");
  Some {| Issuer := iss; Subject := sub; Audience := aud; ExpiresAt := exp;
          NotBefore := nbf; IssuedAt := iat; ID := jti |}.

(** The interface [jwt.Claims], together with what reflection gives the
    JSON decoder for a claims type: how the bound members fill the struct. *)
Class Claims (C : Type) : Type := {
  Claims_Unmarshal : gmap string jvalue -> option C;
  Claims_Valid : Time -> C -> option ValidationError;
}.

Record Token (C : Type) : Type := {
  Raw : string;
  Method : SigningMethod;
  Header : gmap string jvalue;
  TokenClaims : C;
  Signature : string;
  Valid : bool;
}.
Arguments Raw {C} _.
Arguments Method {C} _.
Arguments Header {C} _.
Arguments TokenClaims {C} _.
Arguments Signature {C} _.
Arguments Valid {C} _.

Record Parser : Type := {
  ValidMethods : option (list string);   (* [None] is the nil slice *)
  UseJSONNumber : bool;
  SkipClaimsValidation : bool;
}.

Definition ParserOption : Type := Parser -> Parser.

Definition WithValidMethods (methods : list string) : ParserOption :=
  fun p => {| ValidMethods := Some methods;
              UseJSONNumber := UseJSONNumber p;
              SkipClaimsValidation := SkipClaimsValidation p |}.

Definition WithoutClaimsValidation : ParserOption :=
  fun p => {| ValidMethods := ValidMethods p;
              UseJSONNumber := UseJSONNumber p;
              SkipClaimsValidation := true |}.

Definition NewParser (options : list ParserOption) : Parser :=
  fold_left (fun p option => option p) options
    {| ValidMethods := None; UseJSONNumber := false; SkipClaimsValidation := false |}.

Section Parsing.
Context `{GoLibs} {C : Type} `{Claims C}.

(** [Parser.ParseUnverified]: split, decode header and claims, look the
    declared method up in the registry.  [p.ValidMethods] is not consulted
    here; only [ParseWithClaims] reads it. *)
Definition ParseUnverified (p : Parser) (tokenString : string)
  : result (Token C) ValidationError :=
  match strings.Split tokenString "."%char with
  | [part0; part1; part2] =>
      match decodeHeader part0 with
      | None => Err (NewValidationError "malformed header segment" ValidationErrorMalformed)
      | Some header =>
          match decodeClaims part1 ≫= Claims_Unmarshal with
          | None => Err (NewValidationError "malformed claims segment" ValidationErrorMalformed)
          | Some claims =>
              match header !! "alg" with
              | Some (JStr method) =>
                  match GetSigningMethod method with
                  | None =>
                      Err (NewValidationError "signing method (alg) is unavailable."
                             ValidationErrorUnverifiable)
                  | Some m =>
                      Ok {| Raw := tokenString; Method := m; Header := header;
                            TokenClaims := claims; Signature := ""; Valid := false |}
                  end
              | _ =>
                  Err (NewValidationError "signing method (alg) is unspecified."
                         ValidationErrorUnverifiable)
              end
          end
      end
  | _ => Err (NewValidationError "token contains an invalid number of segments"
                ValidationErrorMalformed)
  end.

(** [SigningMethod.Verify] with a [*rsa.PublicKey] as key: the RSA methods
    check the signature; every other method refuses the key type. *)
Definition Verify (m : SigningMethod) (signingString signature : string)
    (key : rsa.PublicKey) : bool :=
  match m with
  | RS256 | RS384 | RS512 | PS256 | PS384 | PS512 =>
      crypto_Verify (Alg m) key signingString signature
  | _ => false
  end.

Definition Keyfunc : Type := Token C -> result rsa.PublicKey string.

(** [Parser.ParseWithClaims], [now] being what [TimeFunc()] returns
    during claims validation.  The signature is verified first, and a
    token that fails there is returned at once; the claims are validated
    afterwards. *)
Definition ParseWithClaims (p : Parser) (now : Time) (tokenString : string)
    (keyFunc : Keyfunc) : result (Token C) ValidationError :=
  match ParseUnverified p tokenString with
  | Err err => Err err
  | Ok token =>
      let alg := Alg (Method token) in
      let signingMethodValid :=
        match ValidMethods p with
        | None => true
        | Some methods => existsb (String.eqb alg) methods
        end in
      if negb signingMethodValid then
        Err (NewValidationError
               (String.append "signing method " (String.append alg " is invalid"))
               ValidationErrorSignatureInvalid)
      else
        match keyFunc token with
        | Err e => Err {| Inner := e; Errors := ValidationErrorUnverifiable |}
        | Ok key =>
            let parts := strings.Split tokenString "."%char in
            let signature := nth 2 parts "" in
            let signingString :=
              String.append (nth 0 parts "") (String "."%char (nth 1 parts "")) in
            if negb (Verify (Method token) signingString signature key) then
              Err {| Inner := "crypto/rsa: verification error";
                     Errors := ValidationErrorSignatureInvalid |}
            else
              match (if SkipClaimsValidation p then None
                     else Claims_Valid now (TokenClaims token)) with
              | Some vErr => Err vErr
              | None =>
                  Ok {| Raw := Raw token; Method := Method token; Header := Header token;
                        TokenClaims := TokenClaims token; Signature := signature;
                        Valid := true |}
              end
        end
  end.

End Parsing.

End jwt.

(** ** net/http, as far as the program uses it *)

Module http.

(** [http.Header]: the values of each header, by canonical name. *)
Abbreviation Header := (gmap string (list string)) (only parsing).

(** [Header.Get]: the first value of the header, or the empty string.  The
    two names the program asks for are already in canonical form. *)
Definition Get (h : Header) (key : string) : string :=
  match h !! key with
  | Some (v :: _) => v
  | _ => ""
  end.

Definition StatusOK : Z := 200.
Definition StatusUnauthorized : Z := 401.

(** A request as a handler sees it. *)
Record Request : Type := {
  ReqHeader : Header;
}.

(** What [http.Get] returned; [Body] is the outcome of [io.ReadAll]. *)
Record Response : Type := {
  StatusCode : Z;
  RespHeader : Header;
  Body : result string string;
}.

End http.

(** ** Configuration *)

Record firebaseConfig : Type := {
  ProjectID : string;
  APIKey : string;
  AuthDomain : string;
  AuthEmulatorHost : string;   (* empty = production *)
}.

(** ** Data and errors of the verification path *)

Definition googleCertsURL : string :=
  "https://www.googleapis.com/robot/v1/metadata/x509/securetoken@system.gserviceaccount.com".

Record publicKeyCache : Type := {
  keys : gmap string rsa.PublicKey;
  expiry : Time;
}.

(** [var keyCache = &publicKeyCache{}] *)
Definition emptyCache : publicKeyCache := {| keys := ∅; expiry := time.zero |}.

Record userClaims : Type := {
  UID : string;
  Email : string;
  Name : string;
  Picture : string;
}.

Record firebaseClaims : Type := {
  RegisteredClaims : jwt.RegisteredClaims;
  fcEmail : string;
  fcName : string;
  fcPicture : string;
}.

(** The errors of [refresh], one constructor per [fmt.Errorf]. *)
Inductive fetchError : Type :=
| ErrFetching (e : string)             (* fetching Google certs: %w *)
| ErrReading (e : string)              (* reading Google certs response: %w *)
| ErrStatus (code : Z)                 (* Google certs returned status %d *)
| ErrParsingJSON                       (* parsing Google certs JSON: %w *)
| ErrDecodePEM (kid : string)          (* failed to decode PEM for key %q *)
| ErrParsingCertificate (kid : string) (* parsing certificate for key %q: %w *)
| ErrNotRSA (kid : string).            (* key %q is not RSA *)

(** The errors of [getKey]. *)
Inductive keyError : Type :=
| ErrNotInCache (kid : string)            (* key ID %q not found in cache *)
| ErrRefresh (e : fetchError)             (* failed to refresh public keys: %w *)
| ErrNotFoundAfterRefresh (kid : string). (* key ID %q not found after refresh *)

(** The errors of the two verifiers. *)
Inductive verifyError : Type :=
| ErrParsingEmulatorToken (e : jwt.ValidationError) (* parsing emulator token: %w *)
| ErrEmulatorClaims                                 (* invalid emulator token claims *)
| ErrEmulatorSubjectEmpty                           (* emulator token subject (uid) is empty *)
| ErrParsingToken (e : jwt.ValidationError)         (* parsing token: %w *)
| ErrUnexpectedAlg (alg : string)                   (* unexpected signing algorithm: %s *)
| ErrMissingKid                                     (* missing kid in token header *)
| ErrKey (e : keyError)                             (* the error of getKey, as it is *)
| ErrVerificationFailed (e : jwt.ValidationError)   (* token verification failed: %w *)
| ErrInvalidClaims                                  (* invalid token claims *)
| ErrSubjectEmpty                                   (* token subject (uid) is empty *)
| ErrInvalidIssuer (got want : string)              (* invalid issuer: got %q, want %q *)
| ErrInvalidAudience (aud : list string) (want : string). (* invalid audience: ... *)

(** ** The world the program runs in *)

Inductive logValue : Type :=
| LInt (n : Z)
| LStr (s : string)
| LErr (e : verifyError).

(** What a run leaves behind.  [HTTPGet] and [Log] are effects of the
    program: an outbound request, a record written by [slog].  The [Call_]
    events are marks the model sets where the named function is entered,
    so that a statement can say which functions a run went through; the
    program writes nothing there. *)
Inductive event : Type :=
| Call_verifyEmulatorToken (tokenString projectID : string)
| Call_verifyIDToken (tokenString projectID : string)
| Call_getKey (kid : string)
| Call_refresh
| Call_ParseWithClaims (tokenString : string)
| HTTPGet (url : string)
| Log (level msg : string) (attrs : list (string * logValue)).

Record world : Type := {
  keyCache : publicKeyCache;                        (* the global [keyCache] *)
  now : Time;                                       (* what [time.Now()] returns *)
  network : list (result http.Response string);     (* what the next [http.Get]s find *)
  trace : list event;                               (* newest first *)
}.

Definition M (A : Type) : Type := world -> A * world.

Definition ret {A : Type} (a : A) : M A := fun w => (a, w).

Definition bind {A B : Type} (m : M A) (k : A -> M B) : M B :=
  fun w => let '(a, w') := m w in k a w'.

Notation "x <- m ;; k" := (bind m (fun x => k))
  (at level 100, m at next level, right associativity).
Notation "m ;;; k" := (bind m (fun _ => k))
  (at level 100, right associativity).

Definition emit (e : event) : M unit :=
  fun w => (tt, {| keyCache := keyCache w; now := now w; network := network w;
                   trace := e :: trace w |}).

Definition time_Now : M Time := fun w => (now w, w).

Definition readCache : M publicKeyCache := fun w => (keyCache w, w).

Definition writeCache (c : publicKeyCache) : M unit :=
  fun w => (tt, {| keyCache := c; now := now w; network := network w;
                   trace := trace w |}).

(** [http.Get(url)]: the request goes out and the next scripted outcome
    comes back; an exhausted script is a network failure. *)
Definition http_Get (url : string) : M (result http.Response string) :=
  fun w =>
    let w' := {| keyCache := keyCache w; now := now w; network := tl (network w);
                 trace := HTTPGet url :: trace w |} in
    match network w with
    | r :: _ => (r, w')
    | [] => (Err "dial tcp: connection refused", w')
    end.

Definition slog (level msg : string) (attrs : list (string * logValue)) : M unit :=
  emit (Log level msg attrs).

(** [os.Getenv] on the environment of the process: the empty string for a
    variable that is not set. *)
Definition Getenv (env : gmap string string) (key : string) : string :=
  default "" (env !! key).

(** [loadFirebaseConfig]; [None] is [os.Exit(1)]. *)
Definition loadFirebaseConfig (env : gmap string string) : M (option firebaseConfig) :=
  let cfg := {| ProjectID := Getenv env "FIREBASE_PROJECT_ID";
                APIKey := Getenv env "FIREBASE_API_KEY";
                AuthDomain := Getenv env "FIREBASE_AUTH_DOMAIN";
                AuthEmulatorHost := "" |} in
  let missing : list string := [] in
  let missing :=
    if String.eqb (ProjectID cfg) "" then missing ++ ["FIREBASE_PROJECT_ID"] else missing in
  let missing :=
    if String.eqb (APIKey cfg) "" then missing ++ ["FIREBASE_API_KEY"] else missing in
  let missing :=
    if String.eqb (AuthDomain cfg) "" then missing ++ ["FIREBASE_AUTH_DOMAIN"]
    else missing in
  if Nat.ltb 0 (length missing) then
    slog "ERROR" "missing required environment variables"
      [("vars", LStr (strings.Join missing ", "))] ;;;
    ret None
  else
    let cfg := {| ProjectID := ProjectID cfg; APIKey := APIKey cfg;
                  AuthDomain := AuthDomain cfg;
                  AuthEmulatorHost := Getenv env "FIREBASE_AUTH_EMULATOR_HOST" |} in
    (if negb (String.eqb (AuthEmulatorHost cfg) "") then
       slog "WARN" "running with Firebase Auth emulator"
         [("host", LStr (AuthEmulatorHost cfg))]
     else ret tt) ;;;
    ret (Some cfg).

Section Program.
Context `{GoLibs}.

(** ** Public key cache *)

(** The loop of [refresh] over the certificates; [acc] is the map [keys]
    under construction.  Go ranges over [certMap] in an unspecified order;
    the model takes the entries as a list. *)
Fixpoint parseCerts (certs : list (string * string)) (acc : gmap string rsa.PublicKey)
  : result (gmap string rsa.PublicKey) fetchError :=
  match certs with
  | [] => Ok acc
  | (kid, certPEM) :: rest =>
      match pem_Decode certPEM with
      | None => Err (ErrDecodePEM kid)
      | Some blockBytes =>
          match x509_ParseCertificate blockBytes with
          | None => Err (ErrParsingCertificate kid)
          | Some cert =>
              match x509.PublicKey cert with
              | x509.RSAKey rsaKey => parseCerts rest (<[kid := rsaKey]> acc)
              | x509.OtherKey _ => Err (ErrNotRSA kid)
              end
          end
      end
  end.

(** The [max-age] of a [Cache-Control] value, 3600 when there is none. *)
Definition parseMaxAge (cc : string) : Z :=
  if String.eqb cc "" then 3600
  else
    fold_left
      (fun maxAge directive =>
         let directive := strings.TrimSpace directive in
         if strings.HasPrefix directive "max-age=" then
           match strconv.Atoi (strings.TrimPrefix directive "max-age=") with
           | Some v => v
           | None => maxAge
           end
         else maxAge)
      (strings.Split cc ","%char) 3600.

(** The part of [refresh] that follows [http.Get]: read and check the
    response, parse every certificate, and only then replace the key map
    and the expiry. *)
Definition refresh_install (r : result http.Response string) : M (option fetchError) :=
  match r with
  | Err e => ret (Some (ErrFetching e))
  | Ok resp =>
      match http.Body resp with
      | Err e => ret (Some (ErrReading e))
      | Ok body =>
          if negb (Z.eqb (http.StatusCode resp) http.StatusOK) then
            ret (Some (ErrStatus (http.StatusCode resp)))
          else
            match json_Unmarshal_certMap body with
            | None => ret (Some ErrParsingJSON)
            | Some certMap =>
                match parseCerts (map_to_list certMap) ∅ with
                | Err e => ret (Some e)
                | Ok newKeys =>
                    let maxAge :=
                      parseMaxAge (http.Get (http.RespHeader resp) "Cache-Control") in
                    t <- time_Now ;;
                    writeCache {| keys := newKeys;
                                  expiry := time.Add t (time.Seconds maxAge) |} ;;;
                    slog "INFO" "refreshed Google public keys"
                      [("count", LInt (Z.of_nat (size newKeys)));
                       ("expires_in_seconds", LInt maxAge)] ;;;
                    ret None
                end
            end
      end
  end.

(** [publicKeyCache.refresh]; [None] is the nil error.  The write lock it
    holds from entry to return is the subject of the interleaving model
    below; a single caller is not affected by it. *)
Definition refresh : M (option fetchError) :=
  emit Call_refresh ;;;
  c <- readCache ;;
  t <- time_Now ;;
  if time.Before t (expiry c) then ret None
  else
    r <- http_Get googleCertsURL ;;
    refresh_install r.

(** The lookup both branches of [getKey] end with. *)
Definition lookupKey (c : publicKeyCache) (kid : string) (notFound : keyError)
  : result rsa.PublicKey keyError :=
  match keys c !! kid with
  | Some key => Ok key
  | None => Err notFound
  end.

(** [publicKeyCache.getKey] *)
Definition getKey (kid : string) : M (result rsa.PublicKey keyError) :=
  emit (Call_getKey kid) ;;;
  c <- readCache ;;
  t <- time_Now ;;
  if time.Before t (expiry c) then
    ret (lookupKey c kid (ErrNotInCache kid))
  else
    r <- refresh ;;
    match r with
    | Some err => ret (Err (ErrRefresh err))
    | None =>
        c <- readCache ;;
        ret (lookupKey c kid (ErrNotFoundAfterRefresh kid))
    end.

(** ** JWT verification *)

(** [firebaseClaims] as a [jwt.Claims]: the registered claims and the three
    profile fields are decoded by tag; [Valid] is the promoted method of
    the embedded [jwt.RegisteredClaims]. *)
Definition firebaseClaims_Unmarshal (o : gmap string jvalue) : option firebaseClaims :=
  rc ← jwt.RegisteredClaims_Unmarshal o;
  email ← jwt.unmarshalString (o !! "email");
  name ← jwt.unmarshalString (o !! "name");
  picture ← jwt.unmarshalString (o !! "picture");
  Some {| RegisteredClaims := rc; fcEmail := email; fcName := name;
          fcPicture := picture |}.

#[export] Instance firebaseClaims_Claims : jwt.Claims firebaseClaims := {|
  jwt.Claims_Unmarshal := firebaseClaims_Unmarshal;
  jwt.Claims_Valid := fun now c => jwt.RegisteredClaims_Valid now (RegisteredClaims c);
|}.

(** [verifyEmulatorToken].  The type assertion on [token.Claims] cannot
    fail, the parser having been given a [*firebaseClaims]; its error is
    the constructor [ErrEmulatorClaims], which no run produces. *)
Definition verifyEmulatorToken (tokenString projectID : string)
  : M (result userClaims verifyError) :=
  emit (Call_verifyEmulatorToken tokenString projectID) ;;;
  let parser :=
    jwt.NewParser [jwt.WithValidMethods ["none"; "RS256"];
                   jwt.WithoutClaimsValidation] in
  match jwt.ParseUnverified parser tokenString with
  | Err err => ret (Err (ErrParsingEmulatorToken err))
  | Ok token =>
      let claims : firebaseClaims := jwt.TokenClaims token in
      if String.eqb (jwt.Subject (RegisteredClaims claims)) "" then
        ret (Err ErrEmulatorSubjectEmpty)
      else
        ret (Ok {| UID := jwt.Subject (RegisteredClaims claims);
                   Email := fcEmail claims;
                   Name := fcName claims;
                   Picture := fcPicture claims |})
  end.

(** [verifyIDToken].  [keyCache] is the cache of the world; the key
    function given to the verified parse returns the key just fetched. *)
Definition verifyIDToken (tokenString projectID : string)
  : M (result userClaims verifyError) :=
  emit (Call_verifyIDToken tokenString projectID) ;;;
  match jwt.ParseUnverified (C := firebaseClaims) (jwt.NewParser []) tokenString with
  | Err err => ret (Err (ErrParsingToken err))
  | Ok token =>
      if negb (String.eqb (jwt.Alg (jwt.Method token)) "RS256") then
        ret (Err (ErrUnexpectedAlg (jwt.Alg (jwt.Method token))))
      else
        match jwt.Header token !! "kid" with
        | Some (JStr kid) =>
            if String.eqb kid "" then ret (Err ErrMissingKid)
            else
              k <- getKey kid ;;
              match k with
              | Err err => ret (Err (ErrKey err))
              | Ok pubKey =>
                  let expectedIssuer :=
                    String.append "https://securetoken.google.com/" projectID in
                  emit (Call_ParseWithClaims tokenString) ;;;
                  t <- time_Now ;;
                  match jwt.ParseWithClaims (C := firebaseClaims)
                          (jwt.NewParser [jwt.WithValidMethods ["RS256"]])
                          t tokenString (fun _ => Ok pubKey) with
                  | Err err => ret (Err (ErrVerificationFailed err))
                  | Ok verifiedToken =>
                      let claims : firebaseClaims := jwt.TokenClaims verifiedToken in
                      if negb (jwt.Valid verifiedToken) then ret (Err ErrInvalidClaims)
                      else if String.eqb (jwt.Subject (RegisteredClaims claims)) "" then
                        ret (Err ErrSubjectEmpty)
                      else if negb (String.eqb (jwt.Issuer (RegisteredClaims claims))
                                      expectedIssuer) then
                        ret (Err (ErrInvalidIssuer (jwt.Issuer (RegisteredClaims claims))
                                    expectedIssuer))
                      else
                        let foundAud :=
                          existsb (fun aud => String.eqb aud projectID)
                            (jwt.Audience (RegisteredClaims claims)) in
                        if negb foundAud then
                          ret (Err (ErrInvalidAudience
                                      (jwt.Audience (RegisteredClaims claims)) projectID))
                        else
                          ret (Ok {| UID := jwt.Subject (RegisteredClaims claims);
                                     Email := fcEmail claims;
                                     Name := fcName claims;
                                     Picture := fcPicture claims |})
                  end
              end
        | _ => ret (Err ErrMissingKid)
        end
  end.

End Program.

(** ** JSON helpers *)

Record errorDetail : Type := {
  Code : string;
  Message : string;
}.

Record errorEnvelope : Type := {
  Error : errorDetail;
}.

(** What [json.NewEncoder(w).Encode(v)] writes for the values the program
    encodes: an object with one member per struct field, named by the
    [json] tag, in the order of the fields.  None of the tags carries
    [omitempty].  [JStr s] is the JSON string the encoder writes for the Go
    string [s]; the text of the body is this value followed by a newline. *)
Class Marshal (A : Type) : Type := marshal : A -> jvalue.

#[export] Instance userClaims_Marshal : Marshal userClaims := fun u =>
  JObj [("uid", JStr (UID u)); ("email", JStr (Email u));
        ("name", JStr (Name u)); ("picture", JStr (Picture u))].

#[export] Instance errorDetail_Marshal : Marshal errorDetail := fun d =>
  JObj [("code", JStr (Code d)); ("message", JStr (Message d))].

#[export] Instance errorEnvelope_Marshal : Marshal errorEnvelope := fun e =>
  JObj [("error", marshal (Error e))].

(** An [http.ResponseWriter] by what has been written to it: the header
    map, the status once [WriteHeader] has been called, the encoded
    values of the body in order. *)
Record ResponseWriter : Type := {
  Header : gmap string (list string);
  Status : option Z;
  Written : list jvalue;
}.

Definition newResponseWriter : ResponseWriter :=
  {| Header := ∅; Status := None; Written := [] |}.

Definition Header_Set (w : ResponseWriter) (key value : string) : ResponseWriter :=
  {| Header := <[key := [value]]> (Header w); Status := Status w; Written := Written w |}.

(** Only the first [WriteHeader] counts. *)
Definition WriteHeader (w : ResponseWriter) (code : Z) : ResponseWriter :=
  {| Header := Header w;
     Status := match Status w with Some c => Some c | None => Some code end;
     Written := Written w |}.

Definition Encode {A : Type} `{Marshal A} (w : ResponseWriter) (v : A) : ResponseWriter :=
  {| Header := Header w;
     Status := match Status w with Some c => Some c | None => Some http.StatusOK end;
     Written := Written w ++ [marshal v] |}.

Definition writeJSON {A : Type} `{Marshal A} (w : ResponseWriter) (status : Z) (v : A)
  : ResponseWriter :=
  let w := Header_Set w "Content-Type" "application/json" in
  let w := WriteHeader w status in
  Encode w v.

Definition writeError (w : ResponseWriter) (status : Z) (code message : string)
  : ResponseWriter :=
  writeJSON w status {| Error := {| Code := code; Message := message |} |}.

(** ** Router: the handler [newMux] registers for [GET /api/me]

    [newMux cfg] builds the handlers as closures over [cfg]; the one below
    is the closure of the pattern [GET /api/me]. *)

Section Router.
Context `{GoLibs}.

Definition newMux_apiMe (cfg : firebaseConfig) (w : ResponseWriter) (r : http.Request)
  : M ResponseWriter :=
  let authHeader := http.Get (http.ReqHeader r) "Authorization" in
  if String.eqb authHeader "" || negb (strings.HasPrefix authHeader "Bearer ") then
    ret (writeError w http.StatusUnauthorized "UNAUTHENTICATED"
           "Missing or invalid authentication token")
  else
    let tokenString := strings.TrimPrefix authHeader "Bearer " in
    res <- (if negb (String.eqb (AuthEmulatorHost cfg) "")
            then verifyEmulatorToken tokenString (ProjectID cfg)
            else verifyIDToken tokenString (ProjectID cfg)) ;;
    match res with
    | Err err =>
        slog "WARN" "token verification failed" [("error", LErr err)] ;;;
        ret (writeError w http.StatusUnauthorized "UNAUTHENTICATED"
               "Missing or invalid authentication token")
    | Ok user => ret (writeJSON w http.StatusOK user)
    end.

End Router.

(** ** Concurrent callers of [getKey]

    Goroutines run [getKey] against the shared cache, each statement
    between two lock operations being one step.  [c.mu] is a
    [sync.RWMutex]: any number of readers or one writer. *)

Record RWMutex : Type := {
  writer : bool;
  readers : nat;
}.

(** Where a goroutine stands in [getKey] (G) and in the [refresh] it calls
    (R), with the locals it carries. *)
Inductive pc : Type :=
| G_RLock1                       (* c.mu.RLock() *)
| G_Check                        (* if time.Now().Before(c.expiry) ... *)
| G_RUnlock1 (ret : option (result rsa.PublicKey keyError))
                                 (* c.mu.RUnlock(); return, or go on to refresh *)
| R_Lock                         (* c.mu.Lock() *)
| R_Check                        (* the double check under the write lock *)
| R_Get                          (* http.Get(googleCertsURL) *)
| R_Recv (r : result http.Response string)
                                 (* the response is read, parsed and installed *)
| R_Unlock (err : option fetchError)
                                 (* the deferred c.mu.Unlock() *)
| G_RLock2                       (* c.mu.RLock() after the refresh *)
| G_Lookup                       (* c.keys[kid] *)
| G_RUnlock2 (ret : result rsa.PublicKey keyError)
                                 (* the deferred c.mu.RUnlock() *)
| Done (ret : result rsa.PublicKey keyError).

Record goroutine : Type := {
  kid : string;
  at_pc : pc;
}.

Record system : Type := {
  shared : world;
  mu : RWMutex;
  goroutines : list goroutine;
}.

(** The scheduler picks a goroutine, or lets time pass. *)
Inductive action : Type :=
| Run (i : nat)
| Tick (d : N).

Definition advance (d : N) (w : world) : world :=
  {| keyCache := keyCache w; now := now w + Z.of_N d; network := network w;
     trace := trace w |}.

Section Interleaving.
Context `{GoLibs}.

(** One step of a goroutine; [None] when it is blocked on the mutex or has
    returned. *)
Definition step (w : world) (m : RWMutex) (g : goroutine)
  : option (world * RWMutex * pc) :=
  match at_pc g with
  | G_RLock1 =>
      if writer m then None
      else Some (snd (emit (Call_getKey (kid g)) w),
                 {| writer := false; readers := S (readers m) |}, G_Check)
  | G_Check =>
      let c := keyCache w in
      if time.Before (now w) (expiry c)
      then Some (w, m, G_RUnlock1 (Some (lookupKey c (kid g) (ErrNotInCache (kid g)))))
      else Some (w, m, G_RUnlock1 None)
  | G_RUnlock1 ret =>
      Some (w, {| writer := writer m; readers := pred (readers m) |},
            match ret with
            | Some r => Done r
            | None => R_Lock
            end)
  | R_Lock =>
      if writer m || negb (Nat.eqb (readers m) 0) then None
      else Some (snd (emit Call_refresh w), {| writer := true; readers := 0 |}, R_Check)
  | R_Check =>
      if time.Before (now w) (expiry (keyCache w))
      then Some (w, m, R_Unlock None)
      else Some (w, m, R_Get)
  | R_Get =>
      let '(r, w') := http_Get googleCertsURL w in
      Some (w', m, R_Recv r)
  | R_Recv r =>
      let '(err, w') := refresh_install r w in
      Some (w', m, R_Unlock err)
  | R_Unlock err =>
      Some (w, {| writer := false; readers := readers m |},
            match err with
            | Some e => Done (Err (ErrRefresh e))
            | None => G_RLock2
            end)
  | G_RLock2 =>
      if writer m then None
      else Some (w, {| writer := false; readers := S (readers m) |}, G_Lookup)
  | G_Lookup =>
      Some (w, m, G_RUnlock2 (lookupKey (keyCache w) (kid g)
                                (ErrNotFoundAfterRefresh (kid g))))
  | G_RUnlock2 ret =>
      Some (w, {| writer := writer m; readers := pred (readers m) |}, Done ret)
  | Done _ => None
  end.

Definition perform (a : action) (s : system) : system :=
  match a with
  | Tick d => {| shared := advance d (shared s); mu := mu s; goroutines := goroutines s |}
  | Run i =>
      match goroutines s !! i with
      | None => s
      | Some g =>
          match step (shared s) (mu s) g with
          | None => s
          | Some (w', m', pc') =>
              {| shared := w'; mu := m';
                 goroutines := <[i := {| kid := kid g; at_pc := pc' |}]> (goroutines s) |}
          end
      end
  end.

Definition exec (schedule : list action) (s : system) : system :=
  fold_left (fun s a => perform a s) schedule s.

End Interleaving.

(** [n] goroutines entering [getKey], the mutex free. *)
Definition spawn (w : world) (kids : list string) : system :=
  {| shared := w; mu := {| writer := false; readers := 0 |};
     goroutines := (fun k => {| kid := k; at_pc := G_RLock1 |}) <$> kids |}.

Definition isDone (g : goroutine) : bool :=
  match at_pc g with Done _ => true | _ => false end.

Definition isHTTPGet (e : event) : bool :=
  match e with HTTPGet _ => true | _ => false end.

(** Outbound requests recorded in a trace. *)
Definition fetches (tr : list event) : nat := length (List.filter isHTTPGet tr).

Definition elapsed (schedule : list action) : Z :=
  fold_right (fun a acc => match a with Tick d => Z.of_N d + acc | Run _ => acc end)
    0 schedule.

(** ** Test vectors

    A stand-in for the library primitives on a handful of inputs, used to
    run the model on concrete requests.  Each row gives a base64url segment
    and what the Go decoders produce for it; the segments are the encodings
    of the JSON texts named in the comments. *)

Module Vectors.

Definition table_find {A : Type} (t : list (string * A)) (k : string) : option A :=
  snd <$> List.find (fun row => String.eqb (fst row) k) t.

(** Header segments. *)
Definition hRS256 : string :=  (* alg RS256, kid key-valid, typ JWT *)
  "eyJhbGciOiJSUzI1NiIsImtpZCI6ImtleS12YWxpZCIsInR5cCI6IkpXVCJ9".
Definition hNone : string :=   (* alg none, typ JWT *)
  "eyJhbGciOiJub25lIiwidHlwIjoiSldUIn0".
Definition hHS256 : string :=  (* alg HS256, typ JWT *)
  "eyJhbGciOiJIUzI1NiIsInR5cCI6IkpXVCJ9".
Definition hES256K : string := (* alg ES256K, typ JWT *)
  "eyJhbGciOiJFUzI1NksiLCJ0eXAiOiJKV1QifQ".
Definition hEmptyKid : string := (* alg RS256, kid the empty string, typ JWT *)
  "eyJhbGciOiJSUzI1NiIsImtpZCI6IiIsInR5cCI6IkpXVCJ9".

Definition headers : list (string * gmap string jvalue) :=
  [(hRS256, {[ "alg" := JStr "RS256"; "kid" := JStr "key-valid"; "typ" := JStr "JWT" ]});
   (hNone, {[ "alg" := JStr "none"; "typ" := JStr "JWT" ]});
   (hHS256, {[ "alg" := JStr "HS256"; "typ" := JStr "JWT" ]});
   (hES256K, {[ "alg" := JStr "ES256K"; "typ" := JStr "JWT" ]});
   (hEmptyKid, {[ "alg" := JStr "RS256"; "kid" := JStr ""; "typ" := JStr "JWT" ]})].

(** Payload segments.  [cValid] carries the claims of the project's test
    helper [validClaims] at the instant 1700000000 s: expiry one hour
    later, issued five minutes earlier. *)
Definition cValid : string :=
  "eyJpc3MiOiJodHRwczovL3NlY3VyZXRva2VuLmdvb2dsZS5jb20vdGVzdC1wcm9qZWN0LTEyMyIsInN1YiI6InVzZXItdWlkLWFiYzEyMyIsImF1ZCI6WyJ0ZXN0LXByb2plY3QtMTIzIl0sImV4cCI6MTcwMDAwMzYwMCwiaWF0IjoxNjk5OTk5NzAwLCJlbWFpbCI6ImphbmVAZXhhbXBsZS5jb20iLCJuYW1lIjoiSmFuZSBEb2UiLCJwaWN0dXJlIjoiaHR0cHM6Ly9saDMuZ29vZ2xldXNlcmNvbnRlbnQuY29tL2EvcGhvdG8ifQ".
Definition cIssuedLater : string :=  (* as cValid, iat ten minutes after the instant *)
  "eyJpc3MiOiJodHRwczovL3NlY3VyZXRva2VuLmdvb2dsZS5jb20vdGVzdC1wcm9qZWN0LTEyMyIsInN1YiI6InVzZXItdWlkLWFiYzEyMyIsImF1ZCI6WyJ0ZXN0LXByb2plY3QtMTIzIl0sImV4cCI6MTcwMDAwMzYwMCwiaWF0IjoxNzAwMDAwNjAwLCJlbWFpbCI6ImphbmVAZXhhbXBsZS5jb20iLCJuYW1lIjoiSmFuZSBEb2UiLCJwaWN0dXJlIjoiaHR0cHM6Ly9saDMuZ29vZ2xldXNlcmNvbnRlbnQuY29tL2EvcGhvdG8ifQ".
Definition cNoPicture : string :=    (* as cValid, without the member picture *)
  "eyJpc3MiOiJodHRwczovL3NlY3VyZXRva2VuLmdvb2dsZS5jb20vdGVzdC1wcm9qZWN0LTEyMyIsInN1YiI6InVzZXItdWlkLWFiYzEyMyIsImF1ZCI6WyJ0ZXN0LXByb2plY3QtMTIzIl0sImV4cCI6MTcwMDAwMzYwMCwiaWF0IjoxNjk5OTk5NzAwLCJlbWFpbCI6ImphbmVAZXhhbXBsZS5jb20iLCJuYW1lIjoiSmFuZSBEb2UifQ".
Definition cSubOnly : string :=      (* only sub user-uid-abc123 *)
  "eyJzdWIiOiJ1c2VyLXVpZC1hYmMxMjMifQ".
Definition cGarbled : string :=      (* not base64url: in no table, no decoder accepts it *)
  "%%%".

Definition validMembers : gmap string jvalue :=
  {[ "iss" := JStr "https://securetoken.google.com/test-project-123";
     "sub" := JStr "user-uid-abc123";
     "aud" := JArr [JStr "test-project-123"];
     "exp" := JNum "1700003600";
     "iat" := JNum "1699999700";
     "email" := JStr "jane@example.com";
     "name" := JStr "Jane Doe";
     "picture" := JStr "https://lh3.googleusercontent.com/a/photo" ]}.

Definition payloads : list (string * gmap string jvalue) :=
  [(cValid, validMembers);
   (cIssuedLater, <["iat" := JNum "1700000600"]> validMembers);
   (cNoPicture, delete "picture" validMembers);
   (cSubOnly, {[ "sub" := JStr "user-uid-abc123" ]})].

(** Signature segment the stand-in accepts under [keyValid]. *)
Definition sigValid : string := "c2lnbmF0dXJlLWJ5LWtleS12YWxpZA".

Definition keyValid : rsa.PublicKey := {| rsa.N := 3233; rsa.E := 17 |}.

Definition pemRSA : string := "-----BEGIN CERTIFICATE----- rsa:key-valid -----END CERTIFICATE-----".
Definition pemEC : string := "-----BEGIN CERTIFICATE----- ecdsa:key-ec -----END CERTIFICATE-----".

(** Response bodies of the certificate endpoint, by name. *)
Definition bodyOneRSA : string := "certs{key-valid: pemRSA}".
Definition bodyOneEC : string := "certs{key-ec: pemEC}".

#[export] Instance libs : GoLibs := {|
  decodeHeader := table_find headers;
  decodeClaims := table_find payloads;
  NumericDate_UnmarshalJSON := fun v =>
    match v with
    | JNum lit => (fun secs => secs * time.Second) <$> strconv.Atoi lit
    | _ => None
    end;
  crypto_Verify := fun alg key signingString signature =>
    String.eqb alg "RS256" && Z.eqb (rsa.N key) 3233 && Z.eqb (rsa.E key) 17
    && String.eqb signature sigValid;
  json_Unmarshal_certMap := table_find
    [("{}", ∅); (bodyOneRSA, {[ "key-valid" := pemRSA ]});
     (bodyOneEC, {[ "key-ec" := pemEC ]})];
  pem_Decode := table_find [(pemRSA, "der:rsa:key-valid"); (pemEC, "der:ecdsa:key-ec")];
  x509_ParseCertificate := table_find
    [("der:rsa:key-valid", {| x509.PublicKey := x509.RSAKey keyValid |});
     ("der:ecdsa:key-ec", {| x509.PublicKey := x509.OtherKey "ECDSA" |})];
|}.

Definition token (header payload signature : string) : string :=
  String.append header (String "."%char
    (String.append payload (String "."%char signature))).

(** The instant of the vectors and a cache holding [keyValid] for an hour. *)
Definition t0 : Time := 1700000000 * time.Second.

Definition warmCache : publicKeyCache :=
  {| keys := {[ "key-valid" := keyValid ]}; expiry := t0 + 3600 * time.Second |}.

Definition world0 (c : publicKeyCache) (net : list (result http.Response string)) : world :=
  {| keyCache := c; now := t0; network := net; trace := [] |}.

Definition bearer (tok : string) : http.Request :=
  {| http.ReqHeader := {[ "Authorization" := [String.append "Bearer " tok] ]} |}.

Definition productionCfg : firebaseConfig :=
  {| ProjectID := "test-project-123"; APIKey := "AIzaSyTestKey";
     AuthDomain := "test-project-123.firebaseapp.com"; AuthEmulatorHost := "" |}.

Definition emulatorCfg : firebaseConfig :=
  {| ProjectID := "test-project-123"; APIKey := "AIzaSyTestKey";
     AuthDomain := "test-project-123.firebaseapp.com";
     AuthEmulatorHost := "localhost:9099" |}.

(** What Google's endpoint answers. *)
Definition goodResponse : http.Response :=
  {| http.StatusCode := 200;
     http.RespHeader :=
       {[ "Cache-Control" := ["public, max-age=19845, must-revalidate, no-transform"] ]};
     http.Body := Ok bodyOneRSA |}.

End Vectors.

(** ** Vocabulary of the statements *)

(** The two verification paths. *)
Inductive verifier : Type :=
| ProductionVerifier   (* verifyIDToken *)
| EmulatorVerifier.    (* verifyEmulatorToken *)

(** The path the configuration selects. *)
Definition selectedVerifier (cfg : firebaseConfig) : verifier :=
  if String.eqb (AuthEmulatorHost cfg) "" then ProductionVerifier else EmulatorVerifier.

Definition verifierCalled (e : event) : option verifier :=
  match e with
  | Call_verifyIDToken _ _ => Some ProductionVerifier
  | Call_verifyEmulatorToken _ _ => Some EmulatorVerifier
  | _ => None
  end.

(** The verifiers entered during a run, newest first. *)
Definition verifiersCalled (tr : list event) : list verifier := omap verifierCalled tr.

(** The events a run added to the trace. *)
Definition emitted (w w' : world) : list event :=
  take (length (trace w') - length (trace w)) (trace w').

Definition events_of {A : Type} (m : M A) (w : world) : list event :=
  emitted w (snd (m w)).

(** The one response every failure of [GET /api/me] gets. *)
Definition unauthenticated (w : ResponseWriter) : ResponseWriter :=
  writeError w http.StatusUnauthorized "UNAUTHENTICATED"
    "Missing or invalid authentication token".

(** ASCII lower case, to speak of capitalisations of a scheme name. *)
Definition lowerAscii (c : Ascii.ascii) : Ascii.ascii :=
  let n := Ascii.N_of_ascii c in
  if (N.leb 65 n && N.leb n 90)%bool then Ascii.ascii_of_N (n + 32) else c.

Fixpoint ToLower (s : string) : string :=
  match s with
  | EmptyString => EmptyString
  | String c s' => String (lowerAscii c) (ToLower s')
  end.

(** A member of an encoded object. *)
Definition jfield (v : jvalue) (name : string) : option jvalue :=
  match v with
  | JObj members => snd <$> List.find (fun m => String.eqb (fst m) name) members
  | _ => None
  end.

(** The string a payload holds under a tag, empty when it holds none. *)
Definition claimString (members : gmap string jvalue) (tag : string) : string :=
  match members !! tag with
  | Some (JStr s) => s
  | _ => ""
  end.

(** The error kind UnsupportedAlgorithm of the specification: the error
    [verifyIDToken] raises at its algorithm check. *)
Definition UnsupportedAlgorithm (e : verifyError) : Prop :=
  ∃ alg, e = ErrUnexpectedAlg alg.

(** The projection of verified claims both verifiers return. *)
Definition identityOf (claims : firebaseClaims) : userClaims :=
  {| UID := jwt.Subject (RegisteredClaims claims);
     Email := fcEmail claims;
     Name := fcName claims;
     Picture := fcPicture claims |}.

Section Vocabulary.
Context `{GoLibs}.

(** The token has three segments and its header names [alg] as algorithm. *)
Definition declaresAlg (tokenString alg : string) : Prop :=
  ∃ p0 p1 p2 header,
    strings.Split tokenString "."%char = [p0; p1; p2] ∧
    decodeHeader p0 = Some header ∧
    header !! "alg" = Some (JStr alg).

(** The token has three segments that decode to this header and to these
    payload members, which fill [claims]; [signingString] is what the
    signature covers and [signature] the third segment. *)
Definition parsesAs (tokenString : string) (header members : gmap string jvalue)
    (claims : firebaseClaims) (signingString signature : string) : Prop :=
  ∃ p0 p1,
    strings.Split tokenString "."%char = [p0; p1; signature] ∧
    decodeHeader p0 = Some header ∧
    decodeClaims p1 = Some members ∧
    firebaseClaims_Unmarshal members = Some claims ∧
    signingString = String.append p0 (String "."%char p1).

(** The RSA key a PEM certificate yields, when it yields one. *)
Definition keyOfPEM (certPEM : string) : option rsa.PublicKey :=
  blockBytes ← pem_Decode certPEM;
  cert ← x509_ParseCertificate blockBytes;
  match x509.PublicKey cert with
  | x509.RSAKey k => Some k
  | x509.OtherKey _ => None
  end.

(** The ways a fetch of the certificates can fail. *)
Inductive failingFetch : result http.Response string -> Prop :=
| NetworkFailure e :
    failingFetch (Err e)
| UnreadableBody resp e :
    http.Body resp = Err e -> failingFetch (Ok resp)
| NonOKStatus resp :
    http.StatusCode resp ≠ http.StatusOK -> failingFetch (Ok resp)
| MalformedJSON resp body :
    http.Body resp = Ok body -> json_Unmarshal_certMap body = None ->
    failingFetch (Ok resp)
| MalformedPEM resp body certMap kid certPEM :
    http.Body resp = Ok body -> json_Unmarshal_certMap body = Some certMap ->
    certMap !! kid = Some certPEM -> pem_Decode certPEM = None ->
    failingFetch (Ok resp)
| MalformedCertificate resp body certMap kid certPEM blockBytes :
    http.Body resp = Ok body -> json_Unmarshal_certMap body = Some certMap ->
    certMap !! kid = Some certPEM -> pem_Decode certPEM = Some blockBytes ->
    x509_ParseCertificate blockBytes = None ->
    failingFetch (Ok resp)
| NotAnRSAKey resp body certMap kid certPEM blockBytes cert algorithm :
    http.Body resp = Ok body -> json_Unmarshal_certMap body = Some certMap ->
    certMap !! kid = Some certPEM -> pem_Decode certPEM = Some blockBytes ->
    x509_ParseCertificate blockBytes = Some cert ->
    x509.PublicKey cert = x509.OtherKey algorithm ->
    failingFetch (Ok resp).

(** The handler answers with the UNAUTHENTICATED response, enters no
    verifier and leaves the world as it found it. *)
Definition rejectsUnverified (cfg : firebaseConfig) (w0 : ResponseWriter)
    (r : http.Request) (w : world) : Prop :=
  newMux_apiMe cfg w0 r w = (unauthenticated w0, w) ∧
  verifiersCalled (events_of (newMux_apiMe cfg w0 r) w) = [].

(** The outcome the next [http.Get] meets. *)
Definition nextFetch (w : world) : result http.Response string :=
  match network w with
  | r :: _ => r
  | [] => Err "dial tcp: connection refused"
  end.

End Vocabulary.

(** [w'] extends the trace of [w] by events that satisfy [P]. *)
Definition grows (P : event -> Prop) (w w' : world) : Prop :=
  ∃ new, trace w' = new ++ trace w ∧ Forall P new.

Definition emits {A : Type} (P : event -> Prop) (m : M A) : Prop :=
  ∀ w, grows P w (snd (m w)).

(** Events that are not the entry of a verifier. *)
Definition quiet (e : event) : Prop := verifierCalled e = None.

(** ** Vocabulary of the interleaving model *)

(** The goroutine holds the write lock of [c.mu]. *)
Definition holdsW (p : pc) : bool :=
  match p with
  | R_Check | R_Get | R_Recv _ | R_Unlock _ => true
  | _ => false
  end.

(** The goroutine has not yet seen the request of a refresh go out. *)
Definition beforeFetch (p : pc) : bool :=
  match p with
  | G_RLock1 | G_Check | G_RUnlock1 None | R_Lock | R_Check | R_Get => true
  | _ => false
  end.

(** The goroutine is about to send the request, or waits for the answer. *)
Definition fetching (p : pc) : bool :=
  match p with
  | R_Get | R_Recv _ => true
  | _ => false
  end.

Definition update (s : system) (i : nat) (w' : world) (m' : RWMutex) (g' : goroutine)
  : system :=
  {| shared := w'; mu := m'; goroutines := <[i := g']> (goroutines s) |}.

Section InterleavingInvariant.
Context `{GoLibs}.
Variables (w0 : world) (resp : http.Response)
  (rest : list (result http.Response string)) (maxAge : Z).

(** The response is one [refresh] installs, with this [max-age]. *)
Definition goodFetch : Prop :=
  ∃ body certMap newKeys,
    http.Body resp = Ok body ∧
    http.StatusCode resp = http.StatusOK ∧
    json_Unmarshal_certMap body = Some certMap ∧
    parseCerts (map_to_list certMap) ∅ = Ok newKeys ∧
    parseMaxAge (http.Get (http.RespHeader resp) "Cache-Control") = maxAge.

(** Until then the keys installed by a fetch made now or later are valid. *)
Definition deadline : Time := now w0 + time.Seconds maxAge.

(** At most one goroutine is inside [refresh], and the mutex says so. *)
Definition lockInv (s : system) : Prop :=
  (writer (mu s) = false ∧
   ∀ j g, goroutines s !! j = Some g -> holdsW (at_pc g) = false) ∨
  (writer (mu s) = true ∧
   ∃ i g, goroutines s !! i = Some g ∧ holdsW (at_pc g) = true ∧
          ∀ j g', goroutines s !! j = Some g' -> j ≠ i -> holdsW (at_pc g') = false).

(** The three stages of a race into an expired cache. *)
Inductive phase (s : system) : Prop :=
| NotFetched :
    keyCache (shared s) = keyCache w0 ->
    network (shared s) = Ok resp :: rest ->
    fetches (trace (shared s)) = fetches (trace w0) ->
    (∀ j g, goroutines s !! j = Some g -> beforeFetch (at_pc g) = true) ->
    phase s
| Fetching i g :
    keyCache (shared s) = keyCache w0 ->
    fetches (trace (shared s)) = S (fetches (trace w0)) ->
    goroutines s !! i = Some g -> at_pc g = R_Recv (Ok resp) ->
    (∀ j g', goroutines s !! j = Some g' -> j ≠ i ->
             beforeFetch (at_pc g') = true ∧ holdsW (at_pc g') = false) ->
    phase s
| Fetched :
    deadline ≤ expiry (keyCache (shared s)) ->
    fetches (trace (shared s)) = S (fetches (trace w0)) ->
    (∀ j g, goroutines s !! j = Some g -> fetching (at_pc g) = false) ->
    phase s.

Record Inv (s : system) : Prop := {
  inv_lock : lockInv s;
  inv_clock : now w0 ≤ now (shared s);
  inv_phase : phase s;
}.

End InterleavingInvariant.

(** ** Vocabulary of a race in which every fetch fails *)

Section FailedFetch.
Context `{GoLibs}.
Variable w0 : world.

(** Where a goroutine can be while every fetch fails: before the request,
    with a failed answer in hand, or back with the error of [refresh]. *)
Definition failedPath (g : goroutine) : Prop :=
  match at_pc g with
  | G_RLock1 | G_Check | G_RUnlock1 None | R_Lock | R_Check | R_Get => True
  | R_Recv r => failingFetch r
  | R_Unlock (Some _) => True
  | Done (Err (ErrRefresh _)) => True
  | _ => False
  end.

(** The request of a goroutine's own [refresh] has gone out. *)
Definition fetched (g : goroutine) : bool := negb (beforeFetch (at_pc g)).

Record failInv (s : system) : Prop := {
  fail_lock : lockInv s;
  fail_cache : keyCache (shared s) = keyCache w0;
  fail_clock : now w0 ≤ now (shared s);
  fail_network : Forall failingFetch (network (shared s));
  fail_fetches :
    fetches (trace (shared s))
    = (fetches (trace w0) + length (List.filter fetched (goroutines s)))%nat;
  fail_path : ∀ j g, goroutines s !! j = Some g -> failedPath g;
}.

End FailedFetch.

(** ** Vocabulary of the further properties *)

(** The [max-age] one directive of a [Cache-Control] value gives, when it
    gives one: the directive is [max-age=] followed by a decimal [int],
    white space around it apart. *)
Definition maxAgeDirective (directive : string) : option Z :=
  let directive := strings.TrimSpace directive in
  if strings.HasPrefix directive "max-age=" then
    strconv.Atoi (strings.TrimPrefix directive "max-age=")
  else None.

(** The variables [loadFirebaseConfig] asks for, in the order it checks
    them. *)
Definition requiredVars : list string :=
  ["FIREBASE_PROJECT_ID"; "FIREBASE_API_KEY"; "FIREBASE_AUTH_DOMAIN"].

(** ** Vocabulary of the lock discipline *)

(** The goroutine holds the read lock of [c.mu]. *)
Definition holdsR (p : pc) : bool :=
  match p with
  | G_Check | G_RUnlock1 _ | G_Lookup | G_RUnlock2 _ => true
  | _ => false
  end.

(** The goroutines inside a read section. *)
Definition readersOf (gs : list goroutine) : nat :=
  length (List.filter (fun g => holdsR (at_pc g)) gs).

(** The goroutine is about to take the read lock, or the write lock. *)
Definition entersR (p : pc) : bool :=
  match p with
  | G_RLock1 | G_RLock2 => true
  | _ => false
  end.

Definition waitsW (p : pc) : bool :=
  match p with
  | R_Lock => true
  | _ => false
  end.

(** The steps a goroutine at [p] has before it at most: the longest way
    through [getKey] takes eleven. *)
Definition remaining (p : pc) : nat :=
  match p with
  | G_RLock1 => 11
  | G_Check => 10
  | G_RUnlock1 _ => 9
  | R_Lock => 8
  | R_Check => 7
  | R_Get => 6
  | R_Recv _ => 5
  | R_Unlock _ => 4
  | G_RLock2 => 3
  | G_Lookup => 2
  | G_RUnlock2 _ => 1
  | Done _ => 0
  end.

Definition distance (s : system) : nat :=
  sum_list ((fun g => remaining (at_pc g)) <$> goroutines s).

Section LockDiscipline.
Context `{GoLibs}.

(** Goroutine [i] can move, also under the writer preference of
    [sync.RWMutex], where a call of [RLock] waits as long as a call of
    [Lock] is pending: a goroutine about to take the read lock counts as
    able to move only when no goroutine is about to take the write lock. *)
Definition canRun (s : system) (i : nat) : Prop :=
  ∃ g, goroutines s !! i = Some g ∧
       is_Some (step (shared s) (mu s) g) ∧
       (entersR (at_pc g) = true ->
        ∀ j g', goroutines s !! j = Some g' -> waitsW (at_pc g') = false).

(** The mutex agrees with the places of the goroutines. *)
Record rwInv (s : system) : Prop := {
  rw_lock : lockInv s;
  rw_readers : readers (mu s) = readersOf (goroutines s);
  rw_exclusive : writer (mu s) = true -> readers (mu s) = 0%nat;
}.

End LockDiscipline.

(** ** Vocabulary of the answers of concurrent callers *)

Section Answers.
Variable newKeys : gmap string rsa.PublicKey.

(** What [getKey] returns for [k] once the map [newKeys] is installed and
    valid: the key of [k], or one of its two not-found errors. *)
Definition answered (k : string) (r : result rsa.PublicKey keyError) : Prop :=
  match newKeys !! k with
  | Some key => r = Ok key
  | None => r = Err (ErrNotInCache k) ∨ r = Err (ErrNotFoundAfterRefresh k)
  end.

(** A goroutine after the installation: it is not fetching, carries no
    error of [refresh], and the result it carries is [answered]. *)
Definition settled (g : goroutine) : Prop :=
  match at_pc g with
  | R_Get | R_Recv _ => False
  | R_Unlock err => err = None
  | G_RUnlock1 (Some r) | G_RUnlock2 r | Done r => answered (kid g) r
  | _ => True
  end.

Definition installed (s : system) : Prop :=
  keys (keyCache (shared s)) = newKeys ∧
  ∀ j g, goroutines s !! j = Some g -> settled g.

End Answers.

(** ** Vocabulary of callers served from a valid cache *)

(** A goroutine on the short way through [getKey]: it is at the first
    read section, or has the outcome of the lookup in the cache [c]. *)
Definition served (c : publicKeyCache) (g : goroutine) : Prop :=
  match at_pc g with
  | G_RLock1 | G_Check => True
  | G_RUnlock1 (Some r) | Done r => r = lookupKey c (kid g) (ErrNotInCache (kid g))
  | _ => False
  end.


(** ** The server around the verification path

    The remaining closures of [newMux], the logging middleware with its
    [responseCapture], and [main].  A handler is written against the
    interface [http.ResponseWriter], so that the same handler runs on the
    writer of the server and on the [responseCapture] the middleware hands
    to it. *)

From stdpp Require pretty.

Module server.

Definition StatusNotFound : Z := 404.

(** What one [Write] adds to the body of a response. *)
Inductive chunk : Type :=
| Text (s : string)     (* [fmt.Fprint(w, s)] *)
| Line (v : jvalue).    (* [json.NewEncoder(w).Encode(v)]: the value and a newline *)

(** The interface [http.ResponseWriter], by the calls the program makes. *)
Class Writer (W : Type) : Type := {
  Header_Set : W -> string -> string -> W;   (* [w.Header().Set(key, value)] *)
  WriteHeader : W -> Z -> W;                 (* [w.WriteHeader(code)] *)
  Write : W -> chunk -> W;                   (* [w.Write(p)] *)
}.

(** The writer of the server, by what it has received: the header map,
    the status once the header is written, the body.  The first
    [WriteHeader] counts, and a [Write] before any [WriteHeader] writes the
    header with status 200.  (Codes from 200 to 999; the server panics on a
    code outside 100..999 and treats 1xx as informational.) *)
Record Recorder : Type := {
  rec_Header : gmap string (list string);
  rec_Status : option Z;
  rec_Body : list chunk;
}.

Definition NewRecorder : Recorder :=
  {| rec_Header := ∅; rec_Status := None; rec_Body := [] |}.

#[global] Instance Recorder_Writer : Writer Recorder := {|
  Header_Set w key value :=
    {| rec_Header := <[key := [value]]> (rec_Header w);
       rec_Status := rec_Status w; rec_Body := rec_Body w |};
  WriteHeader w code :=
    {| rec_Header := rec_Header w;
       rec_Status := match rec_Status w with Some c => Some c | None => Some code end;
       rec_Body := rec_Body w |};
  Write w p :=
    {| rec_Header := rec_Header w;
       rec_Status := match rec_Status w with Some c => Some c | None => Some http.StatusOK end;
       rec_Body := rec_Body w ++ [p] |};
|}.

(** [type responseCapture struct { http.ResponseWriter; status int }] *)
Record responseCapture (W : Type) : Type := {
  rc_ResponseWriter : W;
  status : Z;
}.
Arguments rc_ResponseWriter {W} _.
Arguments status {W} _.

(** [Header] and [Write] are promoted from the embedded writer;
    [WriteHeader] is the method of [*responseCapture]. *)
#[global] Instance responseCapture_Writer {W : Type} `{Writer W} : Writer (responseCapture W) := {|
  Header_Set rc key value :=
    {| rc_ResponseWriter := Header_Set (rc_ResponseWriter rc) key value;
       status := status rc |};
  WriteHeader rc code :=
    let rc := {| rc_ResponseWriter := rc_ResponseWriter rc; status := code |} in
    {| rc_ResponseWriter := WriteHeader (rc_ResponseWriter rc) code; status := status rc |};
  Write rc p :=
    {| rc_ResponseWriter := Write (rc_ResponseWriter rc) p; status := status rc |};
|}.

(** The fields of [*http.Request] the server reads. *)
Record Request : Type := {
  Method : string;
  URL_Path : string;
  Header : gmap string (list string);
}.

(** [http.Handler]: a handler takes any [http.ResponseWriter]. *)
Definition Handler : Type := ∀ (W : Type), Writer W -> W -> Request -> M W.

Section Handlers.
Context `{GoLibs} {W : Type} `{Writer W}.

Definition writeJSON {A : Type} `{Marshal A} (w : W) (status : Z) (v : A) : W :=
  let w := Header_Set w "Content-Type" "application/json" in
  let w := WriteHeader w status in
  Write w (Line (marshal v)).

Definition writeError (w : W) (status : Z) (code message : string) : W :=
  writeJSON w status {| Error := {| Code := code; Message := message |} |}.

(** The closure of [GET /{$}], over [homeHTML]. *)
Definition newMux_home (homeHTML : string) (w : W) (r : Request) : M W :=
  let w := Header_Set w "Content-Type" "text/html; charset=utf-8" in
  let w := WriteHeader w http.StatusOK in
  ret (Write w (Text homeHTML)).

(** The closure of [GET /profile], over [profileHTML]. *)
Definition newMux_profile (profileHTML : string) (w : W) (r : Request) : M W :=
  let w := Header_Set w "Content-Type" "text/html; charset=utf-8" in
  let w := WriteHeader w http.StatusOK in
  ret (Write w (Text profileHTML)).

(** The closure of [GET /api/me], over [cfg]. *)
Definition newMux_apiMe (cfg : firebaseConfig) (w : W) (r : Request) : M W :=
  let authHeader := http.Get (Header r) "Authorization" in
  if String.eqb authHeader "" || negb (strings.HasPrefix authHeader "Bearer ") then
    ret (writeError w http.StatusUnauthorized "UNAUTHENTICATED"
           "Missing or invalid authentication token")
  else
    let tokenString := strings.TrimPrefix authHeader "Bearer " in
    res <- (if negb (String.eqb (AuthEmulatorHost cfg) "")
            then verifyEmulatorToken tokenString (ProjectID cfg)
            else verifyIDToken tokenString (ProjectID cfg)) ;;
    match res with
    | Err err =>
        slog "WARN" "token verification failed" [("error", LErr err)] ;;;
        ret (writeError w http.StatusUnauthorized "UNAUTHENTICATED"
               "Missing or invalid authentication token")
    | Ok user => ret (writeJSON w http.StatusOK user)
    end.

(** The closure of the catch-all pattern. *)
Definition newMux_notFound (w : W) (r : Request) : M W :=
  ret (WriteHeader w StatusNotFound).

End Handlers.

(** [newMux]: the patterns registered on the [ServeMux], each with its
    handler.  [homePage] and [profilePage] build the text of the two pages
    from the configuration; the router calls each once, when it is built. *)
Section Mux.
Context `{GoLibs}.
Variables homePage profilePage : firebaseConfig -> string.

Definition newMux (cfg : firebaseConfig) : list (string * Handler) :=
  let homeHTML := homePage cfg in
  let profileHTML := profilePage cfg in
  [ ("GET /{$}", fun W _ => newMux_home homeHTML);
    ("GET /profile", fun W _ => newMux_profile profileHTML);
    ("GET /api/me", fun W _ => newMux_apiMe cfg);
    ("/", fun W _ => newMux_notFound) ].

End Mux.

(** *** Logging middleware *)

(** [counter++] on a [uint64] *)
Definition uint64 (z : Z) : Z := z mod 2 ^ 64.

(** [t.UnixNano()]: an [int64] *)
Definition UnixNano (t : Time) : Z := time.wrap64 t.

(** [t.Sub(u)]: the difference, or the largest (smallest) [Duration] when
    it does not fit. *)
Definition Sub (t u : Time) : Duration :=
  Z.max (- 2 ^ 63) (Z.min (2 ^ 63 - 1) (t - u)).

(** [time.Since(start)] *)
Definition Since (start : Time) : M Duration :=
  t <- time_Now ;; ret (Sub t start).

(** [d.Microseconds()]: integer division, rounding towards zero *)
Definition Microseconds (d : Duration) : Z := Z.quot d 1000.

(** [fmt.Sprintf] of the format [%d-%d] *)
Definition Sprintf_d_d (a b : Z) : string := pretty.pretty a +:+ "-" +:+ pretty.pretty b.

(** The record [slog.Info] writes with the message [request].  The
    attribute [latency_ms] is [float64(latency.Microseconds())/1000.0]; the
    record holds the integer the quotient is taken of. *)
Record requestLog : Type := {
  request_id : string;
  method : string;
  path : string;
  log_status : Z;
  latency_us : Z;
}.

(** The closure [loggingMiddleware next] returns.  [counter] is the
    variable the closure captures: the call takes its value and returns the
    new one.  The result carries the record that is logged. *)
Definition loggingMiddleware {W : Type} `{Writer W} (next : Handler) (counter : Z)
    (w : W) (r : Request) : M (W * Z * requestLog) :=
  start <- time_Now ;;
  let counter := uint64 (counter + 1) in
  let requestID := Sprintf_d_d (UnixNano start) counter in
  let rc := {| rc_ResponseWriter := w; status := http.StatusOK |} in
  rc <- next (responseCapture W) _ rc r ;;
  latency <- Since start ;;
  ret (rc_ResponseWriter rc, counter,
       {| request_id := requestID;
          method := Method r;
          path := URL_Path r;
          log_status := status rc;
          latency_us := Microseconds latency |}).

(** Requests served one after the other by the same closure, each on a
    writer of its own: the records logged, in the order of the requests. *)
Fixpoint serve (next : Handler) (counter : Z) (rs : list Request) : M (list requestLog) :=
  match rs with
  | [] => ret []
  | r :: rs =>
      out <- loggingMiddleware next counter NewRecorder r ;;
      let '(_, counter, l) := out in
      ls <- serve next counter rs ;;
      ret (l :: ls)
  end.

(** *** [main] *)

(** How [main] leaves the stage: [os.Exit(code)], or the call
    [http.ListenAndServe(addr, handler)], where [handler] is
    [loggingMiddleware(newMux(cfg))]. *)
Inductive outcome : Type :=
| os_Exit (code : Z)
| ListenAndServe (addr : string) (cfg : firebaseConfig).

(** [main], up to the call of [http.ListenAndServe]. *)
Definition main (env : gmap string string) : M outcome :=
  let port := Getenv env "PORT" in
  if String.eqb port "" then
    slog "ERROR" "PORT environment variable is required but not set" [] ;;;
    ret (os_Exit 1)
  else
    cfg <- loadFirebaseConfig env ;;
    match cfg with
    | None => ret (os_Exit 1)
    | Some cfg =>
        let addr := ":" +:+ port in
        slog "INFO" "server starting" [("addr", LStr addr)] ;;;
        ret (ListenAndServe addr cfg)
    end.

(** [main], once [http.ListenAndServe] has returned [err]. *)
Definition main_failed (err : string) : M outcome :=
  slog "ERROR" "server failed" [("error", LStr err)] ;;;
  ret (os_Exit 1).

End server.

(** ** Vocabulary of the statements about the server *)

(** A call of a method of [http.ResponseWriter]. *)
Inductive call : Type :=
| Call_Header_Set (key value : string)
| Call_WriteHeader (code : Z)
| Call_Write (p : server.chunk).

Definition calls {W : Type} `{server.Writer W} (cs : list call) (w : W) : W :=
  foldl (fun w c =>
           match c with
           | Call_Header_Set key value => server.Header_Set w key value
           | Call_WriteHeader code => server.WriteHeader w code
           | Call_Write p => server.Write w p
           end) w cs.

(** The code a call of [WriteHeader] passes. *)
Definition passedCode (c : call) : option Z :=
  match c with Call_WriteHeader code => Some code | _ => None end.

(** The status a call puts on the wire when it is the first to write the
    header. *)
Definition headerWritten (c : call) : option Z :=
  match c with
  | Call_Header_Set _ _ => None
  | Call_WriteHeader code => Some code
  | Call_Write _ => Some http.StatusOK
  end.

(** The response of the model of [GET /api/me] on a [ResponseWriter],
    read off a [server.Recorder]. *)
Definition jsonOf (p : server.chunk) : option jvalue :=
  match p with server.Line v => Some v | server.Text _ => None end.

Definition asResponseWriter (w : server.Recorder) : ResponseWriter :=
  {| Header := server.rec_Header w; Status := server.rec_Status w;
     Written := omap jsonOf (server.rec_Body w) |}.

Definition asRequest (r : server.Request) : http.Request :=
  {| http.ReqHeader := server.Header r |}.

(** Whether the sign [-] occurs in a string. *)
Fixpoint hasDash (s : string) : bool :=
  match s with
  | EmptyString => false
  | String c s => Ascii.eqb c "-" || hasDash s
  end.

(** * Properties *)

(** ** Strings *)

Lemma append_nil_l (s : string) : String.append "" s = s.
Proof. reflexivity. Qed.

Lemma append_cons (c : Ascii.ascii) (p s : string) :
  String.append (String c p) s = String c (String.append p s).
Proof. reflexivity. Qed.

Lemma HasPrefix_app (p s : string) : strings.HasPrefix (String.append p s) p = true.
Proof.
  induction p as [|c p IH]; [done|].
  rewrite append_cons. simpl. by rewrite Ascii.eqb_refl.
Qed.

Lemma HasPrefix_inv (p s : string) :
  strings.HasPrefix s p = true -> s = String.append p (strings.drop (String.length p) s).
Proof.
  revert s. induction p as [|c p IH]; intros s; simpl; [done|].
  destruct s as [|d s]; [done|].
  destruct (Ascii.eqb c d) eqn:E; [|done].
  apply Ascii.eqb_eq in E as ->. intros Hp. rewrite append_cons. f_equal. by apply IH.
Qed.

Lemma TrimPrefix_app (p s : string) : strings.TrimPrefix (String.append p s) p = s.
Proof.
  unfold strings.TrimPrefix. rewrite HasPrefix_app.
  induction p as [|c p IH]; [done|]. by rewrite append_cons.
Qed.

Lemma append_length_inj (s1 s2 t1 t2 : string) :
  String.length s1 = String.length s2 ->
  String.append s1 t1 = String.append s2 t2 -> s1 = s2.
Proof.
  revert s2. induction s1 as [|c s1 IH]; intros [|d s2]; simpl; try done.
  rewrite !append_cons. intros [= Hl] [= -> Ha]. f_equal. by apply IH.
Qed.

(** Splitting after a piece that holds no separator. *)
Lemma Split_single_app (a b : string) (sep : Ascii.ascii) :
  strings.Split a sep = [a] ->
  strings.Split (String.append a (String sep b)) sep = a :: strings.Split b sep.
Proof.
  induction a as [|c a IH]; intros Ha.
  - rewrite append_nil_l. simpl. by rewrite Ascii.eqb_refl.
  - rewrite append_cons. simpl in *.
    destruct (Ascii.eqb c sep); [discriminate|].
    destruct (strings.Split a sep) as [|piece rest] eqn:Es.
    + injection Ha as <-. discriminate.
    + injection Ha as -> ->. by rewrite IH.
Qed.

Lemma ToLower_length (s : string) : String.length (ToLower s) = String.length s.
Proof. induction s; simpl; congruence. Qed.

(** A scheme of the same length as the prefix passes the check only when it
    is the prefix itself. *)
Lemma HasPrefix_same_length (p scheme rest : string) :
  String.length scheme = String.length p ->
  strings.HasPrefix (String.append scheme rest) p = true -> scheme = p.
Proof.
  intros Hl Hp. apply HasPrefix_inv in Hp.
  by apply (append_length_inj _ _ _ _ Hl Hp).
Qed.

(** ** The library functions on small inputs *)

Example Split_three_segments : strings.Split "a.b.c" "."%char = ["a"; "b"; "c"].
Proof. reflexivity. Qed.

Example Split_empty : strings.Split "" "."%char = [""].
Proof. reflexivity. Qed.

Example Split_trailing_separator : strings.Split "a.b." "."%char = ["a"; "b"; ""].
Proof. reflexivity. Qed.

Example TrimSpace_both_ends : strings.TrimSpace "  max-age=60 " = "max-age=60".
Proof. reflexivity. Qed.

(** White space is what [unicode.IsSpace] holds for, read rune by rune:
    NEL (U+0085) and NO-BREAK SPACE (U+00A0) of Latin-1 and the spaces
    above it, such as EM SPACE (U+2003), are trimmed in their UTF-8
    encoding; a byte that does not decode to a space is kept. *)
Example TrimSpace_unicode :
  let nel := String "194" (String "133" "") in
  let nbsp := String "194" (String "160" "") in
  let emsp := String "226" (String "128" (String "131" "")) in
  strings.TrimSpace (String.append nbsp "max-age=60") = "max-age=60" ∧
  strings.TrimSpace (String.append nel " max-age=60") = "max-age=60" ∧
  strings.TrimSpace (String.append "max-age=60 " emsp) = "max-age=60" ∧
  strings.TrimSpace (String.append nbsp emsp) = "" ∧
  strings.TrimSpace (String "160" "max-age=60 ") = String "160" "max-age=60" ∧
  strings.TrimSpace (String.append " max-age=60" (String "226" (String "128" "")))
  = String.append "max-age=60" (String "226" (String "128" "")).
Proof. repeat split; vm_compute; reflexivity. Qed.

Example Atoi_signs_and_range :
  strconv.Atoi "3600" = Some 3600 ∧ strconv.Atoi "-5" = Some (-5) ∧
  strconv.Atoi "+7" = Some 7 ∧ strconv.Atoi "" = None ∧ strconv.Atoi "-" = None ∧
  strconv.Atoi "60s" = None ∧ strconv.Atoi "9223372036854775808" = None.
Proof. repeat split; reflexivity. Qed.

Example GetSigningMethod_cases :
  jwt.GetSigningMethod "RS256" = Some jwt.RS256 ∧
  jwt.GetSigningMethod "none" = Some jwt.none ∧
  jwt.GetSigningMethod "ES256K" = None ∧ jwt.GetSigningMethod "rs256" = None.
Proof. repeat split; reflexivity. Qed.

(** ** The loops of the string functions run to their end

    The loops over a string are written with a number of turns.  The
    number each function passes is enough: no loop stops because its turns
    are used up, and more turns change nothing. *)

Lemma length_substring (n m : nat) (s : string) :
  String.length (String.substring n m s) = Nat.min m (String.length s - n).
Proof.
  revert n m. induction s as [|c s IH]; intros n m.
  - by destruct n, m.
  - destruct n as [|n], m as [|m]; simpl; rewrite ?IH; try done.
    by rewrite Nat.sub_0_r.
Qed.

Lemma len_slice (s : string) (i j : Z) :
  0 ≤ i -> i ≤ j -> j ≤ len s -> len (slice s i j) = j - i.
Proof.
  intros Hi Hij Hj. unfold len, slice in *. rewrite length_substring. lia.
Qed.

Lemma DecodeRuneInString_size (s : string) :
  0 < len s -> 1 ≤ snd (utf8.DecodeRuneInString s) ≤ 4.
Proof.
  intros Hs. unfold utf8.DecodeRuneInString.
  destruct (len s <? 1) eqn:E; [apply Z.ltb_lt in E; lia|].
  repeat (match goal with
          | |- context [if ?b then _ else _] => destruct b
          end; cbn [snd]; try lia).
Qed.

Lemma walkBack_le (reads : nat) (s : string) (start lim : Z) :
  utf8.walkBack reads s start lim ≤ start.
Proof.
  revert start. induction reads as [|reads IH]; intros start; simpl; [lia|].
  destruct (start <? lim); [lia|]. destruct (utf8.RuneStart _); [lia|].
  specialize (IH (start - 1)). lia.
Qed.

Lemma DecodeLastRuneInString_size (s : string) :
  0 < len s -> 1 ≤ snd (utf8.DecodeLastRuneInString s) ≤ 4.
Proof.
  intros Hs. unfold utf8.DecodeLastRuneInString.
  destruct (len s =? 0) eqn:E; [apply Z.eqb_eq in E; lia|].
  destruct (byteAt s (len s - 1) <? utf8.RuneSelf); [cbn; lia|].
  set (start := if _ <? 0 then 0 else _).
  assert (Hstart : 0 ≤ start ≤ len s - 1).
  { subst start. pose proof (walkBack_le 4 s (len s - 1 - 1) (Z.max (len s - utf8.UTFMax) 0)).
    destruct (_ <? 0) eqn:E0; [lia|]. apply Z.ltb_ge in E0. lia. }
  pose proof (DecodeRuneInString_size (slice s start (len s))) as Hsize.
  rewrite len_slice in Hsize by lia.
  destruct (utf8.DecodeRuneInString _) as [r size]. cbn [snd] in Hsize.
  destruct (negb _); cbn [snd]; lia.
Qed.

(** The four reads of [walkBack] reach the limit. *)
Lemma walkBack_reads (reads : nat) (s : string) (start lim : Z) :
  start - lim < 3 ->
  utf8.walkBack (4 + reads) s start lim = utf8.walkBack 4 s start lim.
Proof.
  intros Hlim. cbn -[Z.sub].
  repeat (destruct (_ <? lim) eqn:?; [done|]; destruct (utf8.RuneStart _); [done|]).
  destruct reads as [|reads]; [done|]. cbn -[Z.sub].
  destruct (start - 1 - 1 - 1 - 1 <? lim) eqn:E; [done|]. apply Z.ltb_ge in E. lia.
Qed.

Lemma indexFunc_from_turns (turns turns' : nat) (s : string) (i : Z) f truth :
  0 ≤ i -> len s - i < Z.of_nat turns -> len s - i < Z.of_nat turns' ->
  strings.indexFunc_from turns s i f truth = strings.indexFunc_from turns' s i f truth.
Proof.
  revert turns' i. induction turns as [|turns IH]; intros [|turns'] i Hi Ht Ht'.
  - done.
  - simpl. destruct (len s <=? i) eqn:E; [done|]. apply Z.leb_gt in E. lia.
  - simpl. destruct (len s <=? i) eqn:E; [done|]. apply Z.leb_gt in E. lia.
  - simpl. destruct (len s <=? i) eqn:E; [done|]. apply Z.leb_gt in E.
    pose proof (DecodeRuneInString_size (slice s i (len s))) as Hsize.
    rewrite len_slice in Hsize by lia.
    destruct (utf8.DecodeRuneInString _) as [r size]. cbn [snd] in Hsize.
    destruct (Bool.eqb _ _); [done|]. apply IH; lia.
Qed.

Lemma lastIndexFunc_from_turns (turns turns' : nat) (s : string) (i : Z) f truth :
  i ≤ len s -> i < Z.of_nat turns -> i < Z.of_nat turns' ->
  strings.lastIndexFunc_from turns s i f truth
  = strings.lastIndexFunc_from turns' s i f truth.
Proof.
  revert turns' i. induction turns as [|turns IH]; intros [|turns'] i Hi Ht Ht'.
  - done.
  - simpl. destruct (i <=? 0) eqn:E; [done|]. apply Z.leb_gt in E. lia.
  - simpl. destruct (i <=? 0) eqn:E; [done|]. apply Z.leb_gt in E. lia.
  - simpl. destruct (i <=? 0) eqn:E; [done|]. apply Z.leb_gt in E.
    pose proof (DecodeLastRuneInString_size (slice s 0 i)) as Hsize.
    rewrite len_slice in Hsize by lia.
    destruct (utf8.DecodeLastRuneInString _) as [r size]. cbn [snd] in Hsize.
    destruct (Bool.eqb _ _); [done|]. apply IH; lia.
Qed.

Lemma TrimSpace_start_turns (turns turns' : nat) (s : string) (start : Z) :
  len s - start < Z.of_nat turns -> len s - start < Z.of_nat turns' ->
  strings.TrimSpace_start turns s start = strings.TrimSpace_start turns' s start.
Proof.
  revert turns' start. induction turns as [|turns IH]; intros [|turns'] start Ht Ht'.
  - done.
  - simpl. destruct (len s <=? start) eqn:E; [done|]. apply Z.leb_gt in E. lia.
  - simpl. destruct (len s <=? start) eqn:E; [done|]. apply Z.leb_gt in E. lia.
  - simpl. destruct (len s <=? start) eqn:E; [done|]. apply Z.leb_gt in E.
    destruct (utf8.RuneSelf <=? _); [done|]. destruct (negb _); [done|].
    apply IH; lia.
Qed.

Lemma TrimSpace_stop_turns (turns turns' : nat) (s : string) (start stop : Z) :
  stop - start < Z.of_nat turns -> stop - start < Z.of_nat turns' ->
  strings.TrimSpace_stop turns s start stop = strings.TrimSpace_stop turns' s start stop.
Proof.
  revert turns' stop. induction turns as [|turns IH]; intros [|turns'] stop Ht Ht'.
  - done.
  - simpl. destruct (stop <=? start) eqn:E; [done|]. apply Z.leb_gt in E. lia.
  - simpl. destruct (stop <=? start) eqn:E; [done|]. apply Z.leb_gt in E. lia.
  - simpl. destruct (stop <=? start) eqn:E; [done|]. apply Z.leb_gt in E.
    destruct (utf8.RuneSelf <=? _); [done|]. destruct (negb _); [done|].
    apply IH; lia.
Qed.

(** [TrimSpace] with any number of further turns for its loops, and for
    the loops of the functions it calls, is [TrimSpace]. *)
Lemma TrimSpace_turns (s : string) (more : nat) :
  strings.TrimSpace s
  = match strings.TrimSpace_start (S (String.length s) + more) s 0 with
    | inr trimmed => trimmed
    | inl start =>
        match strings.TrimSpace_stop (S (String.length s) + more) s start (len s) with
        | inr trimmed => trimmed
        | inl stop => slice s start stop
        end
    end ∧
  (∀ f truth,
     strings.indexFunc s f truth
     = strings.indexFunc_from (S (String.length s) + more) s 0 f truth) ∧
  (∀ f truth,
     strings.lastIndexFunc s f truth
     = strings.lastIndexFunc_from (S (String.length s) + more) s (len s) f truth).
Proof.
  assert (Hstart : ∀ turns s start, 0 ≤ start ->
            match strings.TrimSpace_start turns s start with
            | inl start' => start ≤ start'
            | inr _ => True
            end).
  { clear. induction turns as [|turns IH]; intros s start Hs; simpl; [lia|].
    destruct (len s <=? start); [lia|].
    destruct (utf8.RuneSelf <=? _); [done|]. destruct (negb _); [lia|].
    specialize (IH s (start + 1)). destruct (strings.TrimSpace_start _ _ _); [lia|done]. }
  unfold strings.TrimSpace, strings.indexFunc, strings.lastIndexFunc, len.
  split; [|split].
  - rewrite (TrimSpace_start_turns (S (String.length s)) (S (String.length s) + more))
      by (unfold len; lia).
    pose proof (Hstart (S (String.length s) + more)%nat s 0 ltac:(lia)) as Hle.
    destruct (strings.TrimSpace_start _ _ _) as [start|t]; [|done].
    by rewrite (TrimSpace_stop_turns (S (String.length s)) (S (String.length s) + more))
      by (unfold len; lia).
  - intros f truth. apply indexFunc_from_turns; unfold len; lia.
  - intros f truth. apply lastIndexFunc_from_turns; unfold len; lia.
Qed.

Section MaxAge.
Context `{GoLibs}.

Example parseMaxAge_google :
  parseMaxAge "public, max-age=19845, must-revalidate, no-transform" = 19845.
Proof. reflexivity. Qed.

Example parseMaxAge_default :
  parseMaxAge "" = 3600 ∧ parseMaxAge "no-cache" = 3600 ∧ parseMaxAge "max-age=soon" = 3600.
Proof. repeat split; reflexivity. Qed.

Example parseMaxAge_last_wins : parseMaxAge "max-age=60, max-age=120" = 120.
Proof. reflexivity. Qed.

(** A directive framed by white space that is not ASCII is read all the
    same. *)
Example parseMaxAge_unicode_space :
  let nbsp := String "194" (String "160" "") in
  let emsp := String "226" (String "128" (String "131" "")) in
  parseMaxAge (String.append nbsp "max-age=60") = 60 ∧
  parseMaxAge (String.append "public," (String.append nbsp (String.append "max-age=0" emsp)))
  = 0.
Proof. repeat split; vm_compute; reflexivity. Qed.

(** The directive is taken as it parses: zero and negative values too, and
    a value whose nanoseconds overflow 64 bits wraps around. *)
Example parseMaxAge_not_positive :
  parseMaxAge "max-age=0" = 0 ∧ parseMaxAge "max-age=-30" = -30 ∧
  time.Seconds (parseMaxAge "max-age=9223372037") = -9223372036709551616.
Proof. repeat split; reflexivity. Qed.

End MaxAge.

(** ** Traces of the monadic code *)

Lemma emitted_app (w w' : world) (new : list event) :
  trace w' = new ++ trace w -> emitted w w' = new.
Proof.
  unfold emitted. intros ->. rewrite length_app.
  replace (length new + length (trace w) - length (trace w))%nat with (length new) by lia.
  apply take_app_length.
Qed.

Lemma grows_refl (P : event -> Prop) (w : world) : grows P w w.
Proof. by exists []. Qed.

Lemma grows_trans (P : event -> Prop) (w1 w2 w3 : world) :
  grows P w1 w2 -> grows P w2 w3 -> grows P w1 w3.
Proof.
  intros (n1 & E1 & F1) (n2 & E2 & F2). exists (n2 ++ n1). split.
  - by rewrite E2, E1, app_assoc.
  - by apply Forall_app.
Qed.

Lemma grows_weaken (P Q : event -> Prop) (w w' : world) :
  (∀ e, P e -> Q e) -> grows P w w' -> grows Q w w'.
Proof.
  intros HPQ (new & E & F). exists new. split; [done|].
  eapply Forall_impl; eauto.
Qed.

Lemma emits_ret {A : Type} (P : event -> Prop) (a : A) : emits P (ret a).
Proof. intros w. apply grows_refl. Qed.

Lemma emits_bind {A B : Type} (P : event -> Prop) (m : M A) (k : A -> M B) :
  emits P m -> (∀ a, emits P (k a)) -> emits P (bind m k).
Proof.
  intros Hm Hk w. unfold bind. specialize (Hm w).
  destruct (m w) as [a w1]. simpl in Hm.
  eapply grows_trans; [exact Hm | apply Hk].
Qed.

Lemma emits_emit (P : event -> Prop) (e : event) : P e -> emits P (emit e).
Proof. intros He w. exists [e]. split; [done | by constructor]. Qed.

Lemma emits_slog (P : event -> Prop) level msg attrs :
  P (Log level msg attrs) -> emits P (slog level msg attrs).
Proof. apply emits_emit. Qed.

Lemma emits_time_Now (P : event -> Prop) : emits P time_Now.
Proof. intros w. apply grows_refl. Qed.

Lemma emits_readCache (P : event -> Prop) : emits P readCache.
Proof. intros w. apply grows_refl. Qed.

Lemma emits_writeCache (P : event -> Prop) c : emits P (writeCache c).
Proof. intros w. by exists []. Qed.

Lemma emits_http_Get (P : event -> Prop) url : P (HTTPGet url) -> emits P (http_Get url).
Proof.
  intros Hp w. exists [HTTPGet url]. split; [|by constructor].
  unfold http_Get. by destruct (network w).
Qed.

Lemma emits_weaken {A : Type} (P Q : event -> Prop) (m : M A) :
  (∀ e, P e -> Q e) -> emits P m -> emits Q m.
Proof. intros HPQ Hm w. eapply grows_weaken; eauto. Qed.

Create HintDb emits discriminated.
#[local] Hint Resolve emits_ret emits_emit emits_slog emits_time_Now emits_readCache
  emits_writeCache emits_http_Get : emits.
#[local] Hint Extern 1 (quiet _) => reflexivity : emits.

(** Splits a goal [emits P m] along the binds and the case analyses of [m]. *)
Ltac emits_step :=
  match goal with
  | |- emits _ (bind _ _) => apply emits_bind; [|intros ?]
  | |- emits _ (match ?x with _ => _ end) => destruct x eqn:?
  | |- emits _ (if ?x then _ else _) => destruct x eqn:?
  | |- emits _ _ => solve [eauto with emits]
  end.

Section TraceFacts.
Context `{GoLibs}.

Lemma quiet_Log level msg attrs : quiet (Log level msg attrs).
Proof. done. Qed.

Lemma refresh_install_quiet r : emits quiet (refresh_install r).
Proof. unfold refresh_install. repeat emits_step. Qed.

Lemma refresh_quiet : emits quiet refresh.
Proof.
  unfold refresh. repeat emits_step; try done.
  apply refresh_install_quiet.
Qed.

Lemma getKey_quiet k : emits quiet (getKey k).
Proof.
  unfold getKey. repeat emits_step; try done.
  apply refresh_quiet.
Qed.

(** [verifyEmulatorToken] changes nothing in the world but the record of
    its own entry. *)
Lemma verifyEmulatorToken_world tokenString projectID w :
  snd (verifyEmulatorToken tokenString projectID w)
  = snd (emit (Call_verifyEmulatorToken tokenString projectID) w).
Proof.
  unfold verifyEmulatorToken, bind. simpl.
  destruct (jwt.ParseUnverified _ _); [|done].
  by destruct (String.eqb _ _).
Qed.

Lemma verifyEmulatorToken_events tokenString projectID w :
  events_of (verifyEmulatorToken tokenString projectID) w
  = [Call_verifyEmulatorToken tokenString projectID].
Proof.
  unfold events_of. rewrite verifyEmulatorToken_world.
  by apply emitted_app.
Qed.

(** The part of [verifyIDToken] after the record of its entry. *)
Lemma verifyIDToken_trace tokenString projectID w :
  ∃ new, trace (snd (verifyIDToken tokenString projectID w))
         = new ++ Call_verifyIDToken tokenString projectID :: trace w
         ∧ Forall quiet new.
Proof.
  unfold verifyIDToken.
  match goal with |- context [bind (emit ?e) ?k] => set (body := k tt) end.
  assert (Hbody : emits quiet body).
  { subst body. cbv beta. repeat emits_step; try done. apply getKey_quiet. }
  unfold bind. simpl.
  destruct (Hbody (snd (emit (Call_verifyIDToken tokenString projectID) w)))
    as (new & E & F).
  exists new. split; [|done]. exact E.
Qed.

Lemma verifyIDToken_events tokenString projectID w :
  ∃ new, events_of (verifyIDToken tokenString projectID) w
         = new ++ [Call_verifyIDToken tokenString projectID]
         ∧ Forall quiet new.
Proof.
  destruct (verifyIDToken_trace tokenString projectID w) as (new & E & F).
  exists new. split; [|done].
  unfold events_of. apply emitted_app. by rewrite E, <- app_assoc.
Qed.

End TraceFacts.

Lemma verifiersCalled_quiet (l : list event) : Forall quiet l -> verifiersCalled l = [].
Proof.
  induction 1 as [|e l He _ IH]; [done|].
  unfold verifiersCalled in *. simpl. by rewrite He.
Qed.

Lemma verifiersCalled_app (l1 l2 : list event) :
  verifiersCalled (l1 ++ l2) = verifiersCalled l1 ++ verifiersCalled l2.
Proof. unfold verifiersCalled. apply omap_app. Qed.

(** ** The handler of [GET /api/me] *)

Section Handler.
Context `{GoLibs}.

Lemma events_of_unchanged {A : Type} (m : M A) (w : world) :
  snd (m w) = w -> events_of m w = [].
Proof.
  intros E. unfold events_of. rewrite E. by apply emitted_app.
Qed.

(** Without the exact prefix the handler stops before any verifier. *)
Lemma apiMe_rejects cfg w0 r w :
  strings.HasPrefix (http.Get (http.ReqHeader r) "Authorization") "Bearer " = false ->
  rejectsUnverified cfg w0 r w.
Proof.
  intros Hp.
  assert (E : newMux_apiMe cfg w0 r w = (unauthenticated w0, w)).
  { unfold newMux_apiMe. rewrite Hp. simpl. by rewrite orb_true_r. }
  split; [done|]. rewrite events_of_unchanged; [done|]. by rewrite E.
Qed.

(** With it, the verifier the configuration selects is run on the rest of
    the header, and its outcome decides the response. *)
Lemma apiMe_verifies cfg w0 r w :
  strings.HasPrefix (http.Get (http.ReqHeader r) "Authorization") "Bearer " = true ->
  newMux_apiMe cfg w0 r w =
    let tokenString :=
      strings.TrimPrefix (http.Get (http.ReqHeader r) "Authorization") "Bearer " in
    let '(res, w1) :=
      match selectedVerifier cfg with
      | EmulatorVerifier => verifyEmulatorToken tokenString (ProjectID cfg) w
      | ProductionVerifier => verifyIDToken tokenString (ProjectID cfg) w
      end in
    match res with
    | Err err =>
        (unauthenticated w0,
         snd (slog "WARN" "token verification failed" [("error", LErr err)] w1))
    | Ok user => (writeJSON w0 http.StatusOK user, w1)
    end.
Proof.
  intros Hp. unfold newMux_apiMe, selectedVerifier. rewrite Hp.
  destruct (String.eqb (http.Get _ _) "") eqn:E.
  { apply String.eqb_eq in E. rewrite E in Hp. discriminate. }
  simpl. unfold bind.
  destruct (String.eqb (AuthEmulatorHost cfg) ""); simpl.
  - destruct (verifyIDToken _ _ w) as [[user|err] w1]; done.
  - destruct (verifyEmulatorToken _ _ w) as [[user|err] w1]; done.
Qed.

(** The events of a request that passes the prefix check: the entry of the
    selected verifier, then events that are no verifier entry. *)
Lemma apiMe_verifier_events cfg w0 r w :
  strings.HasPrefix (http.Get (http.ReqHeader r) "Authorization") "Bearer " = true ->
  verifiersCalled (events_of (newMux_apiMe cfg w0 r) w) = [selectedVerifier cfg].
Proof.
  intros Hp. unfold events_of. rewrite (apiMe_verifies _ _ _ _ Hp). cbv zeta.
  set (tok := strings.TrimPrefix _ _).
  destruct (selectedVerifier cfg).
  - destruct (verifyIDToken_trace tok (ProjectID cfg) w) as (new & E & F).
    destruct (verifyIDToken tok (ProjectID cfg) w) as [[user|err] w1]; simpl in *.
    + rewrite (emitted_app w w1 (new ++ [Call_verifyIDToken tok (ProjectID cfg)])).
      * rewrite verifiersCalled_app, (verifiersCalled_quiet _ F). done.
      * by rewrite E, <- app_assoc.
    + rewrite (emitted_app w _
                 (Log "WARN" "token verification failed" [("error", LErr err)]
                    :: new ++ [Call_verifyIDToken tok (ProjectID cfg)])).
      * change (Log ?a ?b ?c :: ?l) with ([Log a b c] ++ l).
        rewrite !verifiersCalled_app, (verifiersCalled_quiet _ F). done.
      * simpl. by rewrite E, <- app_assoc.
  - pose proof (verifyEmulatorToken_world tok (ProjectID cfg) w) as E.
    destruct (verifyEmulatorToken tok (ProjectID cfg) w) as [[user|err] w1]; simpl in *.
    + rewrite (emitted_app w w1 [Call_verifyEmulatorToken tok (ProjectID cfg)]); [done|].
      by rewrite E.
    + rewrite (emitted_app w _
                 [Log "WARN" "token verification failed" [("error", LErr err)];
                  Call_verifyEmulatorToken tok (ProjectID cfg)]); [done|].
      simpl. by rewrite E.
Qed.

(** Whatever the request, the only verifier the handler can enter is the
    one the configuration selects. *)
Lemma apiMe_only_selected cfg w0 r w :
  Forall (fun v => v = selectedVerifier cfg)
    (verifiersCalled (events_of (newMux_apiMe cfg w0 r) w)).
Proof.
  destruct (strings.HasPrefix (http.Get (http.ReqHeader r) "Authorization") "Bearer ")
    eqn:Hp.
  - rewrite (apiMe_verifier_events _ _ _ _ Hp). by constructor.
  - destruct (apiMe_rejects cfg w0 r w Hp) as [_ ->]. constructor.
Qed.

End Handler.

(** ** Requests without a usable bearer token *)

(** C4, as the code has it.  A request to [GET /api/me] whose
    [Authorization] header is missing (empty) or does not start with
    ["Bearer "] gets the UNAUTHENTICATED response, status 401 and the body
    [{error: {code: UNAUTHENTICATED, message: Missing or invalid
    authentication token}}], no verifier being entered and the world left
    untouched.  A header that is exactly ["Bearer "], an empty token, gets
    the same response, but from the selected verifier, which is entered
    with the empty token and rejects it. *)
Theorem C4_unauthenticated_without_bearer `{GoLibs}
    (cfg : firebaseConfig) (r : http.Request) (w : world) :
  let authHeader := http.Get (http.ReqHeader r) "Authorization" in
  (authHeader = "" ∨ strings.HasPrefix authHeader "Bearer " = false ->
     rejectsUnverified cfg newResponseWriter r w) ∧
  (authHeader = "Bearer " ->
     fst (newMux_apiMe cfg newResponseWriter r w) = unauthenticated newResponseWriter ∧
     verifiersCalled (events_of (newMux_apiMe cfg newResponseWriter r) w)
     = [selectedVerifier cfg]) ∧
  Status (unauthenticated newResponseWriter) = Some 401 ∧
  Written (unauthenticated newResponseWriter)
  = [JObj [("error",
            JObj [("code", JStr "UNAUTHENTICATED");
                  ("message", JStr "Missing or invalid authentication token")])]].
Proof.
  intros authHeader. split; [|split; [|done]].
  - intros [E|E]; apply apiMe_rejects; fold authHeader; [by rewrite E | done].
  - intros E.
    assert (Hp : strings.HasPrefix authHeader "Bearer " = true) by by rewrite E.
    split; [|by apply apiMe_verifier_events].
    rewrite (apiMe_verifies _ _ _ _ Hp). fold authHeader. rewrite E. cbv zeta.
    change (strings.TrimPrefix "Bearer " "Bearer ") with "".
    destruct (selectedVerifier cfg).
    + unfold verifyIDToken, bind. simpl. done.
    + unfold verifyEmulatorToken, bind. simpl. done.
Qed.

(** A request with [Authorization: Basic dXNlcjpwYXNz] and a request whose
    header is ["Bearer "] alone, both against the production configuration. *)
Lemma C4_witness :
  rejectsUnverified (H := Vectors.libs) Vectors.productionCfg newResponseWriter
    {| http.ReqHeader := {[ "Authorization" := ["Basic dXNlcjpwYXNz"] ]} |}
    (Vectors.world0 Vectors.warmCache [])
  ∧ fst (newMux_apiMe (H := Vectors.libs) Vectors.productionCfg newResponseWriter
           (Vectors.bearer "")
           (Vectors.world0 Vectors.warmCache []))
    = unauthenticated newResponseWriter.
Proof.
  split.
  - apply (C4_unauthenticated_without_bearer (H := Vectors.libs)
             Vectors.productionCfg
             {| http.ReqHeader := {[ "Authorization" := ["Basic dXNlcjpwYXNz"] ]} |}
             (Vectors.world0 Vectors.warmCache [])).
    right. vm_compute. reflexivity.
  - apply (C4_unauthenticated_without_bearer (H := Vectors.libs)
             Vectors.productionCfg (Vectors.bearer "")
             (Vectors.world0 Vectors.warmCache [])).
    vm_compute. reflexivity.
Defined.

(** The claim C4 as written fails on the empty token: the header
    ["Bearer "] passes the prefix check, the token is the empty string, and
    [verifyIDToken] is entered. *)
Lemma C4_counterexample :
  let r := Vectors.bearer "" in
  let w := Vectors.world0 Vectors.warmCache [] in
  http.Get (http.ReqHeader r) "Authorization" = "Bearer " ∧
  strings.TrimPrefix (http.Get (http.ReqHeader r) "Authorization") "Bearer " = "" ∧
  events_of (newMux_apiMe (H := Vectors.libs) Vectors.productionCfg newResponseWriter r) w
  = [Log "WARN" "token verification failed"
       [("error",
         LErr (ErrParsingToken
                 {| jwt.Inner := "token contains an invalid number of segments";
                    jwt.Errors := jwt.ValidationErrorMalformed |}))];
     Call_verifyIDToken "" "test-project-123"] ∧
  ¬ rejectsUnverified (H := Vectors.libs) Vectors.productionCfg newResponseWriter r w.
Proof.
  repeat split; try (vm_compute; reflexivity).
  intros [_ E]. vm_compute in E. discriminate.
Qed.

(** ** The scheme check *)

(** C10.  The check is the exact prefix ["Bearer "]: a header that starts
    with these seven bytes reaches the selected verifier, any other is
    answered UNAUTHENTICATED before a verifier is entered; in particular
    every other capitalisation of the scheme, whatever token follows it. *)
Theorem C10_bearer_scheme_is_case_sensitive `{GoLibs}
    (cfg : firebaseConfig) (w0 : ResponseWriter) (r : http.Request) (w : world) :
  let authHeader := http.Get (http.ReqHeader r) "Authorization" in
  (∀ scheme tokenString,
     authHeader = String.append scheme tokenString ->
     ToLower scheme = "bearer " -> scheme ≠ "Bearer " ->
     rejectsUnverified cfg w0 r w) ∧
  (strings.HasPrefix authHeader "Bearer " = false -> rejectsUnverified cfg w0 r w) ∧
  (∀ tokenString,
     authHeader = String.append "Bearer " tokenString ->
     verifiersCalled (events_of (newMux_apiMe cfg w0 r) w) = [selectedVerifier cfg]).
Proof.
  intros authHeader. split; [|split].
  - intros scheme tok E Hlow Hne. apply apiMe_rejects. fold authHeader.
    destruct (strings.HasPrefix authHeader "Bearer ") eqn:Hp; [|done].
    exfalso. apply Hne. rewrite E in Hp.
    apply (HasPrefix_same_length _ _ _) in Hp; [done|].
    by rewrite <- (ToLower_length scheme), Hlow.
  - apply apiMe_rejects.
  - intros tok E. apply apiMe_verifier_events. fold authHeader.
    rewrite E. apply HasPrefix_app.
Qed.

(** The valid token of the vectors behind the scheme [bearer], against a
    cache that holds its key. *)
Lemma C10_witness :
  rejectsUnverified (H := Vectors.libs) Vectors.productionCfg newResponseWriter
    {| http.ReqHeader :=
         {[ "Authorization" :=
              [String.append "bearer "
                 (Vectors.token Vectors.hRS256 Vectors.cValid Vectors.sigValid)] ]} |}
    (Vectors.world0 Vectors.warmCache []).
Proof.
  apply (C10_bearer_scheme_is_case_sensitive (H := Vectors.libs)
           Vectors.productionCfg newResponseWriter
           {| http.ReqHeader :=
                {[ "Authorization" :=
                     [String.append "bearer "
                        (Vectors.token Vectors.hRS256 Vectors.cValid Vectors.sigValid)] ]} |}
           (Vectors.world0 Vectors.warmCache []))
    with (scheme := "bearer ")
         (tokenString := Vectors.token Vectors.hRS256 Vectors.cValid Vectors.sigValid).
  - vm_compute. reflexivity.
  - vm_compute. reflexivity.
  - discriminate.
Defined.

(** ** Mode selection *)

(** A process started without [FIREBASE_AUTH_EMULATOR_HOST], or with an
    empty one, runs with an empty emulator host. *)
Lemma loadFirebaseConfig_production (env : gmap string string) (w : world)
    (cfg : firebaseConfig) :
  Getenv env "FIREBASE_AUTH_EMULATOR_HOST" = "" ->
  fst (loadFirebaseConfig env w) = Some cfg ->
  AuthEmulatorHost cfg = "" ∧ selectedVerifier cfg = ProductionVerifier.
Proof.
  intros Hhost. unfold loadFirebaseConfig, bind, ret. cbv zeta.
  destruct (Nat.ltb 0 _); [discriminate|].
  cbn [AuthEmulatorHost]. rewrite Hhost. simpl.
  intros [= <-]. by unfold selectedVerifier.
Qed.

(** C1.  With an empty emulator host the handler never enters
    [verifyEmulatorToken]: every request that passes the prefix check
    enters [verifyIDToken] and nothing else, and no request enters
    another verifier.  In every configuration, the verifier entered is the
    one the configuration selects, whatever the request holds. *)
Theorem C1_production_never_reaches_emulator `{GoLibs}
    (cfg : firebaseConfig) (w0 : ResponseWriter) (r : http.Request) (w : world) :
  AuthEmulatorHost cfg = "" ->
  Forall (fun e => ∀ t p, e ≠ Call_verifyEmulatorToken t p)
    (events_of (newMux_apiMe cfg w0 r) w) ∧
  Forall (fun v => v = ProductionVerifier)
    (verifiersCalled (events_of (newMux_apiMe cfg w0 r) w)) ∧
  (strings.HasPrefix (http.Get (http.ReqHeader r) "Authorization") "Bearer " = true ->
   verifiersCalled (events_of (newMux_apiMe cfg w0 r) w) = [ProductionVerifier]) ∧
  (∀ cfg' r' w', AuthEmulatorHost cfg' = AuthEmulatorHost cfg ->
     Forall (fun v => v = ProductionVerifier)
       (verifiersCalled (events_of (newMux_apiMe cfg' w0 r') w'))).
Proof.
  intros Hhost.
  assert (Hsel : ∀ cfg', AuthEmulatorHost cfg' = AuthEmulatorHost cfg ->
                         selectedVerifier cfg' = ProductionVerifier).
  { intros cfg' E. unfold selectedVerifier. by rewrite E, Hhost. }
  assert (Hall : ∀ cfg' r' w', AuthEmulatorHost cfg' = AuthEmulatorHost cfg ->
            Forall (fun v => v = ProductionVerifier)
              (verifiersCalled (events_of (newMux_apiMe cfg' w0 r') w'))).
  { intros cfg' r' w' E. rewrite <- (Hsel cfg' E). apply apiMe_only_selected. }
  split; [|split; [by apply Hall | split; [|exact Hall]]].
  - specialize (Hall cfg r w eq_refl).
    induction (events_of (newMux_apiMe cfg w0 r) w) as [|e l IH]; [constructor|].
    unfold verifiersCalled in Hall. simpl in Hall.
    destruct (verifierCalled e) as [v|] eqn:Ev.
    + apply Forall_cons in Hall as [-> Hall]. constructor; [|by apply IH].
      intros t p ->. discriminate.
    + constructor; [|by apply IH]. intros t p ->. discriminate.
  - intros Hp. rewrite (apiMe_verifier_events _ _ _ _ Hp). by rewrite (Hsel cfg eq_refl).
Qed.

(** The unsigned token the emulator would accept, sent to the production
    configuration: [verifyIDToken] alone is entered. *)
Lemma C1_witness :
  verifiersCalled
    (events_of (newMux_apiMe (H := Vectors.libs) Vectors.productionCfg newResponseWriter
                  (Vectors.bearer (Vectors.token Vectors.hNone Vectors.cValid "")))
       (Vectors.world0 Vectors.warmCache []))
  = [ProductionVerifier].
Proof.
  apply (C1_production_never_reaches_emulator (H := Vectors.libs)
           Vectors.productionCfg newResponseWriter
           (Vectors.bearer (Vectors.token Vectors.hNone Vectors.cValid ""))
           (Vectors.world0 Vectors.warmCache [])).
  - reflexivity.
  - vm_compute. reflexivity.
Defined.

(** ** The key cache *)

Section KeyCache.
Context `{GoLibs}.

(** What one round of the certificate loop does to an entry. *)
Lemma parseCerts_cons kid certPEM rest acc :
  parseCerts ((kid, certPEM) :: rest) acc =
    match keyOfPEM certPEM with
    | Some rsaKey => parseCerts rest (<[kid := rsaKey]> acc)
    | None =>
        match pem_Decode certPEM with
        | None => Err (ErrDecodePEM kid)
        | Some blockBytes =>
            match x509_ParseCertificate blockBytes with
            | None => Err (ErrParsingCertificate kid)
            | Some _ => Err (ErrNotRSA kid)
            end
        end
    end.
Proof.
  unfold keyOfPEM. simpl.
  destruct (pem_Decode certPEM) as [blockBytes|]; simpl; [|done].
  destruct (x509_ParseCertificate blockBytes) as [cert|]; simpl; [|done].
  by destruct (x509.PublicKey cert).
Qed.

(** The loop succeeds only when every certificate yields an RSA key. *)
Lemma parseCerts_all_RSA certs acc newKeys :
  parseCerts certs acc = Ok newKeys ->
  ∀ kid certPEM, (kid, certPEM) ∈ certs -> is_Some (keyOfPEM certPEM).
Proof.
  revert acc. induction certs as [|[k0 p0] rest IH]; intros acc Hok kid certPEM Hin.
  - by apply elem_of_nil in Hin.
  - rewrite parseCerts_cons in Hok.
    destruct (keyOfPEM p0) as [key0|] eqn:E0.
    + apply elem_of_cons in Hin as [[= -> ->]|Hin]; [by rewrite E0|].
      by eapply IH.
    + destruct (pem_Decode p0); [|done]. by destruct (x509_ParseCertificate _).
Qed.

(** Keys outside the list come from the accumulator. *)
Lemma parseCerts_other certs acc newKeys kid :
  parseCerts certs acc = Ok newKeys -> kid ∉ certs.*1 -> newKeys !! kid = acc !! kid.
Proof.
  revert acc. induction certs as [|[k0 p0] rest IH]; intros acc Hok Hnot.
  - simpl in Hok. by injection Hok as ->.
  - rewrite parseCerts_cons in Hok.
    destruct (keyOfPEM p0) as [key0|] eqn:E0.
    + simpl in Hnot. apply not_elem_of_cons in Hnot as [Hne Hnot].
      rewrite (IH _ Hok Hnot). by rewrite lookup_insert_ne.
    + destruct (pem_Decode p0); [|done]. by destruct (x509_ParseCertificate _).
Qed.

(** Keys of the list are the keys of their certificates. *)
Lemma parseCerts_member certs acc newKeys kid certPEM :
  parseCerts certs acc = Ok newKeys -> NoDup certs.*1 -> (kid, certPEM) ∈ certs ->
  newKeys !! kid = keyOfPEM certPEM.
Proof.
  revert acc. induction certs as [|[k0 p0] rest IH]; intros acc Hok Hnd Hin.
  - by apply elem_of_nil in Hin.
  - simpl in Hnd. apply NoDup_cons in Hnd as [Hfresh Hnd].
    rewrite parseCerts_cons in Hok.
    destruct (keyOfPEM p0) as [key0|] eqn:E0.
    + apply elem_of_cons in Hin as [[= -> ->]|Hin].
      * rewrite (parseCerts_other _ _ _ _ Hok Hfresh), E0. apply lookup_insert_eq.
      * by eapply IH.
    + destruct (pem_Decode p0); [|done]. by destruct (x509_ParseCertificate _).
Qed.

(** The new key map is the certificate map, certificate by certificate. *)
Lemma parseCerts_map (certMap : gmap string string) newKeys :
  parseCerts (map_to_list certMap) ∅ = Ok newKeys ->
  ∀ kid, newKeys !! kid = certMap !! kid ≫= keyOfPEM.
Proof.
  intros Hok kid. destruct (certMap !! kid) as [certPEM|] eqn:E; simpl.
  - eapply parseCerts_member; [exact Hok | apply NoDup_fst_map_to_list |].
    by apply elem_of_map_to_list.
  - rewrite (parseCerts_other _ _ _ kid Hok); [apply lookup_empty|].
    intros Hin. apply list_elem_of_fmap in Hin as ([k p] & -> & Hin).
    apply elem_of_map_to_list in Hin. simpl in E. congruence.
Qed.

(** An error of [refresh_install] leaves the whole world as it was. *)
Lemma refresh_install_error r w e w' :
  refresh_install r w = (Some e, w') -> w' = w.
Proof.
  unfold refresh_install, ret, bind.
  destruct r as [resp|e0]; [|by intros [= _ <-]].
  destruct (http.Body resp) as [body|e0]; [|by intros [= _ <-]].
  destruct (negb _); [by intros [= _ <-]|].
  destruct (json_Unmarshal_certMap body) as [certMap|]; [|by intros [= _ <-]].
  destruct (parseCerts _ _) as [newKeys|e0]; [|by intros [= _ <-]].
  simpl. discriminate.
Qed.

(** A failing fetch is an error of [refresh_install]. *)
Lemma refresh_install_failing r w :
  failingFetch r -> ∃ e, refresh_install r w = (Some e, w).
Proof.
  assert (Hbad : ∀ (certMap : gmap string string) kid certPEM,
             certMap !! kid = Some certPEM -> keyOfPEM certPEM = None ->
             ∃ e, parseCerts (map_to_list certMap) ∅ = Err e).
  { intros certMap kid certPEM Hin Hnone.
    destruct (parseCerts (map_to_list certMap) ∅) as [newKeys|e] eqn:E; [|by eexists].
    apply elem_of_map_to_list in Hin.
    destruct (parseCerts_all_RSA _ _ _ E _ _ Hin) as [k Hk]. congruence. }
  unfold refresh_install, ret.
  destruct 1 as [e|resp e Hb|resp Hs|resp body Hb Hj
                 |resp body certMap kid certPEM Hb Hj Hin Hp
                 |resp body certMap kid certPEM blockBytes Hb Hj Hin Hp Hx
                 |resp body certMap kid certPEM blockBytes cert alg Hb Hj Hin Hp Hx Hk].
  - by eexists.
  - rewrite Hb. by eexists.
  - destruct (http.Body resp); [|by eexists].
    apply Z.eqb_neq in Hs. rewrite Hs. by eexists.
  - rewrite Hb. destruct (negb _); [by eexists|]. rewrite Hj. by eexists.
  - rewrite Hb. destruct (negb _); [by eexists|]. rewrite Hj.
    destruct (Hbad certMap kid certPEM Hin) as [e ->]; [|by eexists].
    unfold keyOfPEM. by rewrite Hp.
  - rewrite Hb. destruct (negb _); [by eexists|]. rewrite Hj.
    destruct (Hbad certMap kid certPEM Hin) as [e ->]; [|by eexists].
    unfold keyOfPEM. rewrite Hp. simpl. by rewrite Hx.
  - rewrite Hb. destruct (negb _); [by eexists|]. rewrite Hj.
    destruct (Hbad certMap kid certPEM Hin) as [e ->]; [|by eexists].
    unfold keyOfPEM. rewrite Hp. simpl. rewrite Hx. simpl. by rewrite Hk.
Qed.

(** A success of [refresh_install] installs the keys of the response and
    nothing of the old map. *)
Lemma refresh_install_success r w w' :
  refresh_install r w = (None, w') ->
  ∃ resp body certMap,
    r = Ok resp ∧ http.Body resp = Ok body ∧
    http.StatusCode resp = http.StatusOK ∧
    json_Unmarshal_certMap body = Some certMap ∧
    (∀ kid, keys (keyCache w') !! kid = certMap !! kid ≫= keyOfPEM) ∧
    expiry (keyCache w')
    = time.Add (now w)
        (time.Seconds (parseMaxAge (http.Get (http.RespHeader resp) "Cache-Control"))).
Proof.
  unfold refresh_install, ret, bind.
  destruct r as [resp|e0]; [|discriminate].
  destruct (http.Body resp) as [body|e0] eqn:Hb; [|discriminate].
  destruct (Z.eqb (http.StatusCode resp) http.StatusOK) eqn:Hs; [|discriminate].
  simpl.
  destruct (json_Unmarshal_certMap body) as [certMap|] eqn:Hj; [|discriminate].
  destruct (parseCerts _ _) as [newKeys|e0] eqn:Hp; [|discriminate].
  simpl. intros [= <-]. exists resp, body, certMap. simpl.
  apply Z.eqb_eq in Hs. repeat split; try done.
  by apply parseCerts_map.
Qed.

(** [refresh] unfolded: the double check, then the fetch. *)
Lemma refresh_unfold w :
  refresh w =
    let w1 := snd (emit Call_refresh w) in
    if time.Before (now w) (expiry (keyCache w)) then (None, w1)
    else refresh_install (nextFetch w) (snd (http_Get googleCertsURL w1)).
Proof.
  unfold refresh, bind, emit, readCache, time_Now, ret, http_Get, nextFetch. simpl.
  destruct (time.Before _ _); [done|].
  by destruct (network w).
Qed.

End KeyCache.

(** C5.  A refresh that fails, whatever the reason (the request fails, the
    body cannot be read, the status is not 200, the body is not the JSON
    expected, a certificate is not PEM, does not parse, or holds a key that
    is not RSA), returns an error and leaves key map and expiry as they
    were.  A refresh that fetches and succeeds installs exactly the keys
    of the certificates received: nothing of the old map survives unless
    the response names it again.  A refresh that finds the cache still
    valid changes nothing. *)
Theorem C5_failed_refresh_keeps_cache `{GoLibs} (w : world) :
  (∀ e, fst (refresh w) = Some e -> keyCache (snd (refresh w)) = keyCache w) ∧
  (time.Before (now w) (expiry (keyCache w)) = false ->
   failingFetch (nextFetch w) ->
   ∃ e, fst (refresh w) = Some e ∧ keyCache (snd (refresh w)) = keyCache w) ∧
  (time.Before (now w) (expiry (keyCache w)) = false ->
   fst (refresh w) = None ->
   ∃ resp body certMap,
     nextFetch w = Ok resp ∧ http.Body resp = Ok body ∧
     json_Unmarshal_certMap body = Some certMap ∧
     ∀ kid, keys (keyCache (snd (refresh w))) !! kid = certMap !! kid ≫= keyOfPEM) ∧
  (time.Before (now w) (expiry (keyCache w)) = true ->
   fst (refresh w) = None ∧ keyCache (snd (refresh w)) = keyCache w).
Proof.
  rewrite refresh_unfold. cbv zeta.
  destruct (time.Before (now w) (expiry (keyCache w))) eqn:Hfresh.
  - repeat split; done.
  - set (w2 := snd (http_Get googleCertsURL (snd (emit Call_refresh w)))).
    assert (Hc : keyCache w2 = keyCache w).
    { subst w2. unfold http_Get. simpl. by destruct (network w). }
    destruct (refresh_install (nextFetch w) w2) as [[e|] w'] eqn:E; simpl.
    + apply refresh_install_error in E as ->.
      split; [done|]. split; [intros _ _; by exists e|]. split; done.
    + split; [done|]. split; [|split; [|done]].
      * intros _ Hfail.
        destruct (refresh_install_failing _ w2 Hfail) as [e' E']. congruence.
      * intros _ _.
        destruct (refresh_install_success _ _ _ E)
          as (resp & body & certMap & Hr & Hb & _ & Hj & Hk & _).
        by exists resp, body, certMap.
Qed.

(** An expired cache with a stale key, and three failing answers of the
    endpoint: no connection, status 503, a certificate with an ECDSA key. *)
Lemma C5_witness :
  let stale := {| keys := {[ "key-old" := Vectors.keyValid ]};
                  expiry := Vectors.t0 - 1 |} in
  let unavailable := {| http.StatusCode := 503; http.RespHeader := ∅;
                        http.Body := Ok "Service Unavailable" |} in
  let notRSA := {| http.StatusCode := 200; http.RespHeader := ∅;
                   http.Body := Ok Vectors.bodyOneEC |} in
  (∃ e, fst (refresh (H := Vectors.libs) (Vectors.world0 stale [])) = Some e ∧
        keyCache (snd (refresh (H := Vectors.libs) (Vectors.world0 stale []))) = stale) ∧
  (∃ e, fst (refresh (H := Vectors.libs) (Vectors.world0 stale [Ok unavailable])) = Some e ∧
        keyCache (snd (refresh (H := Vectors.libs) (Vectors.world0 stale [Ok unavailable])))
        = stale) ∧
  (∃ e, fst (refresh (H := Vectors.libs) (Vectors.world0 stale [Ok notRSA])) = Some e ∧
        keyCache (snd (refresh (H := Vectors.libs) (Vectors.world0 stale [Ok notRSA])))
        = stale).
Proof.
  intros stale unavailable notRSA. split; [|split].
  - apply (C5_failed_refresh_keeps_cache (H := Vectors.libs) (Vectors.world0 stale [])).
    + vm_compute. reflexivity.
    + apply NetworkFailure.
  - apply (C5_failed_refresh_keeps_cache (H := Vectors.libs)
             (Vectors.world0 stale [Ok unavailable])).
    + vm_compute. reflexivity.
    + apply NonOKStatus. vm_compute. discriminate.
  - apply (C5_failed_refresh_keeps_cache (H := Vectors.libs)
             (Vectors.world0 stale [Ok notRSA])).
    + vm_compute. reflexivity.
    + apply (NotAnRSAKey (H := Vectors.libs) notRSA Vectors.bodyOneEC
               {[ "key-ec" := Vectors.pemEC ]} "key-ec" Vectors.pemEC
               "der:ecdsa:key-ec" {| x509.PublicKey := x509.OtherKey "ECDSA" |} "ECDSA");
        vm_compute; reflexivity.
Defined.

(** C6.  While the expiry lies in the future, [getKey] answers from the
    map: the key when the map holds [kid], the not-found error otherwise.
    It enters neither [refresh] nor the network, and the world after the
    call is the world before it, but for the record of the call itself. *)
Theorem C6_valid_cache_is_read_only `{GoLibs} (kid : string) (w : world) :
  time.Before (now w) (expiry (keyCache w)) = true ->
  fst (getKey kid w)
  = match keys (keyCache w) !! kid with
    | Some key => Ok key
    | None => Err (ErrNotInCache kid)
    end ∧
  keyCache (snd (getKey kid w)) = keyCache w ∧
  network (snd (getKey kid w)) = network w ∧
  now (snd (getKey kid w)) = now w ∧
  events_of (getKey kid) w = [Call_getKey kid] ∧
  fetches (events_of (getKey kid) w) = 0%nat.
Proof.
  intros Hfresh.
  assert (E : getKey kid w
              = (lookupKey (keyCache w) kid (ErrNotInCache kid),
                 snd (emit (Call_getKey kid) w))).
  { unfold getKey, bind, emit, readCache, time_Now, ret. simpl. by rewrite Hfresh. }
  assert (Ev : events_of (getKey kid) w = [Call_getKey kid]).
  { unfold events_of. rewrite E. by apply emitted_app. }
  rewrite Ev, E. repeat split; try done.
Qed.

(** The warm cache of the vectors, asked for the key it holds and for one
    it does not hold. *)
Lemma C6_witness :
  fst (getKey (H := Vectors.libs) "key-valid" (Vectors.world0 Vectors.warmCache []))
  = Ok Vectors.keyValid ∧
  fst (getKey (H := Vectors.libs) "key-forged" (Vectors.world0 Vectors.warmCache []))
  = Err (ErrNotInCache "key-forged") ∧
  events_of (getKey (H := Vectors.libs) "key-forged") (Vectors.world0 Vectors.warmCache [])
  = [Call_getKey "key-forged"].
Proof.
  split; [|split].
  - apply (C6_valid_cache_is_read_only (H := Vectors.libs) "key-valid"
             (Vectors.world0 Vectors.warmCache [])).
    vm_compute. reflexivity.
  - apply (C6_valid_cache_is_read_only (H := Vectors.libs) "key-forged"
             (Vectors.world0 Vectors.warmCache [])).
    vm_compute. reflexivity.
  - apply (C6_valid_cache_is_read_only (H := Vectors.libs) "key-forged"
             (Vectors.world0 Vectors.warmCache [])).
    vm_compute. reflexivity.
Defined.

(** ** The parser of the jwt package *)

Lemma GetSigningMethod_Alg (alg : string) (m : jwt.SigningMethod) :
  jwt.GetSigningMethod alg = Some m -> jwt.Alg m = alg.
Proof.
  unfold jwt.GetSigningMethod. intros Hf.
  apply List.find_some in Hf as [_ Hf]. by apply String.eqb_eq.
Qed.

Lemma GetSigningMethod_registered (m : jwt.SigningMethod) :
  jwt.GetSigningMethod (jwt.Alg m) = Some m.
Proof. by destruct m. Qed.

Section ParserFacts.
Context `{GoLibs} {C : Type} `{jwt.Claims C}.

(** [ParseUnverified] never reads the options of its parser. *)
Lemma ParseUnverified_any_parser (p p' : jwt.Parser) (tokenString : string) :
  jwt.ParseUnverified (C := C) p tokenString = jwt.ParseUnverified p' tokenString.
Proof. reflexivity. Qed.

Lemma ParseUnverified_Ok_inv (p : jwt.Parser) (tokenString : string) (token : jwt.Token C) :
  jwt.ParseUnverified p tokenString = Ok token ->
  ∃ p0 p1 p2 header members alg,
    strings.Split tokenString "."%char = [p0; p1; p2] ∧
    decodeHeader p0 = Some header ∧
    decodeClaims p1 = Some members ∧
    jwt.Claims_Unmarshal members = Some (jwt.TokenClaims token) ∧
    header !! "alg" = Some (JStr alg) ∧
    jwt.GetSigningMethod alg = Some (jwt.Method token) ∧
    jwt.Header token = header.
Proof.
  unfold jwt.ParseUnverified.
  destruct (strings.Split tokenString ".") as [|p0 [|p1 [|p2 [|? ?]]]]; try discriminate.
  destruct (decodeHeader p0) as [header|] eqn:Eh; [|discriminate].
  destruct (decodeClaims p1) as [members|] eqn:Ec; simpl; [|discriminate].
  destruct (jwt.Claims_Unmarshal members) as [claims|] eqn:Eu; [|discriminate].
  destruct (header !! "alg") as [[| | |alg| |]|] eqn:Ea; try discriminate.
  destruct (jwt.GetSigningMethod alg) as [m|] eqn:Em; [|discriminate].
  intros [= <-]. by exists p0, p1, p2, header, members, alg.
Qed.

Lemma ParseUnverified_Ok_intro (p : jwt.Parser) tokenString p0 p1 p2 header members claims m :
  strings.Split tokenString "."%char = [p0; p1; p2] ->
  decodeHeader p0 = Some header ->
  decodeClaims p1 = Some members ->
  jwt.Claims_Unmarshal members = Some claims ->
  header !! "alg" = Some (JStr (jwt.Alg m)) ->
  jwt.ParseUnverified p tokenString
  = Ok {| jwt.Raw := tokenString; jwt.Method := m; jwt.Header := header;
          jwt.TokenClaims := claims; jwt.Signature := ""; jwt.Valid := false |}.
Proof.
  intros Hs Hh Hc Hu Ha. unfold jwt.ParseUnverified.
  rewrite Hs, Hh, Hc. simpl. rewrite Hu, Ha.
  by rewrite GetSigningMethod_registered.
Qed.

(** A token that parses carries the method its header declares. *)
Lemma ParseUnverified_declared (p : jwt.Parser) tokenString (token : jwt.Token C) alg :
  jwt.ParseUnverified p tokenString = Ok token ->
  declaresAlg tokenString alg ->
  jwt.Alg (jwt.Method token) = alg.
Proof.
  intros Hp (q0 & q1 & q2 & header' & Hs' & Hh' & Ha').
  apply ParseUnverified_Ok_inv in Hp
    as (p0 & p1 & p2 & header & members & alg' & Hs & Hh & _ & _ & Ha & Hm & _).
  rewrite Hs in Hs'. injection Hs' as <- <- <-.
  rewrite Hh in Hh'. injection Hh' as <-.
  rewrite Ha in Ha'. injection Ha' as <-.
  by apply GetSigningMethod_Alg.
Qed.

End ParserFacts.

(** ** The production verifier: algorithm pinning *)

Section Pinning.
Context `{GoLibs}.

Lemma verifyIDToken_parse_error tokenString projectID w e :
  jwt.ParseUnverified (C := firebaseClaims) (jwt.NewParser []) tokenString = Err e ->
  verifyIDToken tokenString projectID w
  = (Err (ErrParsingToken e), snd (emit (Call_verifyIDToken tokenString projectID) w)).
Proof. intros E. unfold verifyIDToken, bind. simpl. by rewrite E. Qed.

Lemma verifyIDToken_other_method tokenString projectID w token :
  jwt.ParseUnverified (C := firebaseClaims) (jwt.NewParser []) tokenString = Ok token ->
  jwt.Alg (jwt.Method token) ≠ "RS256" ->
  verifyIDToken tokenString projectID w
  = (Err (ErrUnexpectedAlg (jwt.Alg (jwt.Method token))),
     snd (emit (Call_verifyIDToken tokenString projectID) w)).
Proof.
  intros E Hne. unfold verifyIDToken, bind. simpl. rewrite E.
  apply String.eqb_neq in Hne. by rewrite Hne.
Qed.

(** What the emulator verifier accepts, it has parsed. *)
Lemma verifyEmulatorToken_Ok_inv tokenString projectID w u :
  fst (verifyEmulatorToken tokenString projectID w) = Ok u ->
  ∃ token, jwt.ParseUnverified (C := firebaseClaims) (jwt.NewParser []) tokenString
           = Ok token ∧
           jwt.Subject (RegisteredClaims (jwt.TokenClaims token)) ≠ "" ∧
           u = identityOf (jwt.TokenClaims token).
Proof.
  unfold verifyEmulatorToken, bind. simpl.
  rewrite (ParseUnverified_any_parser _ (jwt.NewParser [])).
  destruct (jwt.ParseUnverified _ _) as [token|e]; [|discriminate].
  destruct (String.eqb _ _) eqn:Es; [discriminate|].
  simpl. intros [= <-]. exists token.
  split; [done|]. split; [by apply String.eqb_neq | done].
Qed.

End Pinning.

(** C2, as the code has it.  A token whose header declares an algorithm
    other than RS256 is rejected by [verifyIDToken] at once: the run
    consists of the entry of the verifier alone, with no key lookup, no
    refresh, no fetch and no signature check, and the world is otherwise
    unchanged.  The error is UnsupportedAlgorithm whenever the token
    parses, which needs the declared algorithm to be a registered signing
    method and the payload to decode; otherwise it is the parsing error.
    A token that [verifyEmulatorToken] accepts parses, so an unsigned
    token of the emulator gets UnsupportedAlgorithm. *)
Theorem C2_other_algorithms_stop_before_keys `{GoLibs}
    (tokenString projectID alg : string) (w : world) :
  declaresAlg tokenString alg -> alg ≠ "RS256" ->
  ∃ err,
    verifyIDToken tokenString projectID w
    = (Err err, snd (emit (Call_verifyIDToken tokenString projectID) w)) ∧
    events_of (verifyIDToken tokenString projectID) w
    = [Call_verifyIDToken tokenString projectID] ∧
    (err = ErrUnexpectedAlg alg ∨
     ∃ e, err = ErrParsingToken e ∧
          jwt.ParseUnverified (C := firebaseClaims) (jwt.NewParser []) tokenString = Err e) ∧
    (∀ token, jwt.ParseUnverified (C := firebaseClaims) (jwt.NewParser []) tokenString
              = Ok token -> err = ErrUnexpectedAlg alg) ∧
    (∀ u, fst (verifyEmulatorToken tokenString projectID w) = Ok u ->
          err = ErrUnexpectedAlg alg).
Proof.
  intros Hdecl Hne.
  assert (Hev : ∀ r, verifyIDToken tokenString projectID w
                     = (r, snd (emit (Call_verifyIDToken tokenString projectID) w)) ->
                events_of (verifyIDToken tokenString projectID) w
                = [Call_verifyIDToken tokenString projectID]).
  { intros r E. unfold events_of. rewrite E. by apply emitted_app. }
  destruct (jwt.ParseUnverified (C := firebaseClaims) (jwt.NewParser []) tokenString)
    as [token|e] eqn:Ep.
  - pose proof (ParseUnverified_declared _ _ _ _ Ep Hdecl) as Ealg.
    assert (Hrun := verifyIDToken_other_method tokenString projectID w token Ep).
    rewrite Ealg in Hrun. specialize (Hrun Hne).
    exists (ErrUnexpectedAlg alg).
    split; [done|]. split; [by eapply Hev|]. split; [by left|]. split; done.
  - assert (Hrun := verifyIDToken_parse_error tokenString projectID w e Ep).
    exists (ErrParsingToken e).
    split; [done|]. split; [by eapply Hev|]. split; [right; by exists e|].
    split; [discriminate|].
    intros u Hu. apply verifyEmulatorToken_Ok_inv in Hu as (token & Hp & _).
    congruence.
Qed.

(** The unsigned token of the emulator, which [verifyEmulatorToken]
    accepts, offered to [verifyIDToken]. *)
Lemma C2_witness :
  let tok := Vectors.token Vectors.hNone Vectors.cValid "" in
  let w := Vectors.world0 Vectors.warmCache [] in
  fst (verifyEmulatorToken (H := Vectors.libs) tok "test-project-123" w)
  = Ok {| UID := "user-uid-abc123"; Email := "jane@example.com"; Name := "Jane Doe";
          Picture := "https://lh3.googleusercontent.com/a/photo" |} ∧
  fst (verifyIDToken (H := Vectors.libs) tok "test-project-123" w)
  = Err (ErrUnexpectedAlg "none").
Proof.
  intros tok w. split; [vm_compute; reflexivity|].
  destruct (C2_other_algorithms_stop_before_keys (H := Vectors.libs)
              tok "test-project-123" "none" w) as (err & Hrun & _ & _ & _ & Hemu).
  - exists Vectors.hNone, Vectors.cValid, "",
      {[ "alg" := JStr "none"; "typ" := JStr "JWT" ]}.
    repeat split; vm_compute; reflexivity.
  - discriminate.
  - rewrite Hrun. simpl. f_equal. eapply Hemu. vm_compute. reflexivity.
Defined.

(** The claim C2 as written fails on tokens that do not parse.  A header
    that declares ES256K, a method the package does not register, and a
    header that declares HS256 over a payload that does not decode: both
    declare an algorithm other than RS256, and both get the parsing error
    of [verifyIDToken], not its algorithm error. *)
Lemma C2_counterexample :
  let tok1 := Vectors.token Vectors.hES256K Vectors.cValid Vectors.sigValid in
  let tok2 := Vectors.token Vectors.hHS256 Vectors.cGarbled Vectors.sigValid in
  let w := Vectors.world0 Vectors.warmCache [] in
  (declaresAlg (H := Vectors.libs) tok1 "ES256K" ∧
   fst (verifyIDToken (H := Vectors.libs) tok1 "test-project-123" w)
   = Err (ErrParsingToken
            {| jwt.Inner := "signing method (alg) is unavailable.";
               jwt.Errors := jwt.ValidationErrorUnverifiable |}) ∧
   ¬ UnsupportedAlgorithm
       (ErrParsingToken {| jwt.Inner := "signing method (alg) is unavailable.";
                           jwt.Errors := jwt.ValidationErrorUnverifiable |})) ∧
  (declaresAlg (H := Vectors.libs) tok2 "HS256" ∧
   fst (verifyIDToken (H := Vectors.libs) tok2 "test-project-123" w)
   = Err (ErrParsingToken
            {| jwt.Inner := "malformed claims segment";
               jwt.Errors := jwt.ValidationErrorMalformed |}) ∧
   ¬ UnsupportedAlgorithm
       (ErrParsingToken {| jwt.Inner := "malformed claims segment";
                           jwt.Errors := jwt.ValidationErrorMalformed |})).
Proof.
  intros tok1 tok2 w. split; (split; [|split]).
  - exists Vectors.hES256K, Vectors.cValid, Vectors.sigValid,
      {[ "alg" := JStr "ES256K"; "typ" := JStr "JWT" ]}.
    repeat split; vm_compute; reflexivity.
  - vm_compute. reflexivity.
  - intros [alg E]. discriminate.
  - exists Vectors.hHS256, Vectors.cGarbled, Vectors.sigValid,
      {[ "alg" := JStr "HS256"; "typ" := JStr "JWT" ]}.
    repeat split; vm_compute; reflexivity.
  - vm_compute. reflexivity.
  - intros [alg E]. discriminate.
Qed.

(** ** The emulator verifier *)

Section Emulator.
Context `{GoLibs}.

(** [verifyEmulatorToken] accepts exactly the tokens that parse with a
    subject: the list of methods given to its parser plays no part, since
    [ParseUnverified] does not read it. *)
Lemma verifyEmulatorToken_spec tokenString projectID w :
  fst (verifyEmulatorToken tokenString projectID w)
  = match jwt.ParseUnverified (C := firebaseClaims) (jwt.NewParser []) tokenString with
    | Err e => Err (ErrParsingEmulatorToken e)
    | Ok token =>
        if String.eqb (jwt.Subject (RegisteredClaims (jwt.TokenClaims token))) ""
        then Err ErrEmulatorSubjectEmpty
        else Ok (identityOf (jwt.TokenClaims token))
    end.
Proof.
  unfold verifyEmulatorToken, bind. simpl.
  rewrite (ParseUnverified_any_parser _ (jwt.NewParser [])).
  destruct (jwt.ParseUnverified _ _) as [token|e]; [|done].
  by destruct (String.eqb _ _).
Qed.

(** An empty subject is refused. *)
Lemma verifyEmulatorToken_empty_subject tokenString projectID w token :
  jwt.ParseUnverified (C := firebaseClaims) (jwt.NewParser []) tokenString = Ok token ->
  jwt.Subject (RegisteredClaims (jwt.TokenClaims token)) = "" ->
  fst (verifyEmulatorToken tokenString projectID w) = Err ErrEmulatorSubjectEmpty.
Proof. intros Hp Hs. by rewrite verifyEmulatorToken_spec, Hp, Hs. Qed.

(** The signature segment is never looked at: two tokens that differ in it
    alone get the same answer. *)
Lemma verifyEmulatorToken_ignores_signature header payload sig1 sig2 projectID w :
  strings.Split header "."%char = [header] ->
  strings.Split payload "."%char = [payload] ->
  strings.Split sig1 "."%char = [sig1] ->
  strings.Split sig2 "."%char = [sig2] ->
  fst (verifyEmulatorToken (Vectors.token header payload sig1) projectID w)
  = fst (verifyEmulatorToken (Vectors.token header payload sig2) projectID w).
Proof.
  intros Hh Hp H1 H2. rewrite !verifyEmulatorToken_spec.
  unfold jwt.ParseUnverified, Vectors.token.
  rewrite !(Split_single_app header), !(Split_single_app payload), H1, H2 by done.
  destruct (decodeHeader header) as [hd|]; [|done].
  destruct (decodeClaims payload ≫= jwt.Claims_Unmarshal) as [claims|]; [|done].
  destruct (hd !! "alg") as [[| | |alg| |]|]; try done.
  by destruct (jwt.GetSigningMethod alg).
Qed.

(** Nor is any key: the run is the entry of the verifier and nothing else. *)
Lemma verifyEmulatorToken_no_signature_check tokenString projectID w :
  events_of (verifyEmulatorToken tokenString projectID) w
  = [Call_verifyEmulatorToken tokenString projectID].
Proof. apply verifyEmulatorToken_events. Qed.

End Emulator.

(** C3 at the token that shows the defect: a header that declares HS256, a
    payload with a subject, some signature.  The parser of
    [verifyEmulatorToken] is built with the methods none and RS256, but
    [ParseUnverified] does not read that list, and the token is accepted. *)
Theorem C3_emulator_accepts_HS256 :
  let tok := Vectors.token Vectors.hHS256 Vectors.cSubOnly "aG1hYw" in
  declaresAlg (H := Vectors.libs) tok "HS256" ∧
  fst (verifyEmulatorToken (H := Vectors.libs) tok "test-project-123"
         (Vectors.world0 emptyCache []))
  = Ok {| UID := "user-uid-abc123"; Email := ""; Name := ""; Picture := "" |}.
Proof.
  intros tok. split.
  - exists Vectors.hHS256, Vectors.cSubOnly, "aG1hYw",
      {[ "alg" := JStr "HS256"; "typ" := JStr "JWT" ]}.
    repeat split; vm_compute; reflexivity.
  - vm_compute. reflexivity.
Qed.

(** ** The production verifier: a valid token *)

Section ValidToken.
Context `{GoLibs}.

Lemma unmarshalString_claim (member : option jvalue) (s : string) :
  jwt.unmarshalString member = Some s ->
  s = match member with Some (JStr v) => v | _ => "" end.
Proof. destruct member as [[]|]; simpl; congruence. Qed.

(** The four strings of the identity are the strings of the payload, the
    empty string standing for a member that is absent or [null]. *)
Lemma firebaseClaims_Unmarshal_strings members claims :
  firebaseClaims_Unmarshal members = Some claims ->
  identityOf claims
  = {| UID := claimString members "sub"; Email := claimString members "email";
       Name := claimString members "name"; Picture := claimString members "picture" |}.
Proof.
  unfold firebaseClaims_Unmarshal, jwt.RegisteredClaims_Unmarshal, identityOf, claimString.
  intros Hu.
  destruct (jwt.unmarshalString (members !! "iss")) as [iss|] eqn:E1; [|done].
  destruct (jwt.unmarshalString (members !! "sub")) as [sub|] eqn:E2; [|done].
  destruct (jwt.unmarshalClaimStrings (members !! "aud")) as [aud|] eqn:E3; [|done].
  destruct (jwt.unmarshalNumericDate (members !! "exp")) as [exp|] eqn:E4; [|done].
  destruct (jwt.unmarshalNumericDate (members !! "nbf")) as [nbf|] eqn:E5; [|done].
  destruct (jwt.unmarshalNumericDate (members !! "iat")) as [iat|] eqn:E6; [|done].
  destruct (jwt.unmarshalString (members !! "jti")) as [jti|] eqn:E7; [|done].
  destruct (jwt.unmarshalString (members !! "email")) as [email|] eqn:E8; [|done].
  destruct (jwt.unmarshalString (members !! "name")) as [name|] eqn:E9; [|done].
  destruct (jwt.unmarshalString (members !! "picture")) as [picture|] eqn:E10; [|done].
  simpl in Hu. injection Hu as <-. simpl.
  apply unmarshalString_claim in E2, E8, E9, E10. by subst.
Qed.

(** The temporal checks of [RegisteredClaims.Valid] pass. *)
Lemma RegisteredClaims_Valid_pass (t : Time) (rc : jwt.RegisteredClaims) :
  (∀ exp, jwt.ExpiresAt rc = Some exp -> t < exp) ->
  (∀ iat, jwt.IssuedAt rc = Some iat -> iat ≤ t) ->
  (∀ nbf, jwt.NotBefore rc = Some nbf -> nbf ≤ t) ->
  jwt.RegisteredClaims_Valid t rc = None.
Proof.
  intros Hexp Hiat Hnbf. unfold jwt.RegisteredClaims_Valid.
  assert (E1 : jwt.verifyExp (jwt.ExpiresAt rc) t false = true).
  { unfold jwt.verifyExp, time.Before. destruct (jwt.ExpiresAt rc) as [e|]; [|done].
    apply Z.ltb_lt. by apply Hexp. }
  assert (E2 : jwt.verifyIat (jwt.IssuedAt rc) t false = true).
  { unfold jwt.verifyIat, time.After, time.Equal.
    destruct (jwt.IssuedAt rc) as [i|]; [|done].
    specialize (Hiat i eq_refl). apply orb_true_iff.
    destruct (Z.eq_dec t i) as [->|Hne]; [right; apply Z.eqb_refl|].
    left. apply Z.ltb_lt. lia. }
  assert (E3 : jwt.verifyNbf (jwt.NotBefore rc) t false = true).
  { unfold jwt.verifyNbf, time.After, time.Equal.
    destruct (jwt.NotBefore rc) as [i|]; [|done].
    specialize (Hnbf i eq_refl). apply orb_true_iff.
    destruct (Z.eq_dec t i) as [->|Hne]; [right; apply Z.eqb_refl|].
    left. apply Z.ltb_lt. lia. }
  by rewrite E1, E2, E3.
Qed.

(** [getKey] on a valid cache, as an equation. *)
Lemma getKey_fresh kid w :
  time.Before (now w) (expiry (keyCache w)) = true ->
  getKey kid w
  = (lookupKey (keyCache w) kid (ErrNotInCache kid), snd (emit (Call_getKey kid) w)).
Proof.
  intros Hfresh. unfold getKey, bind, emit, readCache, time_Now, ret. simpl.
  by rewrite Hfresh.
Qed.

(** The verified parse of [verifyIDToken] on a token in order. *)
Lemma ParseWithClaims_pass tokenString header members claims signingString signature
    key t :
  parsesAs tokenString header members claims signingString signature ->
  header !! "alg" = Some (JStr "RS256") ->
  crypto_Verify "RS256" key signingString signature = true ->
  jwt.RegisteredClaims_Valid t (RegisteredClaims claims) = None ->
  jwt.ParseWithClaims (C := firebaseClaims)
    (jwt.NewParser [jwt.WithValidMethods ["RS256"]]) t tokenString (fun _ => Ok key)
  = Ok {| jwt.Raw := tokenString; jwt.Method := jwt.RS256; jwt.Header := header;
          jwt.TokenClaims := claims; jwt.Signature := signature; jwt.Valid := true |}.
Proof.
  intros (p0 & p1 & Hs & Hh & Hc & Hu & ->) Ha Hv Hvalid.
  unfold jwt.ParseWithClaims.
  rewrite (ParseUnverified_Ok_intro (H0 := firebaseClaims_Claims) _ tokenString p0 p1
             signature header members claims jwt.RS256 Hs Hh Hc Hu Ha).
  rewrite Hs. simpl. rewrite Hvalid. simpl. by rewrite Hv.
Qed.

End ValidToken.

(** C7, as the code has it.  A token that parses, declares RS256 and a
    non-empty [kid] whose key an unexpired cache holds, carries a valid
    signature under that key, expires in the future, was issued and
    becomes valid no later than now (where it says so), has a subject, the
    issuer of the project and the project among its audiences, is
    accepted: [verifyIDToken] returns the identity whose four fields are
    the strings of the payload, a profile member that is absent giving the
    empty string.  No request leaves the process. *)
Theorem C7_valid_token_yields_identity `{GoLibs}
    (tokenString projectID : string) (w : world)
    (header members : gmap string jvalue) (claims : firebaseClaims)
    (signingString signature kid : string) (key : rsa.PublicKey) :
  let rc := RegisteredClaims claims in
  parsesAs tokenString header members claims signingString signature ->
  header !! "alg" = Some (JStr "RS256") ->
  header !! "kid" = Some (JStr kid) -> kid ≠ "" ->
  time.Before (now w) (expiry (keyCache w)) = true ->
  keys (keyCache w) !! kid = Some key ->
  crypto_Verify "RS256" key signingString signature = true ->
  (∃ exp, jwt.ExpiresAt rc = Some exp ∧ now w < exp) ->
  (∀ iat, jwt.IssuedAt rc = Some iat -> iat ≤ now w) ->
  (∀ nbf, jwt.NotBefore rc = Some nbf -> nbf ≤ now w) ->
  jwt.Subject rc ≠ "" ->
  jwt.Issuer rc = String.append "https://securetoken.google.com/" projectID ->
  projectID ∈ jwt.Audience rc ->
  fst (verifyIDToken tokenString projectID w)
  = Ok {| UID := claimString members "sub"; Email := claimString members "email";
          Name := claimString members "name";
          Picture := claimString members "picture" |} ∧
  fst (verifyIDToken tokenString projectID w)
  = Ok {| UID := jwt.Subject rc; Email := fcEmail claims; Name := fcName claims;
          Picture := fcPicture claims |} ∧
  fetches (events_of (verifyIDToken tokenString projectID) w) = 0%nat.
Proof.
  intros rc Hparse Halg Hkid Hkne Hfresh Hkey Hsig (exp & Hexp & Hlt) Hiat Hnbf
    Hsub Hiss Haud.
  assert (Hvalid : jwt.RegisteredClaims_Valid (now w) rc = None).
  { apply RegisteredClaims_Valid_pass; [|done..]. intros e He.
    rewrite Hexp in He. by injection He as <-. }
  pose proof (ParseWithClaims_pass _ _ _ _ _ _ key (now w) Hparse Halg Hsig Hvalid) as Hpw.
  destruct Hparse as (p0 & p1 & Hs & Hh & Hc & Hu & ->).
  pose proof (ParseUnverified_Ok_intro (H0 := firebaseClaims_Claims) (jwt.NewParser [])
                tokenString p0 p1 signature header members claims jwt.RS256
                Hs Hh Hc Hu Halg) as Hpu.
  assert (Hfound : existsb (fun aud => String.eqb aud projectID) (jwt.Audience rc) = true).
  { apply existsb_exists. exists projectID. split; [|apply String.eqb_refl].
    by apply list_elem_of_In. }
  apply String.eqb_neq in Hkne, Hsub.
  assert (Hrun : verifyIDToken tokenString projectID w
                 = (Ok (identityOf claims),
                    snd (emit (Call_ParseWithClaims tokenString)
                           (snd (emit (Call_getKey kid)
                                   (snd (emit (Call_verifyIDToken tokenString projectID)
                                           w))))))).
  { unfold verifyIDToken, bind. rewrite Hpu.
    cbn [jwt.Method jwt.Alg jwt.Header]. change (negb (String.eqb "RS256" "RS256")) with false.
    cbv iota. rewrite Hkid, Hkne.
    unfold emit at 1. cbv beta iota.
    rewrite getKey_fresh by done.
    cbn [keyCache]. unfold lookupKey. rewrite Hkey.
    unfold emit, time_Now. cbv beta iota. cbn [now snd]. rewrite Hpw.
    cbn [jwt.Valid jwt.TokenClaims negb]. fold rc.
    rewrite Hsub, Hiss, String.eqb_refl. cbn [negb]. rewrite Hfound. cbn [negb].
    done. }
  rewrite Hrun. simpl fst. split; [|split].
  - f_equal. by apply firebaseClaims_Unmarshal_strings.
  - done.
  - unfold events_of. rewrite Hrun.
    rewrite (emitted_app w _
               [Call_ParseWithClaims tokenString; Call_getKey kid;
                Call_verifyIDToken tokenString projectID]); done.
Qed.

(** The signed token of the project's tests against the cache that holds
    its key. *)
Lemma C7_witness :
  fst (verifyIDToken (H := Vectors.libs)
         (Vectors.token Vectors.hRS256 Vectors.cValid Vectors.sigValid)
         "test-project-123" (Vectors.world0 Vectors.warmCache []))
  = Ok {| UID := "user-uid-abc123"; Email := "jane@example.com"; Name := "Jane Doe";
          Picture := "https://lh3.googleusercontent.com/a/photo" |}.
Proof.
  pose (claims :=
    {| RegisteredClaims :=
         {| jwt.Issuer := "https://securetoken.google.com/test-project-123";
            jwt.Subject := "user-uid-abc123";
            jwt.Audience := ["test-project-123"];
            jwt.ExpiresAt := Some (1700003600 * time.Second);
            jwt.NotBefore := None;
            jwt.IssuedAt := Some (1699999700 * time.Second);
            jwt.ID := "" |};
       fcEmail := "jane@example.com"; fcName := "Jane Doe";
       fcPicture := "https://lh3.googleusercontent.com/a/photo" |}).
  refine (proj1 (proj2 (C7_valid_token_yields_identity (H := Vectors.libs)
            (Vectors.token Vectors.hRS256 Vectors.cValid Vectors.sigValid)
            "test-project-123" (Vectors.world0 Vectors.warmCache [])
            {[ "alg" := JStr "RS256"; "kid" := JStr "key-valid"; "typ" := JStr "JWT" ]}
            Vectors.validMembers claims
            (String.append Vectors.hRS256 (String "."%char Vectors.cValid))
            Vectors.sigValid "key-valid" Vectors.keyValid
            _ _ _ _ _ _ _ _ _ _ _ _ _))).
  - exists Vectors.hRS256, Vectors.cValid. repeat split; vm_compute; reflexivity.
  - vm_compute. reflexivity.
  - vm_compute. reflexivity.
  - discriminate.
  - vm_compute. reflexivity.
  - vm_compute. reflexivity.
  - vm_compute. reflexivity.
  - exists (1700003600 * time.Second). split; [reflexivity | vm_compute; reflexivity].
  - intros iat [= <-]. vm_compute. discriminate.
  - intros nbf [=].
  - discriminate.
  - reflexivity.
  - apply list_elem_of_here.
Defined.

(** The claim C7 as written fails in two ways.  First, a token that meets
    every condition the claim lists but was issued ten minutes from now:
    the verified parse refuses it.  Second, a token that meets them with
    the empty string as [kid], against a cache that holds a key under that
    name: the verifier refuses the empty [kid] before it asks the cache. *)
Lemma C7_counterexample :
  let w := Vectors.world0 Vectors.warmCache [] in
  let tok := Vectors.token Vectors.hRS256 Vectors.cIssuedLater Vectors.sigValid in
  let w' := Vectors.world0
              {| keys := {[ "" := Vectors.keyValid ]};
                 expiry := Vectors.t0 + 3600 * time.Second |} [] in
  let tok' := Vectors.token Vectors.hEmptyKid Vectors.cValid Vectors.sigValid in
  (∃ header members claims signingString,
     parsesAs (H := Vectors.libs) tok header members claims signingString Vectors.sigValid ∧
     header !! "alg" = Some (JStr "RS256") ∧
     header !! "kid" = Some (JStr "key-valid") ∧
     time.Before (now w) (expiry (keyCache w)) = true ∧
     keys (keyCache w) !! "key-valid" = Some Vectors.keyValid ∧
     crypto_Verify (GoLibs := Vectors.libs) "RS256" Vectors.keyValid signingString
       Vectors.sigValid = true ∧
     (∃ exp, jwt.ExpiresAt (RegisteredClaims claims) = Some exp ∧ now w < exp) ∧
     jwt.Subject (RegisteredClaims claims) = "user-uid-abc123" ∧
     jwt.Issuer (RegisteredClaims claims)
     = "https://securetoken.google.com/test-project-123" ∧
     jwt.Audience (RegisteredClaims claims) = ["test-project-123"] ∧
     jwt.IssuedAt (RegisteredClaims claims) = Some (now w + 600 * time.Second)) ∧
  fst (verifyIDToken (H := Vectors.libs) tok "test-project-123" w)
  = Err (ErrVerificationFailed
           {| jwt.Inner := "token used before issued";
              jwt.Errors := jwt.ValidationErrorIssuedAt |}) ∧
  (∃ header members claims signingString,
     parsesAs (H := Vectors.libs) tok' header members claims signingString Vectors.sigValid ∧
     header !! "alg" = Some (JStr "RS256") ∧
     header !! "kid" = Some (JStr "") ∧
     time.Before (now w') (expiry (keyCache w')) = true ∧
     keys (keyCache w') !! "" = Some Vectors.keyValid ∧
     crypto_Verify (GoLibs := Vectors.libs) "RS256" Vectors.keyValid signingString
       Vectors.sigValid = true ∧
     (∃ exp, jwt.ExpiresAt (RegisteredClaims claims) = Some exp ∧ now w' < exp) ∧
     jwt.Subject (RegisteredClaims claims) = "user-uid-abc123" ∧
     jwt.Issuer (RegisteredClaims claims)
     = "https://securetoken.google.com/test-project-123" ∧
     jwt.Audience (RegisteredClaims claims) = ["test-project-123"]) ∧
  fst (verifyIDToken (H := Vectors.libs) tok' "test-project-123" w') = Err ErrMissingKid.
Proof.
  intros w tok w' tok'. split; [|split; [|split]].
  - exists {[ "alg" := JStr "RS256"; "kid" := JStr "key-valid"; "typ" := JStr "JWT" ]},
      (<["iat" := JNum "1700000600"]> Vectors.validMembers),
      {| RegisteredClaims :=
           {| jwt.Issuer := "https://securetoken.google.com/test-project-123";
              jwt.Subject := "user-uid-abc123";
              jwt.Audience := ["test-project-123"];
              jwt.ExpiresAt := Some (1700003600 * time.Second);
              jwt.NotBefore := None;
              jwt.IssuedAt := Some (1700000600 * time.Second);
              jwt.ID := "" |};
         fcEmail := "jane@example.com"; fcName := "Jane Doe";
         fcPicture := "https://lh3.googleusercontent.com/a/photo" |},
      (String.append Vectors.hRS256 (String "."%char Vectors.cIssuedLater)).
    split.
    { exists Vectors.hRS256, Vectors.cIssuedLater. repeat split; vm_compute; reflexivity. }
    repeat split; try (vm_compute; reflexivity).
    exists (1700003600 * time.Second). split; vm_compute; reflexivity.
  - vm_compute. reflexivity.
  - exists {[ "alg" := JStr "RS256"; "kid" := JStr ""; "typ" := JStr "JWT" ]},
      Vectors.validMembers,
      {| RegisteredClaims :=
           {| jwt.Issuer := "https://securetoken.google.com/test-project-123";
              jwt.Subject := "user-uid-abc123";
              jwt.Audience := ["test-project-123"];
              jwt.ExpiresAt := Some (1700003600 * time.Second);
              jwt.NotBefore := None;
              jwt.IssuedAt := Some (1699999700 * time.Second);
              jwt.ID := "" |};
         fcEmail := "jane@example.com"; fcName := "Jane Doe";
         fcPicture := "https://lh3.googleusercontent.com/a/photo" |},
      (String.append Vectors.hEmptyKid (String "."%char Vectors.cValid)).
    split.
    { exists Vectors.hEmptyKid, Vectors.cValid. repeat split; vm_compute; reflexivity. }
    repeat split; try (vm_compute; reflexivity).
    exists (1700003600 * time.Second). split; vm_compute; reflexivity.
  - vm_compute. reflexivity.
Qed.

(** ** The identity response *)

Section Identity.
Context `{GoLibs}.

(** The verified parse returns the claims of the unverified one. *)
Lemma ParseWithClaims_Ok_inv (p : jwt.Parser) t tokenString keyFunc
    (verified : jwt.Token firebaseClaims) :
  jwt.ParseWithClaims p t tokenString keyFunc = Ok verified ->
  ∃ token, jwt.ParseUnverified (C := firebaseClaims) (jwt.NewParser []) tokenString
           = Ok token ∧
           jwt.TokenClaims verified = jwt.TokenClaims token.
Proof.
  unfold jwt.ParseWithClaims.
  rewrite (ParseUnverified_any_parser p (jwt.NewParser [])).
  destruct (jwt.ParseUnverified _ _) as [token|e]; [|discriminate].
  destruct (negb _); [discriminate|].
  destruct (keyFunc token) as [key|e]; [|discriminate].
  cbv zeta. destruct (negb (jwt.Verify _ _ _ _)); [discriminate|].
  destruct (if jwt.SkipClaimsValidation p then _ else _); [discriminate|].
  intros [= <-]. by exists token.
Qed.

Lemma verifyIDToken_Ok_inv tokenString projectID w u :
  fst (verifyIDToken tokenString projectID w) = Ok u ->
  ∃ token, jwt.ParseUnverified (C := firebaseClaims) (jwt.NewParser []) tokenString
           = Ok token ∧
           u = identityOf (jwt.TokenClaims token).
Proof.
  unfold verifyIDToken, bind. simpl.
  destruct (jwt.ParseUnverified _ _) as [token|e] eqn:Hpu; [|discriminate].
  destruct (negb _); [discriminate|].
  destruct (jwt.Header token !! "kid") as [[| | |kid| |]|]; try discriminate.
  destruct (String.eqb kid ""); [discriminate|].
  destruct (getKey kid _) as [[key|e] w1]; [|discriminate].
  simpl.
  destruct (jwt.ParseWithClaims _ _ _ _) as [verified|e] eqn:Hpw; [|discriminate].
  apply ParseWithClaims_Ok_inv in Hpw as (token' & Hpu' & Hclaims).
  rewrite Hpu in Hpu'. injection Hpu' as <-.
  destruct (negb _); [discriminate|].
  destruct (String.eqb _ _); [discriminate|].
  destruct (negb _); [discriminate|].
  destruct (negb _); [discriminate|].
  simpl. intros [= <-]. exists token. split; [done|].
  unfold identityOf. by rewrite Hclaims.
Qed.

(** Whichever verifier ran, an accepted token has parsed and the identity
    is the projection of its claims. *)
Lemma selected_Ok_inv cfg tokenString w u :
  fst (match selectedVerifier cfg with
       | EmulatorVerifier => verifyEmulatorToken tokenString (ProjectID cfg) w
       | ProductionVerifier => verifyIDToken tokenString (ProjectID cfg) w
       end) = Ok u ->
  ∃ token, jwt.ParseUnverified (C := firebaseClaims) (jwt.NewParser []) tokenString
           = Ok token ∧
           u = identityOf (jwt.TokenClaims token).
Proof.
  destruct (selectedVerifier cfg); intros Hu.
  - by apply verifyIDToken_Ok_inv in Hu.
  - apply verifyEmulatorToken_Ok_inv in Hu as (token & Hp & _ & ->). by exists token.
Qed.

(** A profile member that holds the empty string decodes as one that is
    not there. *)
Lemma firebaseClaims_Unmarshal_absent_or_empty (members : gmap string jvalue) (tag : string) :
  tag ∈ ["email"; "name"; "picture"] ->
  firebaseClaims_Unmarshal (<[tag := JStr ""]> members)
  = firebaseClaims_Unmarshal (delete tag members).
Proof.
  intros Htag. unfold firebaseClaims_Unmarshal, jwt.RegisteredClaims_Unmarshal.
  repeat (apply elem_of_cons in Htag as [->|Htag]); [| | |by inversion Htag].
  all: by simplify_map_eq.
Qed.

End Identity.

(** C9.  A successful answer of [GET /api/me], in either mode, carries one
    JSON object with exactly the members uid, email, name and picture, in
    this order, each a string: the strings of the token's payload.  A
    profile member the payload lacks comes out as the empty string, and a
    payload that holds the empty string under email, name or picture
    decodes to the same claims as one without that member, so the two
    cannot be told apart from the response. *)
Theorem C9_identity_body_is_four_strings `{GoLibs}
    (cfg : firebaseConfig) (r : http.Request) (w : world) :
  let authHeader := http.Get (http.ReqHeader r) "Authorization" in
  let resp := fst (newMux_apiMe cfg newResponseWriter r w) in
  (Status resp = Some http.StatusOK ->
   ∃ tokenString p0 p1 p2 members,
     authHeader = String.append "Bearer " tokenString ∧
     strings.Split tokenString "."%char = [p0; p1; p2] ∧
     decodeClaims p1 = Some members ∧
     Written resp
     = [JObj [("uid", JStr (claimString members "sub"));
              ("email", JStr (claimString members "email"));
              ("name", JStr (claimString members "name"));
              ("picture", JStr (claimString members "picture"))]] ∧
     ∀ tag, tag ∈ ["email"; "name"; "picture"] -> members !! tag = None ->
            ∀ body, body ∈ Written resp -> jfield body tag = Some (JStr "")) ∧
  (∀ members tag, tag ∈ ["email"; "name"; "picture"] ->
     firebaseClaims_Unmarshal (<[tag := JStr ""]> members)
     = firebaseClaims_Unmarshal (delete tag members)).
Proof.
  intros authHeader resp. split; [|apply firebaseClaims_Unmarshal_absent_or_empty].
  subst resp. intros Hstatus.
  destruct (strings.HasPrefix authHeader "Bearer ") eqn:Hp.
  2:{ destruct (apiMe_rejects cfg newResponseWriter r w Hp) as [E _].
      rewrite E in Hstatus. discriminate. }
  pose proof (HasPrefix_inv _ _ Hp) as Hauth.
  rewrite (apiMe_verifies _ _ _ _ Hp) in Hstatus |- *. cbv zeta in Hstatus |- *.
  fold authHeader in Hstatus |- *.
  set (tokenString := strings.TrimPrefix authHeader "Bearer ") in *.
  assert (Htok : strings.drop (String.length "Bearer ") authHeader = tokenString).
  { subst tokenString. unfold strings.TrimPrefix. by rewrite Hp. }
  rewrite Htok in Hauth.
  pose proof (selected_Ok_inv cfg tokenString w) as Hinv.
  destruct (match selectedVerifier cfg with
            | ProductionVerifier => verifyIDToken tokenString (ProjectID cfg) w
            | EmulatorVerifier => verifyEmulatorToken tokenString (ProjectID cfg) w
            end) as [[u|err] w1]; [|discriminate].
  destruct (Hinv u eq_refl) as (token & Hpu & ->).
  apply ParseUnverified_Ok_inv in Hpu
    as (p0 & p1 & p2 & header & members & alg & Hs & _ & Hc & Hu & _).
  exists tokenString, p0, p1, p2, members.
  pose proof (firebaseClaims_Unmarshal_strings _ _ Hu) as Hid.
  assert (Hbody : Written (writeJSON newResponseWriter http.StatusOK
                             (identityOf (jwt.TokenClaims token)))
                  = [JObj [("uid", JStr (claimString members "sub"));
                           ("email", JStr (claimString members "email"));
                           ("name", JStr (claimString members "name"));
                           ("picture", JStr (claimString members "picture"))]]).
  { by rewrite Hid. }
  simpl fst. split; [done|]. split; [done|]. split; [done|]. split; [done|].
  intros tag Htag Hnone body Hbody'. rewrite Hbody in Hbody'.
  apply list_elem_of_singleton in Hbody' as ->.
  repeat (apply elem_of_cons in Htag as [->|Htag]); [| | |by inversion Htag].
  all: unfold claimString at 2 3 4; rewrite ?Hnone; try done.
  all: unfold claimString; by rewrite Hnone.
Qed.

(** The signed token of the vectors that carries no picture, in
    production: the response holds the empty string under picture. *)
Lemma C9_witness :
  let resp :=
    fst (newMux_apiMe (H := Vectors.libs) Vectors.productionCfg newResponseWriter
           (Vectors.bearer
              (Vectors.token Vectors.hRS256 Vectors.cNoPicture Vectors.sigValid))
           (Vectors.world0 Vectors.warmCache [])) in
  Forall (fun body => jfield body "picture" = Some (JStr "")) (Written resp).
Proof.
  intros resp. apply Forall_forall. intros body Hin. revert body Hin.
  destruct (C9_identity_body_is_four_strings (H := Vectors.libs) Vectors.productionCfg
              (Vectors.bearer
                 (Vectors.token Vectors.hRS256 Vectors.cNoPicture Vectors.sigValid))
              (Vectors.world0 Vectors.warmCache [])) as [Hbody _].
  destruct Hbody as (tok & p0 & p1 & p2 & members & Hauth & Hs & Hc & _ & Habsent).
  - vm_compute. reflexivity.
  - apply (Habsent "picture").
    + apply list_elem_of_further, list_elem_of_further, list_elem_of_here.
    + change (http.Get _ _)
        with (String.append "Bearer "
                (Vectors.token Vectors.hRS256 Vectors.cNoPicture Vectors.sigValid))
        in Hauth.
      apply (inj (String.append "Bearer ")) in Hauth. subst tok.
      vm_compute in Hs. injection Hs as <- <- <-.
      vm_compute in Hc. injection Hc as <-.
      vm_compute. reflexivity.
Defined.

(** ** Concurrent callers: one fetch *)

Lemma fetches_cons (e : event) (tr : list event) :
  fetches (e :: tr) = if isHTTPGet e then S (fetches tr) else fetches tr.
Proof. unfold fetches. simpl. by destruct (isHTTPGet e). Qed.

Lemma lookup_update_inv (l : list goroutine) (i j : nat) (g x y : goroutine) :
  l !! i = Some g -> <[i := x]> l !! j = Some y ->
  (j = i ∧ y = x) ∨ (j ≠ i ∧ l !! j = Some y).
Proof.
  intros Hi Hj. destruct (decide (j = i)) as [->|Hne].
  - left. rewrite list_lookup_insert_eq in Hj by (by eapply lookup_lt_Some).
    by injection Hj as ->.
  - right. by rewrite list_lookup_insert_ne in Hj.
Qed.

Lemma lookup_update_eq (l : list goroutine) (i : nat) (g x : goroutine) :
  l !! i = Some g -> <[i := x]> l !! i = Some x.
Proof. intros Hi. apply list_lookup_insert_eq. by eapply lookup_lt_Some. Qed.

(** A property of every goroutine but the one that moved, and of the one
    that moved in its new place, is a property of all. *)
Lemma insert_pointwise (P : goroutine -> Prop) (l : list goroutine) i g g' :
  l !! i = Some g ->
  (∀ j y, l !! j = Some y -> j ≠ i -> P y) -> P g' ->
  ∀ j y, <[i := g']> l !! j = Some y -> P y.
Proof.
  intros Hi Hothers Hnew j y Hj.
  destruct (lookup_update_inv _ _ _ _ _ _ Hi Hj) as [[-> ->]|[Hne Hj']]; eauto.
Qed.

Section Mutex.

(** The goroutine that holds the write lock is the only one, and the mutex
    is taken. *)
Lemma holder_unique (s : system) i g :
  lockInv s -> goroutines s !! i = Some g -> holdsW (at_pc g) = true ->
  writer (mu s) = true ∧
  ∀ j g', goroutines s !! j = Some g' -> j ≠ i -> holdsW (at_pc g') = false.
Proof.
  intros [[_ Hnone]|[Hw (i0 & g0 & Hi0 & Hh0 & Hothers)]] Hi Hh.
  - rewrite (Hnone _ _ Hi) in Hh. discriminate.
  - destruct (decide (i = i0)) as [->|Hne]; [done|].
    rewrite (Hothers _ _ Hi Hne) in Hh. discriminate.
Qed.

Lemma free_no_holder (s : system) :
  lockInv s -> writer (mu s) = false ->
  ∀ j g, goroutines s !! j = Some g -> holdsW (at_pc g) = false.
Proof. intros [[_ Hnone]|[Hw _]] Hfree; [done | congruence]. Qed.

(** A step outside the write lock, or inside it, keeps the discipline. *)
Lemma lockInv_keep (s : system) i g w' m' p' :
  lockInv s -> goroutines s !! i = Some g ->
  holdsW p' = holdsW (at_pc g) -> writer m' = writer (mu s) ->
  lockInv (update s i w' m' {| kid := kid g; at_pc := p' |}).
Proof.
  intros Hl Hi Hsame Hw.
  destruct (holdsW (at_pc g)) eqn:Hh.
  - destruct (holder_unique s i g Hl Hi Hh) as [Hheld Hothers].
    right. simpl. split; [congruence|].
    exists i, {| kid := kid g; at_pc := p' |}.
    split; [by eapply lookup_update_eq|]. split; [done|].
    intros j g' Hj Hne.
    destruct (lookup_update_inv _ _ _ _ _ _ Hi Hj) as [[-> _]|[_ Hj']]; [done|].
    by eapply Hothers.
  - destruct Hl as [[Hfree Hnone]|[Hheld (i0 & g0 & Hi0 & Hh0 & Hothers)]].
    + left. simpl. split; [congruence|].
      apply (insert_pointwise (fun y => holdsW (at_pc y) = false) _ i g); eauto.
    + right. simpl. split; [congruence|].
      assert (Hne0 : i0 ≠ i) by (intros ->; congruence).
      exists i0, g0. split; [by rewrite list_lookup_insert_ne|].
      split; [done|]. intros j g' Hj Hne.
      destruct (lookup_update_inv _ _ _ _ _ _ Hi Hj) as [[-> ->]|[_ Hj']]; [done|].
      by eapply Hothers.
Qed.

Lemma lockInv_acquire (s : system) i g w' m' p' :
  lockInv s -> goroutines s !! i = Some g ->
  writer (mu s) = false -> writer m' = true -> holdsW p' = true ->
  lockInv (update s i w' m' {| kid := kid g; at_pc := p' |}).
Proof.
  intros Hl Hi Hfree Hw Hh. right. simpl. split; [done|].
  exists i, {| kid := kid g; at_pc := p' |}.
  split; [by eapply lookup_update_eq|]. split; [done|].
  intros j g' Hj Hne.
  destruct (lookup_update_inv _ _ _ _ _ _ Hi Hj) as [[-> _]|[_ Hj']]; [done|].
  by eapply free_no_holder.
Qed.

Lemma lockInv_release (s : system) i g w' m' p' :
  lockInv s -> goroutines s !! i = Some g ->
  holdsW (at_pc g) = true -> writer m' = false -> holdsW p' = false ->
  lockInv (update s i w' m' {| kid := kid g; at_pc := p' |}).
Proof.
  intros Hl Hi Hh Hw Hh'. left. simpl. split; [done|].
  destruct (holder_unique s i g Hl Hi Hh) as [_ Hothers].
  apply (insert_pointwise (fun y => holdsW (at_pc y) = false) _ i g); eauto.
Qed.

End Mutex.

Section OneFetch.
Context `{GoLibs}.
Variables (w0 : world) (resp : http.Response)
  (rest : list (result http.Response string)) (maxAge : Z).
Hypothesis Hexpired : time.Before (now w0) (expiry (keyCache w0)) = false.
Hypothesis Hgood : goodFetch resp maxAge.

(** The good response is installed: the new expiry lies [maxAge] seconds
    after the instant of the installation. *)
Lemma refresh_install_good (w : world) :
  ∃ w', refresh_install (Ok resp) w = (None, w') ∧
        expiry (keyCache w') = now w + time.Seconds maxAge ∧
        now w' = now w ∧ network w' = network w ∧
        fetches (trace w') = fetches (trace w).
Proof.
  destruct Hgood as (body & certMap & newKeys & Hb & Hs & Hj & Hp & Hm).
  unfold refresh_install, bind, ret. rewrite Hb, Hs, Hj, Hp, Hm. simpl.
  eexists. split; [reflexivity|]. by repeat split.
Qed.

Lemma refresh_install_now r (w : world) : now (snd (refresh_install r w)) = now w.
Proof.
  unfold refresh_install, bind, ret.
  destruct r as [rs|e]; [|done].
  destruct (http.Body rs) as [body|e]; [|done].
  destruct (negb _); [done|].
  destruct (json_Unmarshal_certMap body) as [certMap|]; [|done].
  by destruct (parseCerts _ _).
Qed.

(** No step moves the clock; only the scheduler does. *)
Lemma step_clock w m g w' m' p' :
  step w m g = Some (w', m', p') -> now w' = now w.
Proof.
  unfold step. destruct (at_pc g) as [| |ret| | | |r|err| | |ret|ret].
  - destruct (writer m); [done|]. by intros [= <- _ _].
  - destruct (time.Before (now w) _); by intros [= <- _ _].
  - by intros [= <- _ _].
  - destruct (_ || _); [done|]. by intros [= <- _ _].
  - destruct (time.Before (now w) _); by intros [= <- _ _].
  - unfold http_Get. destruct (network w); by intros [= <- _ _].
  - pose proof (refresh_install_now r w) as Hn.
    destruct (refresh_install r w) as [err w1]. by intros [= <- _ _].
  - by intros [= <- _ _].
  - destruct (writer m); [done|]. by intros [= <- _ _].
  - by intros [= <- _ _].
  - by intros [= <- _ _].
  - done.
Qed.

(** The mutex discipline survives every step. *)
Lemma step_lock (s : system) i g w' m' p' :
  lockInv s -> goroutines s !! i = Some g ->
  step (shared s) (mu s) g = Some (w', m', p') ->
  lockInv (update s i w' m' {| kid := kid g; at_pc := p' |}).
Proof.
  intros Hl Hi. unfold step.
  destruct (at_pc g) as [| |ret| | | |r|err| | |ret|ret] eqn:Hpc.
  - destruct (writer (mu s)) eqn:Hw; [done|]. intros [= <- <- <-].
    apply lockInv_keep; [done..|by rewrite Hpc|by rewrite Hw].
  - destruct (time.Before (now (shared s)) _); intros [= <- <- <-];
      (apply lockInv_keep; [done..|by rewrite Hpc|done]).
  - intros [= <- <- <-]. apply lockInv_keep; [done..| |done].
    rewrite Hpc. by destruct ret.
  - destruct (writer (mu s)) eqn:Hw; [done|]. simpl.
    destruct (negb _); [done|]. intros [= <- <- <-].
    by apply lockInv_acquire.
  - destruct (time.Before (now (shared s)) _); intros [= <- <- <-];
      (apply lockInv_keep; [done..|by rewrite Hpc|done]).
  - destruct (http_Get _ _) as [r w1]. intros [= <- <- <-].
    apply lockInv_keep; [done..|by rewrite Hpc|done].
  - destruct (refresh_install _ _) as [err w1]. intros [= <- <- <-].
    apply lockInv_keep; [done..|by rewrite Hpc|done].
  - intros [= <- <- <-]. apply lockInv_release; [done..|by rewrite Hpc|done|].
    by destruct err.
  - destruct (writer (mu s)) eqn:Hw; [done|]. intros [= <- <- <-].
    apply lockInv_keep; [done..|by rewrite Hpc|by rewrite Hw].
  - intros [= <- <- <-]. apply lockInv_keep; [done..|by rewrite Hpc|done].
  - intros [= <- <- <-]. apply lockInv_keep; [done..|by rewrite Hpc|done].
  - done.
Qed.

Lemma expired_later (w : world) :
  keyCache w = keyCache w0 -> now w0 ≤ now w ->
  time.Before (now w) (expiry (keyCache w)) = false.
Proof.
  intros -> Hle. unfold time.Before in *.
  apply Z.ltb_ge. apply Z.ltb_ge in Hexpired. lia.
Qed.

Lemma fresh_before_deadline (w : world) :
  deadline w0 maxAge ≤ expiry (keyCache w) -> now w < deadline w0 maxAge ->
  time.Before (now w) (expiry (keyCache w)) = true.
Proof. intros Hd Hn. unfold time.Before. apply Z.ltb_lt. lia. Qed.

(** Before the fetch: whoever moves stays before it, or sends the one
    request. *)
Lemma step_phase_NotFetched (s : system) i g w' m' p' :
  lockInv s -> now w0 ≤ now (shared s) ->
  keyCache (shared s) = keyCache w0 ->
  network (shared s) = Ok resp :: rest ->
  fetches (trace (shared s)) = fetches (trace w0) ->
  (∀ j y, goroutines s !! j = Some y -> beforeFetch (at_pc y) = true) ->
  goroutines s !! i = Some g ->
  step (shared s) (mu s) g = Some (w', m', p') ->
  phase w0 resp rest maxAge (update s i w' m' {| kid := kid g; at_pc := p' |}).
Proof.
  intros Hl Hc Hk Hn Hf Hall Hi.
  pose proof (Hall i g Hi) as Hb.
  pose proof (expired_later (shared s) Hk Hc) as Hexp.
  unfold step. destruct (at_pc g) as [| |ret| | | |r|err| | |ret|ret] eqn:Hpc;
    try discriminate Hb.
  - destruct (writer (mu s)); [done|]. intros [= <- <- <-].
    apply NotFetched; simpl; try done.
    apply (insert_pointwise (fun y => beforeFetch (at_pc y) = true) _ i g); eauto.
  - rewrite Hexp. intros [= <- <- <-].
    apply NotFetched; simpl; try done.
    apply (insert_pointwise (fun y => beforeFetch (at_pc y) = true) _ i g); eauto.
  - destruct ret as [ret|]; [discriminate Hb|]. intros [= <- <- <-].
    apply NotFetched; simpl; try done.
    apply (insert_pointwise (fun y => beforeFetch (at_pc y) = true) _ i g); eauto.
  - destruct (_ || _); [done|]. intros [= <- <- <-].
    apply NotFetched; simpl; try done.
    apply (insert_pointwise (fun y => beforeFetch (at_pc y) = true) _ i g); eauto.
  - rewrite Hexp. intros [= <- <- <-].
    apply NotFetched; simpl; try done.
    apply (insert_pointwise (fun y => beforeFetch (at_pc y) = true) _ i g); eauto.
  - unfold http_Get. rewrite Hn. intros [= <- <- <-].
    assert (Hh : holdsW (at_pc g) = true) by by rewrite Hpc.
    destruct (holder_unique s i g Hl Hi Hh) as [_ Hothers].
    apply (Fetching w0 resp rest maxAge _ i {| kid := kid g; at_pc := R_Recv (Ok resp) |});
      simpl; try done.
    + rewrite fetches_cons. simpl. by rewrite Hf.
    + by eapply lookup_update_eq.
    + intros j y Hj Hne.
      destruct (lookup_update_inv _ _ _ _ _ _ Hi Hj) as [[-> _]|[_ Hj']]; [done|].
      split; [by eapply Hall | by eapply Hothers].
Qed.

(** While the request is out: the goroutine that sent it installs the
    answer; the others cannot pass the mutex. *)
Lemma step_phase_Fetching (s : system) i0 g0 i g w' m' p' :
  lockInv s -> now w0 ≤ now (shared s) ->
  keyCache (shared s) = keyCache w0 ->
  fetches (trace (shared s)) = S (fetches (trace w0)) ->
  goroutines s !! i0 = Some g0 -> at_pc g0 = R_Recv (Ok resp) ->
  (∀ j y, goroutines s !! j = Some y -> j ≠ i0 ->
          beforeFetch (at_pc y) = true ∧ holdsW (at_pc y) = false) ->
  goroutines s !! i = Some g ->
  step (shared s) (mu s) g = Some (w', m', p') ->
  phase w0 resp rest maxAge (update s i w' m' {| kid := kid g; at_pc := p' |}).
Proof.
  intros Hl Hc Hk Hf Hi0 Hpc0 Hothers Hi.
  pose proof (expired_later (shared s) Hk Hc) as Hexp.
  assert (Hh0 : holdsW (at_pc g0) = true) by by rewrite Hpc0.
  destruct (holder_unique s i0 g0 Hl Hi0 Hh0) as [Hheld _].
  destruct (decide (i = i0)) as [->|Hne].
  - rewrite Hi0 in Hi. injection Hi as <-. unfold step. rewrite Hpc0.
    destruct (refresh_install_good (shared s)) as (w1 & -> & He & Hn1 & _ & Hf1).
    intros [= <- <- <-]. apply Fetched; simpl.
    + unfold deadline. rewrite He. lia.
    + by rewrite Hf1.
    + apply (insert_pointwise (fun y => fetching (at_pc y) = false) _ i0 g0); [done| |done].
      intros j y Hj Hnej. destruct (Hothers j y Hj Hnej) as [Hb Hh].
      by destruct (at_pc y) as [| |[?|]| | | | | | | | |].
  - destruct (Hothers i g Hi Hne) as [Hb Hh].
    assert (Hkeep : ∀ p1,
              beforeFetch p1 = true -> holdsW p1 = false ->
              phase w0 resp rest maxAge
                (update s i (shared s) (mu s) {| kid := kid g; at_pc := p1 |})).
    { intros p1 Hb1 Hh1.
      apply (Fetching w0 resp rest maxAge _ i0 g0); simpl; try done.
      - by rewrite list_lookup_insert_ne.
      - intros j y Hj Hnej.
        destruct (lookup_update_inv _ _ _ _ _ _ Hi Hj) as [[-> ->]|[_ Hj']]; [done|].
        by eapply Hothers. }
    unfold step. destruct (at_pc g) as [| |ret| | | |r|err| | |ret|ret] eqn:Hpc;
      try discriminate Hb; try discriminate Hh.
    + by rewrite Hheld.
    + rewrite Hexp. intros [= <- <- <-]. by apply Hkeep.
    + destruct ret as [ret|]; [discriminate Hb|]. intros [= <- <- <-].
      apply (Fetching w0 resp rest maxAge _ i0 g0); simpl; try done.
      * by rewrite list_lookup_insert_ne.
      * intros j y Hj Hnej.
        destruct (lookup_update_inv _ _ _ _ _ _ Hi Hj) as [[-> ->]|[_ Hj']]; [done|].
        by eapply Hothers.
    + by rewrite Hheld.
Qed.

(** After the fetch: the cache is valid until the deadline, and nobody
    reaches [http.Get] again. *)
Lemma step_phase_Fetched (s : system) i g w' m' p' :
  now (shared s) < deadline w0 maxAge ->
  deadline w0 maxAge ≤ expiry (keyCache (shared s)) ->
  fetches (trace (shared s)) = S (fetches (trace w0)) ->
  (∀ j y, goroutines s !! j = Some y -> fetching (at_pc y) = false) ->
  goroutines s !! i = Some g ->
  step (shared s) (mu s) g = Some (w', m', p') ->
  phase w0 resp rest maxAge (update s i w' m' {| kid := kid g; at_pc := p' |}).
Proof.
  intros Hnow Hd Hf Hall Hi.
  pose proof (Hall i g Hi) as Hnf.
  pose proof (fresh_before_deadline (shared s) Hd Hnow) as Hfresh.
  assert (Hkeep : ∀ w1 m1 p1,
            keyCache w1 = keyCache (shared s) ->
            fetches (trace w1) = fetches (trace (shared s)) ->
            fetching p1 = false ->
            phase w0 resp rest maxAge
              (update s i w1 m1 {| kid := kid g; at_pc := p1 |})).
  { intros w1 m1 p1 Hk1 Hf1 Hp1. apply Fetched; simpl.
    - by rewrite Hk1.
    - by rewrite Hf1.
    - apply (insert_pointwise (fun y => fetching (at_pc y) = false) _ i g); eauto. }
  unfold step. destruct (at_pc g) as [| |ret| | | |r|err| | |ret|ret] eqn:Hpc;
    try discriminate Hnf.
  - destruct (writer (mu s)); [done|]. intros [= <- <- <-]. by apply Hkeep.
  - rewrite Hfresh. intros [= <- <- <-]. by apply Hkeep.
  - intros [= <- <- <-]. apply Hkeep; try done. by destruct ret.
  - destruct (_ || _); [done|]. intros [= <- <- <-]. by apply Hkeep.
  - rewrite Hfresh. intros [= <- <- <-]. by apply Hkeep.
  - intros [= <- <- <-]. apply Hkeep; try done. by destruct err.
  - destruct (writer (mu s)); [done|]. intros [= <- <- <-]. by apply Hkeep.
  - intros [= <- <- <-]. by apply Hkeep.
  - intros [= <- <- <-]. by apply Hkeep.
  - done.
Qed.

(** The invariant is kept by every move of the scheduler made before the
    deadline. *)
Lemma perform_Inv (a : action) (s : system) :
  Inv w0 resp rest maxAge s ->
  now (shared (perform a s)) < deadline w0 maxAge ->
  Inv w0 resp rest maxAge (perform a s).
Proof.
  intros [Hl Hc Hp] Hnow. destruct a as [i|d]; simpl in *.
  - destruct (goroutines s !! i) as [g|] eqn:Hi; [|done].
    destruct (step (shared s) (mu s) g) as [[[w' m'] p']|] eqn:Hstep; [|done].
    pose proof (step_clock _ _ _ _ _ _ Hstep) as Hclock. simpl in Hnow.
    fold (update s i w' m' {| kid := kid g; at_pc := p' |}).
    split.
    + by eapply step_lock.
    + simpl. lia.
    + destruct Hp as [Hk Hn Hf Hall|i0 g0 Hk Hf Hi0 Hpc0 Hothers|Hd Hf Hall].
      * by apply step_phase_NotFetched.
      * by apply (step_phase_Fetching s i0 g0).
      * apply step_phase_Fetched; try done. lia.
  - split; simpl.
    + done.
    + lia.
    + destruct Hp as [Hk Hn Hf Hall|i0 g0 Hk Hf Hi0 Hpc0 Hothers|Hd Hf Hall].
      * by apply NotFetched.
      * by eapply Fetching.
      * by apply Fetched.
Qed.

Lemma perform_clock (a : action) (s : system) :
  now (shared (perform a s))
  = now (shared s) + match a with Tick d => Z.of_N d | Run _ => 0 end.
Proof.
  destruct a as [i|d]; simpl; [|done].
  destruct (goroutines s !! i) as [g|]; [|lia].
  destruct (step (shared s) (mu s) g) as [[[w' m'] p']|] eqn:Hstep; [|lia].
  simpl. rewrite (step_clock _ _ _ _ _ _ Hstep). lia.
Qed.

Lemma elapsed_nonneg (schedule : list action) : 0 ≤ elapsed schedule.
Proof. induction schedule as [|[i|d] schedule IH]; simpl; lia. Qed.

Lemma exec_Inv (schedule : list action) (s : system) :
  Inv w0 resp rest maxAge s ->
  now (shared s) + elapsed schedule < deadline w0 maxAge ->
  Inv w0 resp rest maxAge (exec schedule s).
Proof.
  revert s. induction schedule as [|a schedule IH]; intros s Hinv Hbound; [done|].
  simpl in *. pose proof (elapsed_nonneg schedule) as Hpos.
  pose proof (perform_clock a s) as Hclock.
  apply IH.
  - apply perform_Inv; [done|]. destruct a; lia.
  - destruct a; lia.
Qed.

Lemma spawn_Inv (kids : list string) :
  network w0 = Ok resp :: rest -> Inv w0 resp rest maxAge (spawn w0 kids).
Proof.
  intros Hnet.
  assert (Hentry : ∀ j g, goroutines (spawn w0 kids) !! j = Some g -> at_pc g = G_RLock1).
  { intros j g Hj. unfold spawn in Hj. cbn [goroutines] in Hj.
    apply list_lookup_fmap_Some in Hj as (k & -> & _). done. }
  split.
  - left. split; [done|]. intros j g Hj. by rewrite (Hentry j g Hj).
  - simpl. lia.
  - apply NotFetched; try done. intros j g Hj. by rewrite (Hentry j g Hj).
Qed.

End OneFetch.

Lemma perform_length (H : GoLibs) (a : action) (s : system) :
  length (goroutines (perform a s)) = length (goroutines s).
Proof.
  destruct a as [i|d]; simpl; [|done].
  destruct (goroutines s !! i) as [g|]; [|done].
  destruct (step (shared s) (mu s) g) as [[[w' m'] p']|]; [|done].
  simpl. apply length_insert.
Qed.

Lemma exec_length (H : GoLibs) (schedule : list action) (s : system) :
  length (goroutines (exec schedule s)) = length (goroutines s).
Proof.
  revert s. induction schedule as [|a schedule IH]; intros s; [done|].
  simpl. by rewrite IH, perform_length.
Qed.

(** ** A race in which every fetch fails *)

Lemma count_insert (b : goroutine -> bool) (l : list goroutine) (i : nat)
    (g g' : goroutine) :
  l !! i = Some g ->
  (length (List.filter b (<[i := g']> l)) + (if b g then 1 else 0)
   = length (List.filter b l) + (if b g' then 1 else 0))%nat.
Proof.
  revert i. induction l as [|x l IH]; intros [|i] Hi; try done.
  - simpl in Hi. injection Hi as ->. simpl.
    destruct (b g), (b g'); simpl; lia.
  - simpl in Hi. specialize (IH i Hi). simpl.
    destruct (b x); simpl; lia.
Qed.

Lemma count_le_length (b : goroutine -> bool) (l : list goroutine) :
  (length (List.filter b l) ≤ length l)%nat.
Proof. induction l as [|x l IH]; simpl; [done|]. destruct (b x); simpl; lia. Qed.

Section FailedFetches.
Context `{GoLibs}.
Variable w0 : world.
Hypothesis Hexpired : time.Before (now w0) (expiry (keyCache w0)) = false.

Lemma step_failInv (s : system) i g w' m' p' :
  failInv w0 s -> goroutines s !! i = Some g ->
  step (shared s) (mu s) g = Some (w', m', p') ->
  failInv w0 (update s i w' m' {| kid := kid g; at_pc := p' |}).
Proof.
  intros [Hl Hk Hc Hn Hf Hpath] Hi Hstep.
  pose proof (step_lock s i g w' m' p' Hl Hi Hstep) as Hl'.
  pose proof (Hpath i g Hi) as Hg.
  pose proof (expired_later w0 Hexpired (shared s) Hk Hc) as Hexp.
  pose proof (count_insert fetched (goroutines s) i g {| kid := kid g; at_pc := p' |} Hi)
    as Hcount.
  assert (Hothers : ∀ j y, goroutines s !! j = Some y -> j ≠ i -> failedPath y)
    by (intros j y Hj _; by eapply Hpath).
  unfold failedPath in Hg.
  change (fetched g) with (negb (beforeFetch (at_pc g))) in Hcount.
  change (fetched {| kid := kid g; at_pc := p' |}) with (negb (beforeFetch p')) in Hcount.
  unfold step in Hstep.
  destruct (at_pc g) as [| |ret| | | |r|err| | |ret|ret] eqn:Hpc.
  - destruct (writer (mu s)); [done|]. injection Hstep as <- <- <-.
    split; cbn [update shared goroutines emit snd keyCache now network trace];
      try done.
    + rewrite fetches_cons. cbn in Hcount |- *. lia.
    + by apply (insert_pointwise failedPath _ i g).
  - rewrite Hexp in Hstep. injection Hstep as <- <- <-.
    split; cbn [update shared goroutines]; try done.
    + cbn in Hcount. lia.
    + by apply (insert_pointwise failedPath _ i g).
  - destruct ret as [ret|]; [done|]. injection Hstep as <- <- <-.
    split; cbn [update shared goroutines]; try done.
    + cbn in Hcount. lia.
    + by apply (insert_pointwise failedPath _ i g).
  - destruct (_ || _); [done|]. injection Hstep as <- <- <-.
    split; cbn [update shared goroutines emit snd keyCache now network trace];
      try done.
    + rewrite fetches_cons. cbn in Hcount |- *. lia.
    + by apply (insert_pointwise failedPath _ i g).
  - rewrite Hexp in Hstep. injection Hstep as <- <- <-.
    split; cbn [update shared goroutines]; try done.
    + cbn in Hcount. lia.
    + by apply (insert_pointwise failedPath _ i g).
  - unfold http_Get in Hstep.
    destruct (network (shared s)) as [|r0 net] eqn:Hnet; injection Hstep as <- <- <-.
    + split; cbn [update shared goroutines keyCache now network trace tl]; try done.
      * rewrite fetches_cons. cbn in Hcount |- *. lia.
      * apply (insert_pointwise failedPath _ i g); [done..|]. constructor.
    + apply Forall_cons in Hn as [Hr Hn].
      split; cbn [update shared goroutines keyCache now network trace tl]; try done.
      * rewrite fetches_cons. cbn in Hcount |- *. lia.
      * by apply (insert_pointwise failedPath _ i g).
  - destruct (refresh_install_failing r (shared s) Hg) as [e He].
    rewrite He in Hstep. injection Hstep as <- <- <-.
    split; cbn [update shared goroutines]; try done.
    + cbn in Hcount. lia.
    + by apply (insert_pointwise failedPath _ i g).
  - destruct err as [e|]; [|done]. injection Hstep as <- <- <-.
    split; cbn [update shared goroutines]; try done.
    + cbn in Hcount. lia.
    + by apply (insert_pointwise failedPath _ i g).
  - done.
  - done.
  - done.
  - done.
Qed.

Lemma perform_failInv (a : action) (s : system) :
  failInv w0 s -> failInv w0 (perform a s).
Proof.
  intros Hinv. destruct a as [i|d]; simpl.
  - destruct (goroutines s !! i) as [g|] eqn:Hi; [|done].
    destruct (step (shared s) (mu s) g) as [[[w' m'] p']|] eqn:Hstep; [|done].
    by apply (step_failInv s i g).
  - destruct Hinv as [Hl Hk Hc Hn Hf Hpath]. split; simpl; try done. lia.
Qed.

Lemma exec_failInv (schedule : list action) (s : system) :
  failInv w0 s -> failInv w0 (exec schedule s).
Proof.
  revert s. induction schedule as [|a schedule IH]; intros s Hinv; [done|].
  simpl. apply IH. by apply perform_failInv.
Qed.

Lemma spawn_failInv (kids : list string) :
  Forall failingFetch (network w0) -> failInv w0 (spawn w0 kids).
Proof.
  intros Hnet.
  assert (Hentry : ∀ j g, goroutines (spawn w0 kids) !! j = Some g -> at_pc g = G_RLock1).
  { intros j g Hj. unfold spawn in Hj. cbn [goroutines] in Hj.
    apply list_lookup_fmap_Some in Hj as (k & -> & _). done. }
  split; try done.
  - left. split; [done|]. intros j g Hj. by rewrite (Hentry j g Hj).
  - cbn [spawn shared goroutines].
    assert (Hnone : ∀ l : list string,
               List.filter fetched ((fun k => {| kid := k; at_pc := G_RLock1 |}) <$> l) = []).
    { induction l as [|k l IH]; [done|]. cbn. exact IH. }
    rewrite Hnone. simpl. lia.
  - intros j g Hj. unfold failedPath. by rewrite (Hentry j g Hj).
Qed.

(** Once all have returned, every goroutine has sent its request. *)
Lemma fetched_all_Done (gs : list goroutine) :
  Forall (fun g => isDone g = true) gs -> List.filter fetched gs = gs.
Proof.
  induction 1 as [|g gs Hg _ IH]; [done|].
  cbn. unfold fetched, isDone in *. destruct (at_pc g); try discriminate.
  cbn. by rewrite IH.
Qed.

End FailedFetches.

Section Races.
Context `{GoLibs}.

(** The mutex discipline holds in every schedule. *)
Lemma exec_lock (schedule : list action) (s : system) :
  lockInv s -> lockInv (exec schedule s).
Proof.
  revert s. induction schedule as [|a schedule IH]; intros s Hl; [done|].
  simpl. apply IH. destruct a as [i|d]; simpl; [|done].
  destruct (goroutines s !! i) as [g|] eqn:Hi; [|done].
  destruct (step (shared s) (mu s) g) as [[[w' m'] p']|] eqn:Hstep; [|done].
  by apply (step_lock s i g).
Qed.

Lemma spawn_lock (w : world) (kids : list string) : lockInv (spawn w kids).
Proof.
  left. split; [done|]. intros j g Hj. unfold spawn in Hj. cbn [goroutines] in Hj.
  by apply list_lookup_fmap_Some in Hj as (k & -> & _).
Qed.

End Races.

(** C8, as the code has it.  Goroutines enter [getKey] together against an
    expired cache, and the scheduler interleaves their steps and lets time
    pass as it likes.  At every moment at most one goroutine is inside
    [refresh].  If the first answer of the certificate endpoint is one that
    [refresh] installs, and the schedule takes less than the lifetime
    [refresh] gives the keys, which is [time.Duration(maxAge) * time.Second]
    in 64-bit arithmetic, then at most one request goes out in every
    schedule, and exactly one once all callers have returned: whoever
    takes the write lock after the fetch finds the expiry in the future at
    the double check and returns without a request.  If every fetch
    fails, the cache stays as it was, expired; every goroutine that has
    gone past the double check has sent a request of its own, so that once
    all callers have returned there are as many requests as callers, and
    each caller has the error of its [refresh]. *)
Theorem C8_one_fetch_or_one_per_caller `{GoLibs}
    (w0 : world) (kids : list string) (schedule : list action) :
  time.Before (now w0) (expiry (keyCache w0)) = false ->
  let s := exec schedule (spawn w0 kids) in
  lockInv s ∧
  (∀ resp rest maxAge,
     network w0 = Ok resp :: rest -> goodFetch resp maxAge ->
     elapsed schedule < time.Seconds maxAge ->
     (fetches (trace (shared s)) ≤ S (fetches (trace w0)))%nat ∧
     (kids ≠ [] -> Forall (fun g => isDone g = true) (goroutines s) ->
      fetches (trace (shared s)) = S (fetches (trace w0)))) ∧
  (Forall failingFetch (network w0) ->
     keyCache (shared s) = keyCache w0 ∧
     fetches (trace (shared s))
     = (fetches (trace w0) + length (List.filter fetched (goroutines s)))%nat ∧
     (Forall (fun g => isDone g = true) (goroutines s) ->
      fetches (trace (shared s)) = (fetches (trace w0) + length kids)%nat ∧
      ∀ j g, goroutines s !! j = Some g -> ∃ e, at_pc g = Done (Err (ErrRefresh e)))).
Proof.
  intros Hexpired s.
  assert (Hlen : length (goroutines s) = length kids).
  { subst s. rewrite exec_length. simpl. apply length_fmap. }
  split; [apply exec_lock, spawn_lock|]. split.
  - intros resp rest maxAge Hnet Hgood Hbound.
    assert (Hinv : Inv w0 resp rest maxAge s).
    { apply exec_Inv; [done..| |].
      - by apply spawn_Inv.
      - unfold deadline. simpl. lia. }
    destruct Hinv as [Hl Hc Hp]. split.
    + destruct Hp as [_ _ Hf _|i0 g0 _ Hf _ _ _|_ Hf _]; lia.
    + intros Hkids Hdone.
      destruct Hp as [_ _ _ Hall|i0 g0 _ _ Hi0 Hpc0 _|_ Hf _]; [| |done].
      * destruct (goroutines s) as [|g l] eqn:Hg.
        { destruct kids; [done | discriminate Hlen]. }
        apply Forall_cons in Hdone as [Hd _].
        specialize (Hall 0%nat g eq_refl). unfold isDone in Hd.
        destruct (at_pc g); discriminate.
      * rewrite Forall_lookup in Hdone. specialize (Hdone i0 g0 Hi0).
        unfold isDone in Hdone. rewrite Hpc0 in Hdone. discriminate.
  - intros Hfail.
    assert (Hinv : failInv w0 s).
    { apply exec_failInv; [done|]. by apply spawn_failInv. }
    destruct Hinv as [_ Hk _ _ Hf Hpath].
    split; [done|]. split; [done|].
    intros Hdone. split.
    + by rewrite Hf, (fetched_all_Done _ Hdone), Hlen.
    + intros j g Hj. specialize (Hpath j g Hj).
      rewrite Forall_lookup in Hdone. specialize (Hdone j g Hj).
      unfold failedPath in Hpath. unfold isDone in Hdone.
      destruct (at_pc g) as [| |ret| | | |r|err| | |ret|ret]; try discriminate.
      destruct ret as [key|[k|e|k]]; try done. by exists e.
Qed.

(** Three callers race into the empty cache of a fresh process, two of
    them for the same key; time passes while the request is out.  With an
    endpoint that answers there is one request; with an endpoint that is
    down there are three. *)
Lemma C8_witness :
  let round := [Run 0%nat; Run 1%nat; Run 2%nat; Tick 1000000%N] in
  let schedule := concat (replicate 20 round) in
  let kids := ["key-valid"; "key-valid"; "key-other"] in
  let up := exec (H := Vectors.libs) schedule
              (spawn (Vectors.world0 emptyCache [Ok Vectors.goodResponse]) kids) in
  let down := exec (H := Vectors.libs) schedule
                (spawn (Vectors.world0 emptyCache []) kids) in
  (Forall (fun g => isDone g = true) (goroutines up) ∧
   fetches (trace (shared up)) = 1%nat) ∧
  (Forall (fun g => isDone g = true) (goroutines down) ∧
   fetches (trace (shared down)) = 3%nat).
Proof.
  intros round schedule kids up down.
  assert (Hup : Forall (fun g => isDone g = true) (goroutines up)).
  { vm_compute. repeat constructor. }
  assert (Hdown : Forall (fun g => isDone g = true) (goroutines down)).
  { vm_compute. repeat constructor. }
  split; (split; [assumption|]).
  - refine (proj2 (proj1 (proj2 (C8_one_fetch_or_one_per_caller (H := Vectors.libs)
              (Vectors.world0 emptyCache [Ok Vectors.goodResponse]) kids schedule _))
              Vectors.goodResponse [] 19845 _ _ _) _ Hup).
    + vm_compute. reflexivity.
    + reflexivity.
    + exists Vectors.bodyOneRSA, {[ "key-valid" := Vectors.pemRSA ]},
        {[ "key-valid" := Vectors.keyValid ]}.
      repeat split; vm_compute; reflexivity.
    + vm_compute. reflexivity.
    + discriminate.
  - refine (proj1 (proj2 (proj2 (proj2 (proj2 (C8_one_fetch_or_one_per_caller
              (H := Vectors.libs) (Vectors.world0 emptyCache []) kids schedule _)) _))
              Hdown)).
    + vm_compute. reflexivity.
    + constructor.
Defined.

(** The claim C8 as written fails when the fetch fails: the cache stays
    expired, and the caller that takes the write lock next finds it so at
    the double check and sends a request of its own.  Two callers, an
    endpoint that is down: two requests.  It fails as well when the fetch
    succeeds with a [max-age] that gives the keys no lifetime: with
    [max-age=0], and with [max-age=10000000000], whose nanoseconds wrap
    around to a negative [Duration], the keys are installed already
    expired, and three callers send three requests. *)
Lemma C8_counterexample :
  let answer := fun cc =>
    Ok {| http.StatusCode := 200;
          http.RespHeader := {[ "Cache-Control" := [cc] ]};
          http.Body := Ok Vectors.bodyOneRSA |} in
  let race := fun net kids =>
    exec (H := Vectors.libs)
      (concat (replicate 40 ((fun i => Run i) <$> seq 0 (length kids))))
      (spawn (Vectors.world0 emptyCache net) kids) in
  let down := race [Err "connection reset by peer"; Err "connection reset by peer"]
                ["key-valid"; "key-valid"] in
  let zero := race (replicate 3 (answer "public, max-age=0"))
                ["key-valid"; "key-valid"; "key-valid"] in
  let huge := race (replicate 3 (answer "public, max-age=10000000000"))
                ["key-valid"; "key-valid"; "key-valid"] in
  time.Before Vectors.t0 (expiry emptyCache) = false ∧
  (map at_pc (goroutines down)
   = [Done (Err (ErrRefresh (ErrFetching "connection reset by peer")));
      Done (Err (ErrRefresh (ErrFetching "connection reset by peer")))] ∧
   fetches (trace (shared down)) = 2%nat) ∧
  (time.Seconds 0 = 0 ∧
   map at_pc (goroutines zero) = replicate 3 (Done (Ok Vectors.keyValid)) ∧
   fetches (trace (shared zero)) = 3%nat) ∧
  (time.Seconds 10000000000 = -8446744073709551616 ∧
   map at_pc (goroutines huge) = replicate 3 (Done (Ok Vectors.keyValid)) ∧
   fetches (trace (shared huge)) = 3%nat).
Proof. repeat split; vm_compute; reflexivity. Qed.

(** ** The interleaving model and the sequential code agree *)

Section Alone.
Context `{GoLibs}.

(** One move of a system of one goroutine. *)
Lemma perform_alone (w : world) (m : RWMutex) (k : string) (p : pc) :
  perform (Run 0%nat)
    {| shared := w; mu := m; goroutines := [{| kid := k; at_pc := p |}] |}
  = match step w m {| kid := k; at_pc := p |} with
    | Some (w', m', p') =>
        {| shared := w'; mu := m'; goroutines := [{| kid := k; at_pc := p' |}] |}
    | None => {| shared := w; mu := m; goroutines := [{| kid := k; at_pc := p |}] |}
    end.
Proof.
  unfold perform. cbn [goroutines shared mu lookup list_lookup].
  by destruct (step w m _) as [[[w' m'] p']|].
Qed.

Lemma exec_replicate_S (n : nat) (a : action) (s : system) :
  exec (replicate (S n) a) s = exec (replicate n a) (perform a s).
Proof. reflexivity. Qed.

Lemma exec_Done (n : nat) (w : world) (m : RWMutex) (k : string) ret :
  exec (replicate n (Run 0%nat))
    {| shared := w; mu := m; goroutines := [{| kid := k; at_pc := Done ret |}] |}
  = {| shared := w; mu := m; goroutines := [{| kid := k; at_pc := Done ret |}] |}.
Proof.
  induction n as [|n IH]; [done|].
  by rewrite exec_replicate_S, perform_alone.
Qed.

(** A goroutine that runs alone, with no time passing, goes through
    [getKey] as the sequential embedding does: same result, same world,
    and the mutex is free again. *)
Lemma exec_alone_is_getKey (k : string) (w : world) :
  exec (replicate 11 (Run 0%nat)) (spawn w [k])
  = {| shared := snd (getKey k w); mu := {| writer := false; readers := 0 |};
       goroutines := [{| kid := k; at_pc := Done (fst (getKey k w)) |}] |}.
Proof.
  unfold spawn. cbn [fmap list_fmap].
  assert (Hget : getKey k w =
    let w1 := snd (emit (Call_getKey k) w) in
    if time.Before (now w) (expiry (keyCache w))
    then (lookupKey (keyCache w) k (ErrNotInCache k), w1)
    else
      let '(err, w2) := refresh w1 in
      match err with
      | Some e => (Err (ErrRefresh e), w2)
      | None => (lookupKey (keyCache w2) k (ErrNotFoundAfterRefresh k), w2)
      end).
  { unfold getKey, bind, readCache, time_Now, ret. cbn [emit fst snd keyCache now].
    destruct (time.Before _ _); [done|].
    by destruct (refresh _) as [[e|] w2]. }
  rewrite Hget. clear Hget. cbv zeta.
  set (w2 := {| keyCache := keyCache w; now := now w; network := network w;
                trace := Call_refresh :: Call_getKey k :: trace w |}).
  assert (Hfetch : http_Get googleCertsURL w2
                   = (nextFetch w, snd (http_Get googleCertsURL w2))).
  { unfold http_Get, nextFetch. subst w2. cbn [network]. by destruct (network w). }
  destruct (time.Before (now w) (expiry (keyCache w))) eqn:Hfresh.
  - do 3 (rewrite exec_replicate_S, perform_alone; unfold step at 1;
          cbn [at_pc kid writer readers pred emit snd keyCache now];
          rewrite ?Hfresh).
    by rewrite exec_Done.
  - rewrite refresh_unfold. cbv zeta. cbn [emit snd keyCache now network trace].
    rewrite Hfresh. fold w2.
    change (nextFetch _) with (nextFetch w).
    do 5 (rewrite exec_replicate_S, perform_alone; unfold step at 1;
          cbn [at_pc kid writer readers pred orb negb Nat.eqb emit snd keyCache now
               network trace];
          rewrite ?Hfresh).
    fold w2.
    rewrite exec_replicate_S, perform_alone. unfold step at 1. cbn [at_pc].
    rewrite Hfetch at 1.
    rewrite exec_replicate_S, perform_alone. unfold step at 1. cbn [at_pc].
    destruct (refresh_install (nextFetch w) _) as [[e|] w3].
    + rewrite exec_replicate_S, perform_alone. unfold step at 1. cbn [at_pc readers].
      by rewrite exec_Done.
    + do 4 (rewrite exec_replicate_S, perform_alone; unfold step at 1;
            cbn [at_pc kid writer readers pred]).
      by rewrite exec_Done.
Qed.

End Alone.

(** * Further properties *)

Lemma Split_nonempty (s : string) (sep : Ascii.ascii) : strings.Split s sep ≠ [].
Proof.
  destruct s as [|c s]; simpl; [done|].
  destruct (Ascii.eqb c sep); [done|]. by destruct (strings.Split s sep).
Qed.

Lemma Split_app (a b : string) (sep : Ascii.ascii) :
  strings.Split (String.append a (String sep b)) sep
  = strings.Split a sep ++ strings.Split b sep.
Proof.
  induction a as [|c a IH].
  - rewrite append_nil_l. simpl. by rewrite Ascii.eqb_refl.
  - rewrite append_cons. simpl. rewrite IH.
    destruct (Ascii.eqb c sep); [done|].
    pose proof (Split_nonempty a sep) as Hne.
    by destruct (strings.Split a sep).
Qed.

Lemma Atoi_range (s : string) (v : Z) :
  strconv.Atoi s = Some v -> strconv.minInt ≤ v ≤ strconv.maxInt.
Proof.
  unfold strconv.Atoi.
  destruct (match s with
            | String "-"%char s' => (true, s')
            | String "+"%char s' => (false, s')
            | _ => (false, s)
            end) as [neg body].
  destruct body as [|c body]; [done|].
  destruct (strconv.digits 0 (String c body)) as [d|]; [|done].
  set (v' := if neg then - d else d).
  destruct (Z.leb strconv.minInt v' && Z.leb v' strconv.maxInt)%bool eqn:E; [|done].
  intros [= <-]. apply andb_true_iff in E as [E1 E2]. lia.
Qed.

(** ** The [max-age] of the certificates *)

Section MaxAgeSpec.
Context `{GoLibs}.

Lemma fold_last_default {A B : Type} (f : B -> option A) (l : list B) (a : A) :
  fold_left (fun acc d => match f d with Some v => v | None => acc end) l a
  = default a (last (omap f l)).
Proof.
  revert a. induction l as [|d l IH]; intros a; [done|].
  simpl. rewrite IH. destruct (f d) as [v|]; [|done].
  rewrite last_cons. by destruct (last _).
Qed.

Lemma fold_left_pointwise {A B : Type} (f g : A -> B -> A) (l : list B) (a : A) :
  (∀ acc d, f acc d = g acc d) -> fold_left f l a = fold_left g l a.
Proof.
  intros Hfg. revert a. induction l as [|d l IH]; intros a; [done|].
  simpl. by rewrite Hfg, IH.
Qed.

Lemma parseMaxAge_fold (cc : string) :
  parseMaxAge cc = default 3600 (last (omap maxAgeDirective (strings.Split cc ","%char))).
Proof.
  rewrite <- fold_last_default. unfold parseMaxAge, maxAgeDirective.
  destruct (String.eqb cc "") eqn:E.
  - apply String.eqb_eq in E as ->. reflexivity.
  - apply fold_left_pointwise. intros acc d. cbv zeta.
    by destruct (strings.HasPrefix _ _).
Qed.

(** X1.  The [max-age] [refresh] reads from a [Cache-Control] value is the
    value of the last directive, in the comma-separated list, that is
    [max-age=] followed by a decimal [int], once the white space around
    the directive is trimmed (white space as [unicode.IsSpace] has it, in
    UTF-8), and 3600 when no directive is.  A directive whose
    value does not parse (not a number, or one that does not fit 64 bits)
    is skipped: it neither resets the value to the default nor hides an
    earlier directive.  The result is an [int], whatever the header
    holds, and appending directives can only override what was read
    before. *)
Theorem parseMaxAge_last_directive_wins (cc : string) :
  parseMaxAge cc
  = default 3600 (last (omap maxAgeDirective (strings.Split cc ","%char))) ∧
  strconv.minInt ≤ parseMaxAge cc ≤ strconv.maxInt ∧
  ∀ pre post,
    parseMaxAge (String.append pre (String ","%char post))
    = default (parseMaxAge pre) (last (omap maxAgeDirective (strings.Split post ","%char))).
Proof.
  split; [apply parseMaxAge_fold|]. split.
  - rewrite parseMaxAge_fold.
    destruct (last _) as [v|] eqn:E; simpl; [|by vm_compute].
    apply last_Some_elem_of, list_elem_of_omap in E as (d & _ & Hd).
    unfold maxAgeDirective in Hd. destruct (strings.HasPrefix _ _); [|done].
    by eapply Atoi_range.
  - intros pre post. rewrite !parseMaxAge_fold, Split_app, omap_app, last_app.
    by destruct (last (omap maxAgeDirective (strings.Split post ","))).
Qed.
End MaxAgeSpec.

(** ** Start-up configuration *)

(** X2.  [loadFirebaseConfig] stops the process exactly when one of the
    three required variables is unset or set to the empty string; it then
    writes one ERROR record that lists all the missing variables, in the
    order [requiredVars], and nothing else.  Otherwise it returns the
    values of the environment, field by field, the emulator host being the
    value of [FIREBASE_AUTH_EMULATOR_HOST] (empty when unset), and writes
    one WARN record when, and only when, that host is not empty. *)
Theorem loadFirebaseConfig_exits_or_reads_all (env : gmap string string) (w : world) :
  let missing := List.filter (fun v => String.eqb (Getenv env v) "") requiredVars in
  let host := Getenv env "FIREBASE_AUTH_EMULATOR_HOST" in
  loadFirebaseConfig env w
  = match missing with
    | [] =>
        (Some {| ProjectID := Getenv env "FIREBASE_PROJECT_ID";
                 APIKey := Getenv env "FIREBASE_API_KEY";
                 AuthDomain := Getenv env "FIREBASE_AUTH_DOMAIN";
                 AuthEmulatorHost := host |},
         if String.eqb host "" then w
         else snd (slog "WARN" "running with Firebase Auth emulator"
                     [("host", LStr host)] w))
    | _ :: _ =>
        (None,
         snd (slog "ERROR" "missing required environment variables"
                [("vars", LStr (strings.Join missing ", "))] w))
    end ∧
  (fst (loadFirebaseConfig env w) = None ↔
   ∃ v, v ∈ requiredVars ∧ (env !! v = None ∨ env !! v = Some "")).
Proof.
  intros missing host.
  assert (Hrun : loadFirebaseConfig env w
    = match missing with
      | [] =>
          (Some {| ProjectID := Getenv env "FIREBASE_PROJECT_ID";
                   APIKey := Getenv env "FIREBASE_API_KEY";
                   AuthDomain := Getenv env "FIREBASE_AUTH_DOMAIN";
                   AuthEmulatorHost := host |},
           if String.eqb host "" then w
           else snd (slog "WARN" "running with Firebase Auth emulator"
                       [("host", LStr host)] w))
      | _ :: _ =>
          (None,
           snd (slog "ERROR" "missing required environment variables"
                  [("vars", LStr (strings.Join missing ", "))] w))
      end).
  { subst missing host. unfold loadFirebaseConfig, requiredVars, bind, ret. cbn [List.filter ProjectID APIKey AuthDomain AuthEmulatorHost].
    destruct (String.eqb (Getenv env "FIREBASE_PROJECT_ID") "");
      destruct (String.eqb (Getenv env "FIREBASE_API_KEY") "");
      destruct (String.eqb (Getenv env "FIREBASE_AUTH_DOMAIN") ""); cbn;
      try reflexivity.
    by destruct (String.eqb (Getenv env "FIREBASE_AUTH_EMULATOR_HOST") ""). }
  split; [exact Hrun|]. rewrite Hrun.
  assert (Hempty : ∀ v, String.eqb (Getenv env v) "" = true
                        ↔ env !! v = None ∨ env !! v = Some "").
  { intros v. unfold Getenv. rewrite String.eqb_eq.
    destruct (env !! v) as [x|]; simpl; [|by intuition].
    split; [intros ->; by right | by intros [|[= ->]]]. }
  split.
  - intros Hnone. destruct missing as [|v rest] eqn:E; [done|].
    assert (Hin : In v missing) by (rewrite E; by left).
    apply List.filter_In in Hin as [Hin Hv]. exists v.
    split; [by apply list_elem_of_In | by apply Hempty].
  - intros (v & Hin & Hv). apply Hempty in Hv.
    assert (Hm : In v missing).
    { apply List.filter_In. split; [by apply list_elem_of_In | done]. }
    by destruct missing.
Qed.

(** ** The production verifier: what it accepts *)

Section Acceptance.
Context `{GoLibs}.

(** The temporal checks of [RegisteredClaims.Valid], read backwards. *)
Lemma RegisteredClaims_Valid_None_inv (t : Time) (rc : jwt.RegisteredClaims) :
  jwt.RegisteredClaims_Valid t rc = None ->
  (∀ exp, jwt.ExpiresAt rc = Some exp -> t < exp) ∧
  (∀ iat, jwt.IssuedAt rc = Some iat -> iat ≤ t) ∧
  (∀ nbf, jwt.NotBefore rc = Some nbf -> nbf ≤ t).
Proof.
  unfold jwt.RegisteredClaims_Valid.
  destruct (jwt.verifyExp (jwt.ExpiresAt rc) t false) eqn:E1;
    destruct (jwt.verifyIat (jwt.IssuedAt rc) t false) eqn:E2;
    destruct (jwt.verifyNbf (jwt.NotBefore rc) t false) eqn:E3;
    cbn; try discriminate.
  intros _. unfold jwt.verifyExp, jwt.verifyIat, jwt.verifyNbf,
    time.Before, time.After, time.Equal in *.
  split; [|split].
  - intros exp Hexp. rewrite Hexp in E1. by apply Z.ltb_lt.
  - intros iat Hiat. rewrite Hiat in E2.
    apply orb_true_iff in E2 as [E2|E2]; [apply Z.ltb_lt in E2 | apply Z.eqb_eq in E2]; lia.
  - intros nbf Hnbf. rewrite Hnbf in E3.
    apply orb_true_iff in E3 as [E3|E3]; [apply Z.ltb_lt in E3 | apply Z.eqb_eq in E3]; lia.
Qed.

(** What [RegisteredClaims.Valid] returns as an error has a flag set. *)
Lemma RegisteredClaims_Valid_Some (t : Time) (rc : jwt.RegisteredClaims) e :
  jwt.RegisteredClaims_Valid t rc = Some e -> jwt.valid e = false.
Proof.
  unfold jwt.RegisteredClaims_Valid.
  destruct (jwt.verifyExp _ _ _); destruct (jwt.verifyIat _ _ _);
    destruct (jwt.verifyNbf _ _ _); cbn; try discriminate; by intros [= <-].
Qed.

(** The verified parse of [verifyIDToken], read backwards: the token
    parses, declares RS256, its signature verifies under the key and its
    registered claims are valid at the instant of the parse. *)
Lemma ParseWithClaims_RS256_inv (t : Time) (tokenString : string) (key : rsa.PublicKey)
    (verified : jwt.Token firebaseClaims) :
  jwt.ParseWithClaims (C := firebaseClaims)
    (jwt.NewParser [jwt.WithValidMethods ["RS256"]]) t tokenString (fun _ => Ok key)
  = Ok verified ->
  ∃ token p0 p1 p2,
    jwt.ParseUnverified (C := firebaseClaims) (jwt.NewParser []) tokenString = Ok token ∧
    strings.Split tokenString "."%char = [p0; p1; p2] ∧
    jwt.TokenClaims verified = jwt.TokenClaims token ∧
    jwt.Valid verified = true ∧
    crypto_Verify "RS256" key (String.append p0 (String "."%char p1)) p2 = true ∧
    jwt.RegisteredClaims_Valid t (RegisteredClaims (jwt.TokenClaims token)) = None.
Proof.
  unfold jwt.ParseWithClaims.
  rewrite (ParseUnverified_any_parser _ (jwt.NewParser [])).
  destruct (jwt.ParseUnverified _ _) as [token|e] eqn:Hpu; [|discriminate].
  pose proof Hpu as Hinv.
  apply ParseUnverified_Ok_inv in Hinv
    as (p0 & p1 & p2 & header & members & alg & Hs & _ & _ & _ & _ & _ & _).
  cbn [jwt.NewParser fold_left jwt.WithValidMethods jwt.ValidMethods
       jwt.SkipClaimsValidation existsb].
  destruct (String.eqb (jwt.Alg (jwt.Method token)) "RS256") eqn:Ealg; [|discriminate].
  cbn [orb negb]. rewrite Hs. cbn [nth jwt.Claims_Valid firebaseClaims_Claims].
  apply String.eqb_eq in Ealg.
  destruct (jwt.Verify _ _ _ _) eqn:Hv; [|discriminate]. cbn [negb].
  destruct (jwt.RegisteredClaims_Valid t _) as [e|] eqn:Hvalid; [discriminate|].
  intros [= <-]. exists token, p0, p1, p2. cbn [jwt.TokenClaims jwt.Valid].
  repeat split; try done.
  unfold jwt.Verify in Hv.
  destruct (jwt.Method token); try discriminate; simpl in Ealg; try discriminate.
  exact Hv.
Qed.

(** Nothing in [refresh_install] reads the trace. *)
Lemma refresh_install_trace_irrelevant r (w w' : world) :
  keyCache w = keyCache w' -> now w = now w' -> network w = network w' ->
  fst (refresh_install r w) = fst (refresh_install r w') ∧
  keyCache (snd (refresh_install r w)) = keyCache (snd (refresh_install r w')) ∧
  now (snd (refresh_install r w)) = now (snd (refresh_install r w')) ∧
  network (snd (refresh_install r w)) = network (snd (refresh_install r w')).
Proof.
  intros Hk Hn Hnet. unfold refresh_install, bind, ret.
  destruct r as [resp|e]; [|done].
  destruct (http.Body resp) as [body|e]; [|done].
  destruct (negb _); [done|].
  destruct (json_Unmarshal_certMap body) as [certMap|]; [|done].
  destruct (parseCerts _ _); [|done].
  simpl. by rewrite Hn.
Qed.

(** [getKey] on an expired cache, as an equation: the request goes out,
    and what [refresh] makes of the answer decides. *)
Lemma getKey_expired kid (w : world) :
  time.Before (now w) (expiry (keyCache w)) = false ->
  getKey kid w
  = let w2 := {| keyCache := keyCache w; now := now w; network := tl (network w);
                 trace := HTTPGet googleCertsURL :: Call_refresh :: Call_getKey kid
                            :: trace w |} in
    let '(err, w3) := refresh_install (nextFetch w) w2 in
    match err with
    | Some e => (Err (ErrRefresh e), w3)
    | None => (lookupKey (keyCache w3) kid (ErrNotFoundAfterRefresh kid), w3)
    end.
Proof.
  intros Hexp. unfold getKey, bind, readCache, time_Now, ret.
  cbn [emit fst snd keyCache now]. rewrite Hexp.
  rewrite refresh_unfold. cbn [emit snd keyCache now network trace]. rewrite Hexp.
  change (nextFetch _) with (nextFetch w). cbv zeta.
  assert (E : snd (http_Get googleCertsURL
                     {| keyCache := keyCache w; now := now w; network := network w;
                        trace := Call_refresh :: Call_getKey kid :: trace w |})
              = {| keyCache := keyCache w; now := now w; network := tl (network w);
                   trace := HTTPGet googleCertsURL :: Call_refresh :: Call_getKey kid
                              :: trace w |}).
  { unfold http_Get. cbn [keyCache now network trace]. by destruct (network w). }
  rewrite E. by destruct (refresh_install _ _) as [[e|] w3].
Qed.

(** Nor in [getKey]: its answer and the state it leaves depend on the
    cache, the clock and the network alone. *)
Lemma getKey_trace_irrelevant kid (w w' : world) :
  keyCache w = keyCache w' -> now w = now w' -> network w = network w' ->
  fst (getKey kid w) = fst (getKey kid w') ∧
  keyCache (snd (getKey kid w)) = keyCache (snd (getKey kid w')) ∧
  now (snd (getKey kid w)) = now (snd (getKey kid w')) ∧
  network (snd (getKey kid w)) = network (snd (getKey kid w')).
Proof.
  intros Hk Hn Hnet.
  destruct (time.Before (now w) (expiry (keyCache w))) eqn:Hfresh.
  - rewrite !getKey_fresh by congruence. simpl. by rewrite Hk.
  - rewrite !getKey_expired by congruence. cbv zeta.
    assert (Hnext : nextFetch w' = nextFetch w) by (unfold nextFetch; by rewrite Hnet).
    rewrite Hnext.
    set (w2 := {| keyCache := keyCache w; now := now w; network := tl (network w);
                  trace := HTTPGet googleCertsURL :: Call_refresh :: Call_getKey kid
                             :: trace w |}).
    set (w2' := {| keyCache := keyCache w'; now := now w'; network := tl (network w');
                   trace := HTTPGet googleCertsURL :: Call_refresh :: Call_getKey kid
                              :: trace w' |}).
    destruct (refresh_install_trace_irrelevant (nextFetch w) w2 w2')
      as (E1 & E2 & E3 & E4); [done | done | simpl; by rewrite Hnet |].
    destruct (refresh_install _ w2) as [[e|] w3];
      destruct (refresh_install _ w2') as [[e'|] w3']; simpl in *; try done.
    + by injection E1 as <-.
    + by rewrite E2.
Qed.

(** [getKey] does not move the clock. *)
Lemma getKey_now kid (w : world) : now (snd (getKey kid w)) = now w.
Proof.
  destruct (time.Before (now w) (expiry (keyCache w))) eqn:Hfresh.
  - by rewrite getKey_fresh.
  - rewrite getKey_expired by done. cbv zeta.
    match goal with |- context [refresh_install ?r ?w2] =>
      pose proof (refresh_install_now r w2) as Hn;
      destruct (refresh_install r w2) as [[e|] w3] end; done.
Qed.

(** [verifyIDToken] past the algorithm and [kid] checks: the key the cache
    gives, then the verified parse and the checks on its claims. *)
Lemma verifyIDToken_with_kid tokenString projectID (w : world) token kid :
  jwt.ParseUnverified (C := firebaseClaims) (jwt.NewParser []) tokenString = Ok token ->
  jwt.Alg (jwt.Method token) = "RS256" ->
  jwt.Header token !! "kid" = Some (JStr kid) -> kid ≠ "" ->
  fst (verifyIDToken tokenString projectID w)
  = match fst (getKey kid w) with
    | Err err => Err (ErrKey err)
    | Ok pubKey =>
        match jwt.ParseWithClaims (C := firebaseClaims)
                (jwt.NewParser [jwt.WithValidMethods ["RS256"]])
                (now w) tokenString (fun _ => Ok pubKey) with
        | Err err => Err (ErrVerificationFailed err)
        | Ok verifiedToken =>
            let rc := RegisteredClaims (jwt.TokenClaims verifiedToken) in
            let expectedIssuer :=
              String.append "https://securetoken.google.com/" projectID in
            if negb (jwt.Valid verifiedToken) then Err ErrInvalidClaims
            else if String.eqb (jwt.Subject rc) "" then Err ErrSubjectEmpty
            else if negb (String.eqb (jwt.Issuer rc) expectedIssuer) then
              Err (ErrInvalidIssuer (jwt.Issuer rc) expectedIssuer)
            else if negb (existsb (fun aud => String.eqb aud projectID) (jwt.Audience rc))
            then Err (ErrInvalidAudience (jwt.Audience rc) projectID)
            else Ok (identityOf (jwt.TokenClaims verifiedToken))
        end
    end.
Proof.
  intros Hpu Halg Hkid Hne. apply String.eqb_neq in Hne.
  unfold verifyIDToken, bind. rewrite Hpu, Halg, Hkid, Hne.
  change (negb (String.eqb "RS256" "RS256")) with false. cbv iota.
  unfold emit at 1. cbv beta iota.
  set (w1 := {| keyCache := keyCache w; now := now w; network := network w;
                trace := Call_verifyIDToken tokenString projectID :: trace w |}).
  destruct (getKey_trace_irrelevant kid w1 w) as (E1 & _); [done..|].
  pose proof (getKey_now kid w1) as Hnow.
  rewrite <- E1. destruct (getKey kid w1) as [[pubKey|err] w2]; [|done].
  cbn [fst snd] in *. unfold emit, time_Now. cbv beta iota. cbn [now snd fst].
  rewrite Hnow. cbn [now].
  destruct (jwt.ParseWithClaims _ _ _ _) as [verified|err]; [|done].
  cbv zeta.
  destruct (negb (jwt.Valid verified)); [done|].
  destruct (String.eqb (jwt.Subject _) ""); [done|].
  destruct (negb (String.eqb (jwt.Issuer _) _)); [done|].
  by destruct (negb (existsb _ _)).
Qed.

End Acceptance.

(** X3.  The acceptance criterion of [verifyIDToken].  It returns an identity
    exactly when the token has three segments that decode, its header
    declares RS256 and a non-empty [kid], the key cache answers with a key
    for that [kid] (from the map while it is valid, after a refresh
    otherwise), the signature over the first two segments verifies under
    that key, the expiry, where the token states one, lies in the future,
    the issue and not-before times, where stated, do not, the subject is
    not empty, the issuer is the project's and the project is one of the
    audiences; the identity is then the projection of the claims.  A
    token that states no expiry passes the temporal check. *)
Theorem verifyIDToken_accepts_iff `{GoLibs}
    (tokenString projectID : string) (w : world) (u : userClaims) :
  fst (verifyIDToken tokenString projectID w) = Ok u ↔
  ∃ header members claims signingString signature kid key,
    parsesAs tokenString header members claims signingString signature ∧
    header !! "alg" = Some (JStr "RS256") ∧
    header !! "kid" = Some (JStr kid) ∧ kid ≠ "" ∧
    fst (getKey kid w) = Ok key ∧
    crypto_Verify "RS256" key signingString signature = true ∧
    (∀ exp, jwt.ExpiresAt (RegisteredClaims claims) = Some exp -> now w < exp) ∧
    (∀ iat, jwt.IssuedAt (RegisteredClaims claims) = Some iat -> iat ≤ now w) ∧
    (∀ nbf, jwt.NotBefore (RegisteredClaims claims) = Some nbf -> nbf ≤ now w) ∧
    jwt.Subject (RegisteredClaims claims) ≠ "" ∧
    jwt.Issuer (RegisteredClaims claims)
    = String.append "https://securetoken.google.com/" projectID ∧
    projectID ∈ jwt.Audience (RegisteredClaims claims) ∧
    u = identityOf claims.
Proof.
  split.
  - intros Hok.
    assert (Hpre : ∃ token kid,
      jwt.ParseUnverified (C := firebaseClaims) (jwt.NewParser []) tokenString = Ok token ∧
      jwt.Alg (jwt.Method token) = "RS256" ∧
      jwt.Header token !! "kid" = Some (JStr kid) ∧ kid ≠ "").
    { revert Hok. unfold verifyIDToken, bind. simpl.
      destruct (jwt.ParseUnverified _ _) as [token|e]; [|discriminate].
      destruct (String.eqb (jwt.Alg (jwt.Method token)) "RS256") eqn:Ea; [|discriminate].
      destruct (jwt.Header token !! "kid") as [[| | |kid| |]|] eqn:Ek; try discriminate.
      destruct (String.eqb kid "") eqn:Ekid; [discriminate|]. intros _.
      exists token, kid. apply String.eqb_eq in Ea. apply String.eqb_neq in Ekid. done. }
    destruct Hpre as (token & kid & Hpu & Halg & Hkid & Hne).
    rewrite (verifyIDToken_with_kid _ _ _ _ _ Hpu Halg Hkid Hne) in Hok.
    destruct (fst (getKey kid w)) as [key|err] eqn:Hkey; [|discriminate].
    destruct (jwt.ParseWithClaims _ _ _ _) as [verified|err] eqn:Hpw; [|discriminate].
    apply ParseWithClaims_RS256_inv in Hpw
      as (token' & p0 & p1 & p2 & Hpu' & Hs & Hclaims & _ & Hsig & Hvalid).
    rewrite Hpu in Hpu'. injection Hpu' as <-.
    cbv zeta in Hok. rewrite Hclaims in Hok.
    destruct (negb (jwt.Valid verified)); [discriminate|].
    destruct (String.eqb (jwt.Subject _) "") eqn:Esub; [discriminate|].
    destruct (String.eqb (jwt.Issuer _) _) eqn:Eiss; [|discriminate].
    destruct (existsb _ _) eqn:Eaud; [|discriminate].
    simpl in Hok. injection Hok as <-.
    apply ParseUnverified_Ok_inv in Hpu
      as (q0 & q1 & q2 & header & members & alg & Hs' & Hh & Hc & Hu & Ha & Hm & Hhd).
    rewrite Hs in Hs'. injection Hs' as <- <- <-.
    apply GetSigningMethod_Alg in Hm. rewrite Halg in Hm. subst alg.
    apply RegisteredClaims_Valid_None_inv in Hvalid as (Hexp & Hiat & Hnbf).
    exists header, members, (jwt.TokenClaims token),
      (String.append p0 (String "."%char p1)), p2, kid, key.
    split; [by exists p0, p1|].
    rewrite <- Hhd. repeat split; try done.
    + by rewrite Hhd.
    + by apply String.eqb_neq.
    + by apply String.eqb_eq.
    + apply existsb_exists in Eaud as (aud & Hin & Heq).
      apply String.eqb_eq in Heq as ->. by apply list_elem_of_In.
  - intros (header & members & claims & signingString & signature & kid & key
            & Hparse & Halg & Hkid & Hne & Hkey & Hsig & Hexp & Hiat & Hnbf
            & Hsub & Hiss & Haud & ->).
    assert (Hvalid : jwt.RegisteredClaims_Valid (now w) (RegisteredClaims claims) = None)
      by by apply RegisteredClaims_Valid_pass.
    pose proof (ParseWithClaims_pass _ _ _ _ _ _ key (now w) Hparse Halg Hsig Hvalid) as Hpw.
    destruct Hparse as (p0 & p1 & Hs & Hh & Hc & Hu & ->).
    pose proof (ParseUnverified_Ok_intro (H0 := firebaseClaims_Claims) (jwt.NewParser [])
                  tokenString p0 p1 signature header members claims jwt.RS256
                  Hs Hh Hc Hu Halg) as Hpu.
    rewrite (verifyIDToken_with_kid _ _ _ _ kid Hpu eq_refl Hkid Hne).
    rewrite Hkey, Hpw. cbn [jwt.Valid jwt.TokenClaims negb]. cbv zeta.
    apply String.eqb_neq in Hsub. rewrite Hsub, Hiss, String.eqb_refl. cbn [negb].
    assert (Hfound : existsb (fun aud => String.eqb aud projectID)
                       (jwt.Audience (RegisteredClaims claims)) = true).
    { apply existsb_exists. exists projectID. split; [|apply String.eqb_refl].
      by apply list_elem_of_In. }
    by rewrite Hfound.
Qed.

(** The signed token of the project's tests against the cache that holds
    its key: it is accepted, so it meets the criterion. *)
Lemma verifyIDToken_accepts_iff_witness :
  ∃ claims,
    "test-project-123" ∈ jwt.Audience (RegisteredClaims claims) ∧
    jwt.Issuer (RegisteredClaims claims)
    = "https://securetoken.google.com/test-project-123" ∧
    identityOf claims
    = {| UID := "user-uid-abc123"; Email := "jane@example.com"; Name := "Jane Doe";
         Picture := "https://lh3.googleusercontent.com/a/photo" |}.
Proof.
  destruct (proj1 (verifyIDToken_accepts_iff (H := Vectors.libs)
                     (Vectors.token Vectors.hRS256 Vectors.cValid Vectors.sigValid)
                     "test-project-123" (Vectors.world0 Vectors.warmCache [])
                     {| UID := "user-uid-abc123"; Email := "jane@example.com";
                        Name := "Jane Doe";
                        Picture := "https://lh3.googleusercontent.com/a/photo" |}))
    as (header & members & claims & signingString & signature & kid & key
        & _ & _ & _ & _ & _ & _ & _ & _ & _ & _ & Hiss & Haud & Hu).
  - vm_compute. reflexivity.
  - exists claims. split; [exact Haud|]. split; [exact Hiss|]. symmetry. exact Hu.
Defined.

(** ** The key cache: a refresh that succeeds *)

Lemma fetches_app (l1 l2 : list event) : fetches (l1 ++ l2) = (fetches l1 + fetches l2)%nat.
Proof. unfold fetches. by rewrite List.filter_app, length_app. Qed.

Lemma fetches_none (l : list event) :
  Forall (fun e => isHTTPGet e = false) l -> fetches l = 0%nat.
Proof.
  induction 1 as [|e l He _ IH]; [done|]. by rewrite fetches_cons, He.
Qed.

(** The requests of a run, counted on the trace it leaves. *)
Lemma fetches_events_of {A : Type} (P : event -> Prop) (m : M A) (w : world) :
  emits P m ->
  fetches (trace (snd (m w))) = (fetches (events_of m w) + fetches (trace w))%nat.
Proof.
  intros Hm. destruct (Hm w) as (new & E & _).
  unfold events_of. rewrite (emitted_app _ _ _ E), E. apply fetches_app.
Qed.


Section Refreshed.
Context `{GoLibs}.

(** A certificate loop over certificates that all hold RSA keys goes
    through. *)
Lemma parseCerts_total certs acc :
  (∀ kid certPEM, (kid, certPEM) ∈ certs -> is_Some (keyOfPEM certPEM)) ->
  ∃ newKeys, parseCerts certs acc = Ok newKeys.
Proof.
  revert acc. induction certs as [|[k0 p0] rest IH]; intros acc Hall; [by eexists|].
  rewrite parseCerts_cons.
  destruct (Hall k0 p0) as [key0 ->]; [apply list_elem_of_here|].
  apply IH. intros kid certPEM Hin. apply (Hall kid certPEM). by apply list_elem_of_further.
Qed.

(** What [refresh_install] does with an answer in order. *)
Lemma refresh_install_run resp body certMap (w : world) :
  http.Body resp = Ok body -> http.StatusCode resp = http.StatusOK ->
  json_Unmarshal_certMap body = Some certMap ->
  (∀ kid certPEM, certMap !! kid = Some certPEM -> is_Some (keyOfPEM certPEM)) ->
  ∃ newKeys,
    (∀ kid, newKeys !! kid = certMap !! kid ≫= keyOfPEM) ∧
    refresh_install (Ok resp) w
    = (None,
       {| keyCache :=
            {| keys := newKeys;
               expiry := time.Add (now w)
                 (time.Seconds
                    (parseMaxAge (http.Get (http.RespHeader resp) "Cache-Control"))) |};
          now := now w; network := network w;
          trace := Log "INFO" "refreshed Google public keys"
                     [("count", LInt (Z.of_nat (size newKeys)));
                      ("expires_in_seconds",
                       LInt (parseMaxAge
                               (http.Get (http.RespHeader resp) "Cache-Control")))]
                     :: trace w |}).
Proof.
  intros Hb Hs Hj Hall.
  destruct (parseCerts_total (map_to_list certMap) ∅) as [newKeys Hp].
  { intros kid certPEM Hin. apply elem_of_map_to_list in Hin. by eapply Hall. }
  exists newKeys. split; [by apply parseCerts_map|].
  unfold refresh_install, bind, ret. by rewrite Hb, Hs, Hj, Hp.
Qed.

(** [getKey] against an expired cache and an answer in order, as an
    equation. *)
Lemma getKey_refreshed kid (w : world) resp rest body certMap :
  time.Before (now w) (expiry (keyCache w)) = false ->
  network w = Ok resp :: rest ->
  http.Body resp = Ok body -> http.StatusCode resp = http.StatusOK ->
  json_Unmarshal_certMap body = Some certMap ->
  (∀ k certPEM, certMap !! k = Some certPEM -> is_Some (keyOfPEM certPEM)) ->
  ∃ newKeys,
    (∀ k, newKeys !! k = certMap !! k ≫= keyOfPEM) ∧
    getKey kid w
    = (match newKeys !! kid with
       | Some key => Ok key
       | None => Err (ErrNotFoundAfterRefresh kid)
       end,
       {| keyCache :=
            {| keys := newKeys;
               expiry := time.Add (now w)
                 (time.Seconds
                    (parseMaxAge (http.Get (http.RespHeader resp) "Cache-Control"))) |};
          now := now w; network := rest;
          trace := Log "INFO" "refreshed Google public keys"
                     [("count", LInt (Z.of_nat (size newKeys)));
                      ("expires_in_seconds",
                       LInt (parseMaxAge
                               (http.Get (http.RespHeader resp) "Cache-Control")))]
                     :: HTTPGet googleCertsURL :: Call_refresh :: Call_getKey kid
                     :: trace w |}).
Proof.
  intros Hexp Hnet Hb Hs Hj Hall.
  assert (Hnext : nextFetch w = Ok resp) by (unfold nextFetch; by rewrite Hnet).
  pose proof (getKey_expired kid w Hexp) as Hrun. cbv zeta in Hrun.
  rewrite Hnext in Hrun.
  destruct (refresh_install_run resp body certMap
              {| keyCache := keyCache w; now := now w; network := tl (network w);
                 trace := HTTPGet googleCertsURL :: Call_refresh :: Call_getKey kid
                            :: trace w |} Hb Hs Hj Hall) as (newKeys & Hkeys & Hinst).
  rewrite Hinst in Hrun. cbn [now network trace keyCache] in Hrun.
  exists newKeys. split; [done|]. rewrite Hrun, Hnet. done.
Qed.

Lemma refresh_install_no_fetch r : emits (fun e => isHTTPGet e = false) (refresh_install r).
Proof. unfold refresh_install. repeat emits_step. Qed.

Lemma getKey_emits k : emits (fun _ => True) (getKey k).
Proof. eapply emits_weaken; [|apply getKey_quiet]. done. Qed.

End Refreshed.

(** X4.  [getKey] against an expired (or never filled) cache, when the
    certificate endpoint answers 200 with a JSON object of certificates
    that all hold RSA keys.  One request goes out, to the certificate URL;
    the key map becomes the map of the keys received, whatever it held
    before, and expires [time.Duration(maxAge) * time.Second] after now,
    the product being taken in 64 bits, where [maxAge] is what the
    [Cache-Control] header of the answer gives; the answer is the
    key of [kid] among the keys received, or the not-found-after-refresh
    error when the response does not name [kid]. *)
Theorem getKey_refresh_then_lookup `{GoLibs} (kid : string) (w : world)
    (resp : http.Response) (rest : list (result http.Response string))
    (body : string) (certMap : gmap string string) :
  time.Before (now w) (expiry (keyCache w)) = false ->
  network w = Ok resp :: rest ->
  http.Body resp = Ok body -> http.StatusCode resp = http.StatusOK ->
  json_Unmarshal_certMap body = Some certMap ->
  (∀ k certPEM, certMap !! k = Some certPEM -> is_Some (keyOfPEM certPEM)) ->
  let maxAge := parseMaxAge (http.Get (http.RespHeader resp) "Cache-Control") in
  let w' := snd (getKey kid w) in
  fst (getKey kid w)
  = match certMap !! kid ≫= keyOfPEM with
    | Some key => Ok key
    | None => Err (ErrNotFoundAfterRefresh kid)
    end ∧
  (∀ k, keys (keyCache w') !! k = certMap !! k ≫= keyOfPEM) ∧
  expiry (keyCache w') = time.Add (now w) (time.Seconds maxAge) ∧
  network w' = rest ∧ now w' = now w ∧
  events_of (getKey kid) w
  = [Log "INFO" "refreshed Google public keys"
       [("count", LInt (Z.of_nat (size (keys (keyCache w')))));
        ("expires_in_seconds", LInt maxAge)];
     HTTPGet googleCertsURL; Call_refresh; Call_getKey kid].
Proof.
  intros Hexp Hnet Hb Hs Hj Hall maxAge w'.
  destruct (getKey_refreshed kid w resp rest body certMap Hexp Hnet Hb Hs Hj Hall)
    as (newKeys & Hkeys & Hrun).
  subst w'. unfold events_of. rewrite Hrun. cbn [fst snd keyCache keys expiry network now].
  split; [|split; [done|split; [done|split; [done|split; [done|]]]]].
  - by rewrite Hkeys.
  - by apply emitted_app.
Qed.

(** The empty cache of a fresh process and Google's answer: the key named
    by the response is returned, a key it does not name is not found. *)
Lemma getKey_refresh_then_lookup_witness :
  let w := Vectors.world0 emptyCache [Ok Vectors.goodResponse] in
  fst (getKey (H := Vectors.libs) "key-valid" w) = Ok Vectors.keyValid ∧
  fst (getKey (H := Vectors.libs) "key-rotated-out" w)
  = Err (ErrNotFoundAfterRefresh "key-rotated-out") ∧
  expiry (keyCache (snd (getKey (H := Vectors.libs) "key-valid" w)))
  = Vectors.t0 + 19845 * time.Second.
Proof.
  intros w.
  assert (Hall : ∀ k certPEM,
            ({[ "key-valid" := Vectors.pemRSA ]} : gmap string string) !! k = Some certPEM ->
            is_Some (keyOfPEM (H := Vectors.libs) certPEM)).
  { intros k certPEM Hk. apply lookup_singleton_Some in Hk as [_ <-]. by eexists. }
  split; [|split].
  - refine (proj1 (getKey_refresh_then_lookup (H := Vectors.libs) "key-valid" w
              Vectors.goodResponse [] Vectors.bodyOneRSA {[ "key-valid" := Vectors.pemRSA ]}
              _ _ _ _ _ Hall)); vm_compute; reflexivity.
  - refine (proj1 (getKey_refresh_then_lookup (H := Vectors.libs) "key-rotated-out" w
              Vectors.goodResponse [] Vectors.bodyOneRSA {[ "key-valid" := Vectors.pemRSA ]}
              _ _ _ _ _ Hall)); vm_compute; reflexivity.
  - refine (proj1 (proj2 (proj2 (getKey_refresh_then_lookup (H := Vectors.libs) "key-valid" w
              Vectors.goodResponse [] Vectors.bodyOneRSA {[ "key-valid" := Vectors.pemRSA ]}
              _ _ _ _ _ Hall)))); vm_compute; reflexivity.
Defined.



(** ** The handler of [GET /api/me]: requests, responses, records *)

Section HandlerFacts.
Context `{GoLibs}.

Lemma getKey_fetches kid (w : world) :
  fetches (events_of (getKey kid) w)
  = if time.Before (now w) (expiry (keyCache w)) then 0%nat else 1%nat.
Proof.
  destruct (time.Before (now w) (expiry (keyCache w))) eqn:Hfresh.
  - unfold events_of. rewrite getKey_fresh by done.
    by rewrite (emitted_app w _ [Call_getKey kid]).
  - pose proof (getKey_expired kid w Hfresh) as Hrun. cbv zeta in Hrun.
    unfold events_of.
    match type of Hrun with context [refresh_install ?r ?w2] =>
      destruct (refresh_install_no_fetch r w2) as (new & E & F);
      destruct (refresh_install r w2) as [err w3] end.
    simpl in E.
    assert (Hw3 : snd (getKey kid w) = w3) by (rewrite Hrun; by destruct err).
    rewrite Hw3.
    rewrite (emitted_app w w3
               (new ++ [HTTPGet googleCertsURL; Call_refresh; Call_getKey kid])).
    + by rewrite fetches_app, (fetches_none _ F).
    + by rewrite E, <- app_assoc.
Qed.

(** A valid cache is left alone, and so is the network. *)
Lemma getKey_fresh_state kid (w : world) :
  time.Before (now w) (expiry (keyCache w)) = true ->
  keyCache (snd (getKey kid w)) = keyCache w ∧ network (snd (getKey kid w)) = network w.
Proof. intros Hfresh. by rewrite getKey_fresh. Qed.

(** Every request [getKey] sends goes to the certificate URL. *)
Lemma getKey_pinned kid :
  emits (fun e => ∀ url, e = HTTPGet url -> url = googleCertsURL) (getKey kid).
Proof.
  unfold getKey, refresh, refresh_install.
  repeat emits_step; try (apply emits_emit; by intros url [=]);
    try (apply emits_http_Get; by intros url [= <-]);
    try (apply emits_slog; by intros url [=]).
Qed.

(** [verifyIDToken] is the record of its entry, then possibly [getKey],
    then possibly the record of the verified parse. *)
Lemma verifyIDToken_shape tokenString projectID (w : world) :
  let w1 := snd (emit (Call_verifyIDToken tokenString projectID) w) in
  snd (verifyIDToken tokenString projectID w) = w1 ∨
  ∃ kid, snd (verifyIDToken tokenString projectID w) = snd (getKey kid w1) ∨
         snd (verifyIDToken tokenString projectID w)
         = snd (emit (Call_ParseWithClaims tokenString) (snd (getKey kid w1))).
Proof.
  intros w1. unfold verifyIDToken, bind. fold w1. cbn [emit fst snd].
  change (snd (emit (Call_verifyIDToken tokenString projectID) w)) with w1.
  destruct (jwt.ParseUnverified _ _) as [token|e]; [|by left].
  destruct (negb _); [by left|].
  destruct (jwt.Header token !! "kid") as [[| | |kid| |]|]; try by left.
  destruct (String.eqb kid ""); [by left|].
  right. exists kid.
  destruct (getKey kid _) as [[pubKey|err] w2]; [|by left].
  right. unfold time_Now. cbn [fst snd].
  destruct (jwt.ParseWithClaims _ _ _ _) as [verified|err]; [|done].
  destruct (negb _); [done|]. destruct (String.eqb _ _); [done|].
  destruct (negb _); [done|]. by destruct (negb _).
Qed.

Lemma verifyIDToken_emits tokenString projectID :
  emits (fun _ => True) (verifyIDToken tokenString projectID).
Proof.
  intros w. destruct (verifyIDToken_trace tokenString projectID w) as (new & E & _).
  exists (new ++ [Call_verifyIDToken tokenString projectID]).
  split; [by rewrite E, <- app_assoc | by apply Forall_true].
Qed.

Lemma verifyIDToken_fetches tokenString projectID (w : world) :
  fetches (trace (snd (verifyIDToken tokenString projectID w)))
  = (fetches (trace w) +
     if time.Before (now w) (expiry (keyCache w)) then 0
     else fetches (events_of (verifyIDToken tokenString projectID) w))%nat ∧
  (fetches (events_of (verifyIDToken tokenString projectID) w) ≤ 1)%nat ∧
  (time.Before (now w) (expiry (keyCache w)) = true ->
   keyCache (snd (verifyIDToken tokenString projectID w)) = keyCache w ∧
   network (snd (verifyIDToken tokenString projectID w)) = network w).
Proof.
  pose proof (fetches_events_of _ _ w (verifyIDToken_emits tokenString projectID)) as Hf.
  set (w1 := snd (emit (Call_verifyIDToken tokenString projectID) w)).
  assert (Hk : ∀ kid,
    fetches (trace (snd (getKey kid w1)))
    = (fetches (trace w) + if time.Before (now w) (expiry (keyCache w)) then 0 else 1)%nat).
  { intros kid.
    rewrite (fetches_events_of _ _ w1 (getKey_emits kid)), getKey_fetches.
    subst w1. cbn [emit snd trace now keyCache]. rewrite fetches_cons. cbn [isHTTPGet]. lia. }
  assert (Hstate : ∀ kid, time.Before (now w) (expiry (keyCache w)) = true ->
    keyCache (snd (getKey kid w1)) = keyCache w ∧ network (snd (getKey kid w1)) = network w).
  { intros kid Hfresh. by apply (getKey_fresh_state kid w1). }
  destruct (verifyIDToken_shape tokenString projectID w) as [E|[kid [E|E]]];
    fold w1 in E; rewrite E in Hf |- *.
  - subst w1. cbn [emit snd trace keyCache network] in *. rewrite fetches_cons in Hf |- *.
    cbn [isHTTPGet] in *. split; [|split; [lia|done]].
    destruct (time.Before _ _); lia.
  - specialize (Hk kid). specialize (Hstate kid). rewrite Hk in Hf |- *.
    split; [|split; [|done]]; destruct (time.Before _ _); lia.
  - specialize (Hk kid). specialize (Hstate kid).
    cbn [emit snd trace keyCache network] in *. rewrite fetches_cons in Hf |- *.
    cbn [isHTTPGet] in *. rewrite Hk in Hf |- *.
    split; [|split; [|done]]; destruct (time.Before _ _); lia.
Qed.

Lemma verifyIDToken_pinned tokenString projectID :
  emits (fun e => ∀ url, e = HTTPGet url -> url = googleCertsURL)
    (verifyIDToken tokenString projectID).
Proof.
  unfold verifyIDToken.
  repeat emits_step; try (apply emits_emit; by intros url [=]).
  apply getKey_pinned.
Qed.

Lemma verifyEmulatorToken_pinned tokenString projectID :
  emits (fun e => ∀ url, e = HTTPGet url -> url = googleCertsURL)
    (verifyEmulatorToken tokenString projectID).
Proof.
  unfold verifyEmulatorToken.
  repeat emits_step; try (apply emits_emit; by intros url [=]).
Qed.

Lemma apiMe_pinned cfg w0 r :
  emits (fun e => ∀ url, e = HTTPGet url -> url = googleCertsURL) (newMux_apiMe cfg w0 r).
Proof.
  unfold newMux_apiMe.
  repeat emits_step; try (apply emits_slog; by intros url [=]).
  - apply verifyEmulatorToken_pinned.
  - apply verifyIDToken_pinned.
Qed.

End HandlerFacts.

(** X6.  Outbound traffic of [GET /api/me].  Whatever the request and the
    configuration, the handler sends at most one request, and only to the
    certificate URL of Google: nothing in a token (a [kid], a header member)
    names a host the server would contact.  A request is sent only in
    production mode against an expired cache; in emulator mode, and in
    production mode while the cache is valid, the handler leaves key cache
    and network untouched. *)
Theorem apiMe_fetches_only_the_certificates `{GoLibs}
    (cfg : firebaseConfig) (w0 : ResponseWriter) (r : http.Request) (w : world) :
  let evs := events_of (newMux_apiMe cfg w0 r) w in
  let w' := snd (newMux_apiMe cfg w0 r w) in
  let mayFetch :=
    String.eqb (AuthEmulatorHost cfg) ""
    && negb (time.Before (now w) (expiry (keyCache w)))
    && strings.HasPrefix (http.Get (http.ReqHeader r) "Authorization") "Bearer " in
  Forall (fun e => ∀ url, e = HTTPGet url -> url = googleCertsURL) evs ∧
  (fetches evs ≤ if mayFetch then 1 else 0)%nat ∧
  (if mayFetch then True else keyCache w' = keyCache w ∧ network w' = network w).
Proof.
  intros evs w' mayFetch.
  split.
  { destruct (apiMe_pinned cfg w0 r w) as (new & E & F).
    subst evs. unfold events_of. by rewrite (emitted_app _ _ _ E). }
  destruct (strings.HasPrefix (http.Get (http.ReqHeader r) "Authorization") "Bearer ")
    eqn:Hp.
  2:{ destruct (apiMe_rejects cfg w0 r w Hp) as [E _].
      subst evs w' mayFetch. rewrite andb_false_r.
      rewrite events_of_unchanged; rewrite E; done. }
  subst evs w'. unfold events_of.
  rewrite (apiMe_verifies _ _ _ _ Hp). cbv zeta.
  set (tok := strings.TrimPrefix _ _).
  subst mayFetch. rewrite andb_true_r. unfold selectedVerifier.
  destruct (String.eqb (AuthEmulatorHost cfg) "") eqn:Ehost; cbn [andb].
  - destruct (verifyIDToken_fetches tok (ProjectID cfg) w) as (Hf & Hle & Hstate).
    pose proof (fetches_events_of _ _ w (verifyIDToken_emits tok (ProjectID cfg))) as Hev.
    destruct (verifyIDToken_emits tok (ProjectID cfg) w) as (new & E & _).
    unfold events_of in *. rewrite (emitted_app _ _ _ E) in *.
    destruct (verifyIDToken tok (ProjectID cfg) w) as [[user|err] w1]; cbn [fst snd] in *.
    + rewrite (emitted_app _ _ _ E).
      destruct (time.Before (now w) (expiry (keyCache w))); cbn [negb].
      * split; [lia | by apply Hstate].
      * done.
    + rewrite (emitted_app w _ (Log "WARN" "token verification failed"
                                  [("error", LErr err)] :: new))
        by (simpl; by rewrite E).
      rewrite fetches_cons. cbn [isHTTPGet].
      destruct (time.Before (now w) (expiry (keyCache w))); cbn [negb].
      * split; [lia | by apply Hstate].
      * done.
  - pose proof (verifyEmulatorToken_world tok (ProjectID cfg) w) as E.
    destruct (verifyEmulatorToken tok (ProjectID cfg) w) as [[user|err] w1];
      cbn [fst snd] in *; rewrite E; cbn [emit slog snd trace keyCache network].
    + by rewrite (emitted_app w _ [Call_verifyEmulatorToken tok (ProjectID cfg)]).
    + by rewrite (emitted_app w _
                    [Log "WARN" "token verification failed" [("error", LErr err)];
                     Call_verifyEmulatorToken tok (ProjectID cfg)]).
Qed.

(** X7.  A failed request tells the client nothing about why it failed.  The
    answer of [GET /api/me] is either the identity with status 200 or the
    one UNAUTHENTICATED response with status 401, byte for byte the same
    for a missing header, a wrong scheme and every error of either
    verifier; in both cases one JSON value with the content type
    [application/json].  The error of the verifier goes to the log, in one
    WARN record, the last thing the handler does. *)
Theorem apiMe_failure_is_uniform `{GoLibs}
    (cfg : firebaseConfig) (r : http.Request) (w : world) :
  let authHeader := http.Get (http.ReqHeader r) "Authorization" in
  let tokenString := strings.TrimPrefix authHeader "Bearer " in
  let verified :=
    match selectedVerifier cfg with
    | EmulatorVerifier => verifyEmulatorToken tokenString (ProjectID cfg) w
    | ProductionVerifier => verifyIDToken tokenString (ProjectID cfg) w
    end in
  let resp := fst (newMux_apiMe cfg newResponseWriter r w) in
  let w' := snd (newMux_apiMe cfg newResponseWriter r w) in
  Header resp !! "Content-Type" = Some ["application/json"] ∧
  length (Written resp) = 1%nat ∧
  (if strings.HasPrefix authHeader "Bearer " then
     match fst verified with
     | Ok user =>
         resp = writeJSON newResponseWriter http.StatusOK user ∧
         Status resp = Some 200 ∧ w' = snd verified
     | Err err =>
         resp = unauthenticated newResponseWriter ∧
         trace w' = Log "WARN" "token verification failed" [("error", LErr err)]
                      :: trace (snd verified)
     end
   else resp = unauthenticated newResponseWriter ∧ w' = w) ∧
  Status (unauthenticated newResponseWriter) = Some 401.
Proof.
  intros authHeader tokenString verified resp w'.
  destruct (strings.HasPrefix authHeader "Bearer ") eqn:Hp.
  - subst resp w'. rewrite (apiMe_verifies _ _ _ _ Hp). cbv zeta.
    fold authHeader tokenString verified.
    destruct verified as [[user|err] w1]; cbn [fst snd]; by repeat split.
  - destruct (apiMe_rejects cfg newResponseWriter r w Hp) as [E _].
    subst resp w'. rewrite E. by repeat split.
Qed.

(** X8.  The acceptance criterion of [verifyEmulatorToken].  It returns an
    identity exactly when the token has three segments that decode, its
    header names a signing method the jwt package knows, and the subject
    is not empty.  Nothing else is looked at: not the signature, not the
    expiry or any other date, not the issuer, not the audience; the project
    ID it is given plays no part, nor does the state of the process, which
    it leaves as it found it but for the record of the call. *)
Theorem verifyEmulatorToken_accepts_iff `{GoLibs}
    (tokenString projectID : string) (w : world) (u : userClaims) :
  (fst (verifyEmulatorToken tokenString projectID w) = Ok u ↔
   ∃ header members claims signingString signature alg,
     parsesAs tokenString header members claims signingString signature ∧
     header !! "alg" = Some (JStr alg) ∧
     is_Some (jwt.GetSigningMethod alg) ∧
     jwt.Subject (RegisteredClaims claims) ≠ "" ∧
     u = identityOf claims) ∧
  (∀ projectID' w',
     fst (verifyEmulatorToken tokenString projectID' w')
     = fst (verifyEmulatorToken tokenString projectID w)) ∧
  keyCache (snd (verifyEmulatorToken tokenString projectID w)) = keyCache w ∧
  network (snd (verifyEmulatorToken tokenString projectID w)) = network w ∧
  now (snd (verifyEmulatorToken tokenString projectID w)) = now w.
Proof.
  split; [|split].
  - rewrite verifyEmulatorToken_spec. split.
    + destruct (jwt.ParseUnverified _ _) as [token|e] eqn:Hpu; [|discriminate].
      destruct (String.eqb _ "") eqn:Esub; [discriminate|]. intros [= <-].
      apply ParseUnverified_Ok_inv in Hpu
        as (p0 & p1 & p2 & header & members & alg & Hs & Hh & Hc & Hu & Ha & Hm & _).
      exists header, members, (jwt.TokenClaims token),
        (String.append p0 (String "."%char p1)), p2, alg.
      split; [by exists p0, p1|]. split; [done|]. split; [by eexists|].
      split; [by apply String.eqb_neq | done].
    + intros (header & members & claims & signingString & signature & alg
              & (p0 & p1 & Hs & Hh & Hc & Hu & _) & Ha & [m Hm] & Hsub & ->).
      apply GetSigningMethod_Alg in Hm as <-.
      rewrite (ParseUnverified_Ok_intro (H0 := firebaseClaims_Claims) (jwt.NewParser [])
                 tokenString p0 p1 signature header members claims m Hs Hh Hc Hu Ha).
      cbn [jwt.TokenClaims]. apply String.eqb_neq in Hsub. by rewrite Hsub.
  - intros projectID' w'. by rewrite !verifyEmulatorToken_spec.
  - by rewrite verifyEmulatorToken_world.
Qed.

(** ** Concurrent callers: the lock discipline *)

Lemma readersOf_insert (l : list goroutine) (i : nat) (g g' : goroutine) :
  l !! i = Some g ->
  (readersOf (<[i := g']> l) + (if holdsR (at_pc g) then 1 else 0)
   = readersOf l + (if holdsR (at_pc g') then 1 else 0))%nat.
Proof.
  unfold readersOf. revert i. induction l as [|x l IH]; intros [|i] Hi; try done.
  - simpl in Hi. injection Hi as ->. simpl.
    destruct (holdsR (at_pc g)), (holdsR (at_pc g')); simpl; lia.
  - simpl in Hi. specialize (IH i Hi). simpl.
    destruct (holdsR (at_pc x)); simpl; lia.
Qed.

Lemma readersOf_zero (l : list goroutine) :
  readersOf l = 0%nat -> ∀ j g, l !! j = Some g -> holdsR (at_pc g) = false.
Proof.
  unfold readersOf. induction l as [|x l IH]; intros Hz [|j] g Hj; try done.
  - simpl in Hj. injection Hj as ->. simpl in Hz.
    by destruct (holdsR (at_pc g)).
  - simpl in Hj, Hz. destruct (holdsR (at_pc x)); [done|]. by eapply IH.
Qed.

Lemma readersOf_none (l : list goroutine) :
  (∀ j g, l !! j = Some g -> holdsR (at_pc g) = false) -> readersOf l = 0%nat.
Proof.
  unfold readersOf. induction l as [|x l IH]; intros Hall; [done|].
  simpl. rewrite (Hall 0%nat x eq_refl). apply IH.
  intros j g Hj. by apply (Hall (S j) g).
Qed.

Lemma distance_insert (s : system) (i : nat) (g g' : goroutine) w' m' :
  goroutines s !! i = Some g ->
  (distance (update s i w' m' g') + remaining (at_pc g)
   = distance s + remaining (at_pc g'))%nat.
Proof.
  unfold distance, update. cbn [goroutines].
  generalize (goroutines s). intros l. revert i.
  induction l as [|x l IH]; intros [|i] Hi; try done.
  - simpl in Hi. injection Hi as ->. cbn -[remaining]. lia.
  - simpl in Hi. specialize (IH i Hi). cbn -[remaining] in *.
    rewrite <- !Nat.add_assoc. f_equal. exact IH.
Qed.

Section Discipline.
Context `{GoLibs}.

(** A move of goroutine [i], when it is one. *)
Lemma perform_Run (s : system) (i : nat) :
  perform (Run i) s = s ∧
    (∀ g, goroutines s !! i = Some g -> step (shared s) (mu s) g = None) ∨
  ∃ g w' m' p',
    goroutines s !! i = Some g ∧ step (shared s) (mu s) g = Some (w', m', p') ∧
    perform (Run i) s = update s i w' m' {| kid := kid g; at_pc := p' |}.
Proof.
  unfold perform. destruct (goroutines s !! i) as [g|] eqn:Hi; [|by left].
  destruct (step (shared s) (mu s) g) as [[[w' m'] p']|] eqn:Hstep.
  - right. by exists g, w', m', p'.
  - left. split; [done|]. by intros g' [= <-].
Qed.

(** Every step brings its goroutine closer to its return. *)
Lemma step_remaining (w : world) (m : RWMutex) (g : goroutine) w' m' p' :
  step w m g = Some (w', m', p') -> (remaining p' < remaining (at_pc g))%nat.
Proof.
  unfold step. destruct (at_pc g) as [| |ret| | | |r|err| | |ret|ret]; simpl.
  - destruct (writer m); [done|]. intros [= _ _ <-]. simpl. lia.
  - destruct (time.Before _ _); intros [= _ _ <-]; simpl; lia.
  - intros [= _ _ <-]. destruct ret; simpl; lia.
  - destruct (_ || _); [done|]. intros [= _ _ <-]. simpl. lia.
  - destruct (time.Before _ _); intros [= _ _ <-]; simpl; lia.
  - destruct (http_Get _ _). intros [= _ _ <-]. simpl. lia.
  - destruct (refresh_install _ _). intros [= _ _ <-]. simpl. lia.
  - intros [= _ _ <-]. destruct err; simpl; lia.
  - destruct (writer m); [done|]. intros [= _ _ <-]. simpl. lia.
  - intros [= _ _ <-]. simpl. lia.
  - intros [= _ _ <-]. simpl. lia.
  - done.
Qed.

(** The mutex keeps count of the readers, and holds no reader while it is
    held for writing. *)
Lemma step_rwInv (s : system) i g w' m' p' :
  rwInv s -> goroutines s !! i = Some g ->
  step (shared s) (mu s) g = Some (w', m', p') ->
  rwInv (update s i w' m' {| kid := kid g; at_pc := p' |}).
Proof.
  intros [Hl Hr Hx] Hi Hstep.
  split; [by eapply step_lock| |].
  - pose proof (readersOf_insert (goroutines s) i g {| kid := kid g; at_pc := p' |} Hi)
      as Hcount.
    cbn [update goroutines mu at_pc] in *. revert Hstep Hcount. unfold step.
    destruct (at_pc g) as [| |ret| | | |r|err| | |ret|ret] eqn:Hpc; cbn [holdsR].
    + destruct (writer (mu s)); [done|]. intros [= _ <- <-]. simpl. lia.
    + destruct (time.Before _ _); intros [= _ <- <-]; simpl; lia.
    + intros [= _ <- <-]. destruct ret; simpl; lia.
    + destruct (_ || _) eqn:E; [done|]. intros [= _ <- <-]. simpl.
      apply orb_false_iff in E as [_ E]. apply negb_false_iff, Nat.eqb_eq in E. lia.
    + destruct (time.Before _ _); intros [= _ <- <-]; simpl; lia.
    + destruct (http_Get _ _). intros [= _ <- <-]. simpl. lia.
    + destruct (refresh_install _ _). intros [= _ <- <-]. simpl. lia.
    + intros [= _ <- <-]. destruct err; simpl; lia.
    + destruct (writer (mu s)); [done|]. intros [= _ <- <-]. simpl. lia.
    + intros [= _ <- <-]. simpl. lia.
    + intros [= _ <- <-]. simpl. lia.
    + done.
  - cbn [update mu]. revert Hstep. unfold step.
    destruct (at_pc g) as [| |ret| | | |r|err| | |ret|ret] eqn:Hpc.
    + destruct (writer (mu s)); [done|]. by intros [= _ <- _].
    + destruct (time.Before _ _); intros [= _ <- _]; done.
    + intros [= _ <- _]. simpl. intros Hw. by rewrite (Hx Hw).
    + destruct (_ || _); [done|]. by intros [= _ <- _].
    + destruct (time.Before _ _); intros [= _ <- _]; done.
    + destruct (http_Get _ _). by intros [= _ <- _].
    + destruct (refresh_install _ _). by intros [= _ <- _].
    + by intros [= _ <- _].
    + destruct (writer (mu s)); [done|]. by intros [= _ <- _].
    + by intros [= _ <- _].
    + intros [= _ <- _]. simpl. intros Hw. by rewrite (Hx Hw).
    + done.
Qed.

Lemma perform_rwInv (a : action) (s : system) : rwInv s -> rwInv (perform a s).
Proof.
  intros Hinv. destruct a as [i|d].
  - destruct (perform_Run s i) as [[-> _]|(g & w' & m' & p' & Hi & Hstep & ->)]; [done|].
    by apply step_rwInv.
  - by destruct Hinv.
Qed.

Lemma exec_rwInv (schedule : list action) (s : system) :
  rwInv s -> rwInv (exec schedule s).
Proof.
  revert s. induction schedule as [|a schedule IH]; intros s Hinv; [done|].
  simpl. by apply IH, perform_rwInv.
Qed.

Lemma spawn_entry (w : world) (kids : list string) j g :
  goroutines (spawn w kids) !! j = Some g -> at_pc g = G_RLock1.
Proof.
  unfold spawn. cbn [goroutines]. intros Hj.
  apply list_lookup_fmap_Some in Hj as (k & -> & _). done.
Qed.

Lemma spawn_rwInv (w : world) (kids : list string) : rwInv (spawn w kids).
Proof.
  split.
  - left. split; [done|]. intros j g Hj. by rewrite (spawn_entry _ _ _ _ Hj).
  - symmetry. apply readersOf_none. intros j g Hj. by rewrite (spawn_entry _ _ _ _ Hj).
  - done.
Qed.

End Discipline.

(** X9.  The lock discipline of [getKey] and [refresh], for every number of
    callers, every schedule and every behaviour of the network.  At most
    one goroutine is inside [refresh] (between [c.mu.Lock()] and the
    deferred [c.mu.Unlock()]), and while one is, no goroutine is inside a
    read section of [getKey]: the key map and the expiry are never read
    while they are replaced.  The mutex counts exactly the goroutines that
    are inside a read section. *)
Theorem getKey_readers_exclude_the_writer `{GoLibs}
    (w : world) (kids : list string) (schedule : list action) :
  let s := exec schedule (spawn w kids) in
  (∀ i j g g', goroutines s !! i = Some g -> goroutines s !! j = Some g' ->
     holdsW (at_pc g) = true ->
     holdsR (at_pc g') = false ∧ (j ≠ i -> holdsW (at_pc g') = false)) ∧
  readers (mu s) = readersOf (goroutines s) ∧
  (writer (mu s) = true ↔
   ∃ i g, goroutines s !! i = Some g ∧ holdsW (at_pc g) = true).
Proof.
  intros s.
  assert (Hinv : rwInv s) by apply exec_rwInv, spawn_rwInv.
  destruct Hinv as [Hl Hr Hx]. split; [|split; [done|]].
  - intros i j g g' Hi Hj Hh.
    destruct (holder_unique s i g Hl Hi Hh) as [Hw Hothers].
    split; [|by apply Hothers].
    apply (readersOf_zero (goroutines s)) with j; [|done].
    rewrite <- Hr. by apply Hx.
  - split.
    + intros Hw. destruct Hl as [[Hfree _]|[_ (i & g & Hi & Hh & _)]]; [congruence|].
      by exists i, g.
    + intros (i & g & Hi & Hh). by destruct (holder_unique s i g Hl Hi Hh).
Qed.

(** Three callers, and a schedule that stops while the first is inside
    [refresh]: the mutex is held for writing and counts no reader. *)
Lemma getKey_readers_exclude_the_writer_witness :
  let s := exec (H := Vectors.libs)
             [Run 0%nat; Run 0%nat; Run 0%nat; Run 0%nat; Run 1%nat; Run 0%nat]
             (spawn (Vectors.world0 emptyCache [Ok Vectors.goodResponse])
                ["key-valid"; "key-valid"; "key-other"]) in
  writer (mu s) = true ∧ readersOf (goroutines s) = 0%nat.
Proof.
  intros s.
  pose proof (getKey_readers_exclude_the_writer (H := Vectors.libs)
                (Vectors.world0 emptyCache [Ok Vectors.goodResponse])
                ["key-valid"; "key-valid"; "key-other"]
                [Run 0%nat; Run 0%nat; Run 0%nat; Run 0%nat; Run 1%nat; Run 0%nat])
    as Hthm.
  cbv zeta in Hthm. destruct Hthm as (_ & Hreaders & Hwriter). split.
  - apply Hwriter. exists 0%nat, {| kid := "key-valid"; at_pc := R_Get |}.
    split; vm_compute; reflexivity.
  - refine (eq_trans (eq_sym Hreaders) _). vm_compute. reflexivity.
Defined.

Lemma somewhere_or_nowhere (b : goroutine -> bool) (l : list goroutine) :
  (∀ j g, l !! j = Some g -> b g = false) ∨ (∃ j g, l !! j = Some g ∧ b g = true).
Proof.
  induction l as [|x l [IH|(j & g & Hj & Hb)]].
  - left. by intros j g Hj.
  - destruct (b x) eqn:Hx.
    + right. by exists 0%nat, x.
    + left. intros [|j] g Hj; [by injection Hj as <- | by apply (IH j)].
  - right. by exists (S j), g.
Qed.

Section Progress.
Context `{GoLibs}.

(** Inside a section, read or write, a goroutine is never blocked. *)
Lemma step_inside (w : world) (m : RWMutex) (g : goroutine) :
  holdsR (at_pc g) || holdsW (at_pc g) = true -> is_Some (step w m g).
Proof.
  unfold step. destruct (at_pc g) as [| |ret| | | |r|err| | |ret|ret]; try done; intros _.
  - by destruct (time.Before _ _).
  - by destruct (time.Before _ _).
  - by destruct (http_Get _ _).
  - by destruct (refresh_install _ _).
Qed.

Lemma perform_distance (a : action) (s : system) :
  (distance (perform a s) ≤ distance s)%nat.
Proof.
  destruct a as [i|d]; [|done].
  destruct (perform_Run s i) as [[-> _]|(g & w' & m' & p' & Hi & Hstep & ->)]; [done|].
  pose proof (step_remaining _ _ _ _ _ _ Hstep) as Hlt.
  pose proof (distance_insert s i g {| kid := kid g; at_pc := p' |} w' m' Hi) as Hd.
  cbn [at_pc] in Hd. lia.
Qed.

Lemma exec_distance (schedule : list action) (s : system) :
  (distance (exec schedule s) ≤ distance s)%nat.
Proof.
  revert s. induction schedule as [|a schedule IH]; intros s; [done|].
  simpl. etrans; [apply IH | apply perform_distance].
Qed.

Lemma spawn_distance (w : world) (kids : list string) :
  distance (spawn w kids) = (11 * length kids)%nat.
Proof.
  unfold distance, spawn. cbn [goroutines].
  induction kids as [|k kids IH]; [done|]. cbn -[Nat.mul] in *. lia.
Qed.

Lemma rwInv_progress (s : system) :
  rwInv s -> Forall (fun g => isDone g = true) (goroutines s) ∨ ∃ i, canRun s i.
Proof.
  intros [Hl Hr Hx].
  destruct (somewhere_or_nowhere (fun g => holdsR (at_pc g) || holdsW (at_pc g))
              (goroutines s)) as [Hout|(i & g & Hi & Hin)].
  2:{ right. exists i, g. split; [done|]. split; [by apply step_inside|].
      intros He. by destruct (at_pc g). }
  assert (Hfree : writer (mu s) = false).
  { destruct Hl as [[Hfree _]|[_ (i & g & Hi & Hh & _)]]; [done|].
    specialize (Hout i g Hi). rewrite Hh, orb_true_r in Hout. discriminate. }
  assert (Hnone : readers (mu s) = 0%nat).
  { rewrite Hr. apply readersOf_none. intros j g Hj.
    specialize (Hout j g Hj). by apply orb_false_iff in Hout as [-> _]. }
  destruct (somewhere_or_nowhere (fun g => waitsW (at_pc g)) (goroutines s))
    as [Hnowait|(i & g & Hi & Hwait)].
  2:{ right. exists i, g. split; [done|]. split.
      - unfold step. destruct (at_pc g); try done. by rewrite Hfree, Hnone.
      - intros He. by destruct (at_pc g). }
  destruct (somewhere_or_nowhere (fun g => entersR (at_pc g)) (goroutines s))
    as [Hnoenter|(i & g & Hi & Henter)].
  2:{ right. exists i, g. split; [done|]. split; [|done].
      unfold step. destruct (at_pc g); try done; by rewrite Hfree. }
  left. apply Forall_lookup. intros j g Hj.
  specialize (Hout j g Hj). specialize (Hnowait j g Hj). specialize (Hnoenter j g Hj).
  unfold isDone. by destruct (at_pc g).
Qed.

End Progress.

(** X10.  [getKey] cannot deadlock, whatever the number of callers, the schedule
    and the network: as long as a caller has not returned, some goroutine
    can move, and it can also under the writer preference of
    [sync.RWMutex] ([getKey] gives its read lock back before [refresh]
    asks for the write lock, so no goroutine waits for a lock it blocks
    itself).  A move that is not blocked brings its goroutine one step
    closer to its return, and a caller is at most eleven steps away from
    it: every schedule that keeps moving goroutines that can move lets all
    callers return. *)
Theorem getKey_cannot_deadlock `{GoLibs}
    (w : world) (kids : list string) (schedule : list action) :
  let s := exec schedule (spawn w kids) in
  (Forall (fun g => isDone g = true) (goroutines s) ∨ ∃ i, canRun s i) ∧
  (∀ i, canRun s i -> (distance (perform (Run i) s) < distance s)%nat) ∧
  (distance s ≤ 11 * length kids)%nat ∧
  (distance s = 0%nat ↔ Forall (fun g => isDone g = true) (goroutines s)).
Proof.
  intros s. split; [|split; [|split]].
  - apply rwInv_progress, exec_rwInv, spawn_rwInv.
  - intros i (g & Hi & [[[w' m'] p'] Hstep] & _).
    destruct (perform_Run s i) as [[_ Hblocked]|(g0 & w0' & m0' & p0' & Hi0 & Hstep0 & ->)].
    { rewrite (Hblocked g Hi) in Hstep. discriminate. }
    pose proof (step_remaining _ _ _ _ _ _ Hstep0) as Hlt.
    pose proof (distance_insert s i g0 {| kid := kid g0; at_pc := p0' |} w0' m0' Hi0) as Hd.
    cbn [at_pc] in Hd. lia.
  - rewrite <- spawn_distance with (w := w). apply exec_distance.
  - unfold distance, isDone. generalize (goroutines s). intros l.
    induction l as [|x l IH]; [by split|].
    rewrite Forall_cons, <- IH. cbn -[remaining].
    destruct (at_pc x); simpl; split; (try lia); try (intros [? ?]; lia); try (intros ?; split; [done|lia]).
Qed.

(** Three callers and a schedule that stops while the first is inside
    [refresh] and the others wait for the mutex: the first can move, and
    its move brings the end closer. *)
Lemma getKey_cannot_deadlock_witness :
  let s := exec (H := Vectors.libs)
             [Run 0%nat; Run 0%nat; Run 0%nat; Run 0%nat; Run 1%nat; Run 0%nat]
             (spawn (Vectors.world0 emptyCache [Ok Vectors.goodResponse])
                ["key-valid"; "key-valid"; "key-other"]) in
  (distance (perform (H := Vectors.libs) (Run 0%nat) s) < distance s)%nat.
Proof.
  intros s.
  apply (getKey_cannot_deadlock (H := Vectors.libs)
           (Vectors.world0 emptyCache [Ok Vectors.goodResponse])
           ["key-valid"; "key-valid"; "key-other"]
           [Run 0%nat; Run 0%nat; Run 0%nat; Run 0%nat; Run 1%nat; Run 0%nat]).
  eexists. split; [vm_compute; reflexivity|]. split; [vm_compute; by eexists|].
  intros He. vm_compute in He. discriminate.
Defined.

(** ** Concurrent callers: what they return *)

Section Answers.
Context `{GoLibs}.
Variables (w0 : world) (resp : http.Response)
  (rest : list (result http.Response string)) (maxAge : Z)
  (body : string) (certMap : gmap string string) (newKeys : gmap string rsa.PublicKey).
Hypothesis Hexpired : time.Before (now w0) (expiry (keyCache w0)) = false.
Hypothesis Hbody : http.Body resp = Ok body.
Hypothesis Hstatus : http.StatusCode resp = http.StatusOK.
Hypothesis Hjson : json_Unmarshal_certMap body = Some certMap.
Hypothesis Hcerts : parseCerts (map_to_list certMap) ∅ = Ok newKeys.
Hypothesis HmaxAge : parseMaxAge (http.Get (http.RespHeader resp) "Cache-Control") = maxAge.

Lemma good_answer : goodFetch resp maxAge.
Proof. by exists body, certMap, newKeys. Qed.

Lemma refresh_install_keys (w : world) :
  keys (keyCache (snd (refresh_install (Ok resp) w))) = newKeys ∧
  fst (refresh_install (Ok resp) w) = None.
Proof.
  unfold refresh_install, bind, ret. by rewrite Hbody, Hstatus, Hjson, Hcerts.
Qed.

(** Only the installation touches the cache. *)
Lemma step_keyCache (w : world) (m : RWMutex) (g : goroutine) w' m' p' :
  step w m g = Some (w', m', p') ->
  (∀ r, at_pc g ≠ R_Recv r) -> keyCache w' = keyCache w.
Proof.
  unfold step. destruct (at_pc g) as [| |ret| | | |r|err| | |ret|ret]; intros Hstep Hne.
  - destruct (writer m); [done|]. by injection Hstep as <- _ _.
  - destruct (time.Before (now w) _); by injection Hstep as <- _ _.
  - by injection Hstep as <- _ _.
  - destruct (_ || _); [done|]. by injection Hstep as <- _ _.
  - destruct (time.Before (now w) _); by injection Hstep as <- _ _.
  - destruct (http_Get googleCertsURL w) as [r1 w1] eqn:E. injection Hstep as <- _ _.
    unfold http_Get in E. destruct (network w); by injection E as _ <-.
  - by destruct (Hne r).
  - by injection Hstep as <- _ _.
  - destruct (writer m); [done|]. by injection Hstep as <- _ _.
  - by injection Hstep as <- _ _.
  - by injection Hstep as <- _ _.
  - done.
Qed.

Lemma lookupKey_answered (c : publicKeyCache) (k : string) (e : keyError) :
  keys c = newKeys -> e = ErrNotInCache k ∨ e = ErrNotFoundAfterRefresh k ->
  answered newKeys k (lookupKey c k e).
Proof.
  intros Hk He. unfold answered, lookupKey. rewrite Hk.
  destruct (newKeys !! k); [done|]. destruct He as [-> | ->]; [by left | by right].
Qed.

(** After the installation, while the new map is valid, every step keeps
    the goroutines settled. *)
Lemma step_installed (s : system) i g w' m' p' :
  time.Before (now (shared s)) (expiry (keyCache (shared s))) = true ->
  installed newKeys s ->
  goroutines s !! i = Some g ->
  step (shared s) (mu s) g = Some (w', m', p') ->
  installed newKeys (update s i w' m' {| kid := kid g; at_pc := p' |}).
Proof.
  intros Hfresh [Hk Hall] Hi Hstep.
  pose proof (Hall i g Hi) as Hg. unfold settled in Hg.
  assert (Hcache : keyCache w' = keyCache (shared s)).
  { apply (step_keyCache _ _ _ _ _ _ Hstep). intros r Hr. by rewrite Hr in Hg. }
  split; [cbn [update shared]; by rewrite Hcache|].
  cbn [update goroutines].
  apply (insert_pointwise (settled newKeys) _ i g); [done|by eauto|].
  unfold settled. cbn [at_pc kid]. revert Hstep. unfold step.
  destruct (at_pc g) as [| |ret| | | |r|err| | |ret|ret]; try done.
  - destruct (writer (mu s)); [done|]. by intros [= _ _ <-].
  - rewrite Hfresh. intros [= _ _ <-]. apply lookupKey_answered; [done | by left].
  - intros [= _ _ <-]. by destruct ret.
  - destruct (_ || _); [done|]. by intros [= _ _ <-].
  - rewrite Hfresh. by intros [= _ _ <-].
  - intros [= _ _ <-]. by subst err.
  - destruct (writer (mu s)); [done|]. by intros [= _ _ <-].
  - intros [= _ _ <-]. apply lookupKey_answered; [done | by right].
  - by intros [= _ _ <-].
Qed.

Lemma beforeFetch_settled (g : goroutine) :
  beforeFetch (at_pc g) = true -> holdsW (at_pc g) = false -> settled newKeys g.
Proof. unfold settled. by destruct (at_pc g) as [| |[?|]| | | | | | | | |]. Qed.

(** Once the cache is valid it holds the new keys and every goroutine is
    settled; every move of the scheduler made before the deadline keeps it
    so. *)
Lemma perform_answers (a : action) (s : system) :
  Inv w0 resp rest maxAge s ->
  (time.Before (now (shared s)) (expiry (keyCache (shared s))) = true ->
   installed newKeys s) ->
  now (shared (perform a s)) < deadline w0 maxAge ->
  time.Before (now (shared (perform a s))) (expiry (keyCache (shared (perform a s)))) = true ->
  installed newKeys (perform a s).
Proof.
  intros [Hl Hc Hp] Hinst Hnow. pose proof (perform_clock a s) as Hpc.
  destruct a as [i|d].
  - destruct (perform_Run s i) as [[-> _]|(g & w' & m' & p' & Hi & Hstep & ->)]; [done|].
    pose proof (step_clock _ _ _ _ _ _ Hstep) as Hclock.
    cbn [update shared] in *.
    destruct (time.Before (now (shared s)) (expiry (keyCache (shared s)))) eqn:Hfresh.
    { intros _. apply step_installed; [done | by apply Hinst | done | done]. }
    assert (Hrecv : (∀ r, at_pc g ≠ R_Recv r) ∨ ∃ r, at_pc g = R_Recv r).
    { destruct (at_pc g); try (by left); right; by eexists. }
    destruct Hrecv as [Hne|[r Hr]].
    { rewrite (step_keyCache _ _ _ _ _ _ Hstep Hne), Hclock, Hfresh. discriminate. }
    intros _.
    destruct Hp as [Hk Hn Hf Hall|i0 g0 Hk Hf Hi0 Hpc0 Hothers|Hd Hf Hall].
    + specialize (Hall i g Hi). rewrite Hr in Hall. discriminate.
    + destruct (decide (i = i0)) as [->|Hne].
      2:{ destruct (Hothers i g Hi Hne) as [Hb _]. rewrite Hr in Hb. discriminate. }
      rewrite Hi0 in Hi. injection Hi as <-.
      revert Hstep. unfold step. rewrite Hpc0.
      destruct (refresh_install_keys (shared s)) as [Hkeys Hnone].
      destruct (refresh_install (Ok resp) (shared s)) as [err w1].
      cbn [fst snd] in *. subst err. intros [= <- <- <-].
      split; [done|]. cbn [update goroutines].
      apply (insert_pointwise (settled newKeys) _ i0 g0); [done| |done].
      intros j y Hj Hnej. destruct (Hothers j y Hj Hnej). by apply beforeFetch_settled.
    + unfold time.Before in Hfresh. apply Z.ltb_ge in Hfresh. lia.
  - cbn [perform shared advance now keyCache] in *. unfold time.Before in *.
    intros Hfresh. apply Z.ltb_lt in Hfresh.
    destruct Hinst as [Hk Hall]; [apply Z.ltb_lt; lia|]. by split.
Qed.

Lemma exec_answers (schedule : list action) (s : system) :
  Inv w0 resp rest maxAge s ->
  (time.Before (now (shared s)) (expiry (keyCache (shared s))) = true ->
   installed newKeys s) ->
  now (shared s) + elapsed schedule < deadline w0 maxAge ->
  Inv w0 resp rest maxAge (exec schedule s) ∧
  (time.Before (now (shared (exec schedule s)))
     (expiry (keyCache (shared (exec schedule s)))) = true ->
   installed newKeys (exec schedule s)).
Proof.
  revert s. induction schedule as [|a schedule IH]; intros s Hinv Hinst Hbound; [done|].
  simpl in *. pose proof (elapsed_nonneg schedule) as Hpos.
  pose proof (perform_clock a s) as Hclock.
  assert (Hnow : now (shared (perform a s)) < deadline w0 maxAge) by (destruct a; lia).
  apply IH.
  - apply perform_Inv; [done | apply good_answer | done | done].
  - by apply perform_answers.
  - destruct a; lia.
Qed.

(** A caller that has returned has returned after the installation. *)
Lemma Done_after_install (s : system) i g r :
  Inv w0 resp rest maxAge s -> now (shared s) < deadline w0 maxAge ->
  goroutines s !! i = Some g -> at_pc g = Done r ->
  time.Before (now (shared s)) (expiry (keyCache (shared s))) = true.
Proof.
  intros [_ _ Hp] Hnow Hi Hdone.
  destruct Hp as [_ _ _ Hall|i0 g0 _ _ Hi0 Hpc0 Hothers|Hd _ _].
  - specialize (Hall i g Hi). rewrite Hdone in Hall. discriminate.
  - destruct (decide (i = i0)) as [->|Hne].
    + rewrite Hi0 in Hi. injection Hi as <-. congruence.
    + destruct (Hothers i g Hi Hne) as [Hb _]. rewrite Hdone in Hb. discriminate.
  - unfold time.Before. apply Z.ltb_lt. lia.
Qed.

End Answers.

Section Callers.
Context `{GoLibs}.

Lemma exec_clock (schedule : list action) (s : system) :
  now (shared (exec schedule s)) = now (shared s) + elapsed schedule.
Proof.
  revert s. induction schedule as [|a schedule IH]; intros s; [simpl; lia|].
  simpl. rewrite IH, perform_clock. destruct a; lia.
Qed.

(** A goroutine keeps the [kid] it was started with. *)
Lemma exec_kids (schedule : list action) (w : world) (kids : list string) i g :
  goroutines (exec schedule (spawn w kids)) !! i = Some g -> kids !! i = Some (kid g).
Proof.
  assert (Hgen : ∀ s, (∀ j y, goroutines s !! j = Some y -> kids !! j = Some (kid y)) ->
            ∀ j y, goroutines (exec schedule s) !! j = Some y -> kids !! j = Some (kid y)).
  { induction schedule as [|a schedule IH]; intros s Hs; [done|].
    simpl. apply IH. destruct a as [k|d]; [|done].
    destruct (perform_Run s k) as [[-> _]|(g0 & w' & m' & p' & Hk & _ & ->)]; [done|].
    intros j y Hj. cbn [update goroutines] in Hj.
    destruct (lookup_update_inv _ _ _ _ _ _ Hk Hj) as [[-> ->]|[_ Hj']]; [|by apply Hs].
    cbn [kid]. by apply Hs. }
  apply Hgen. intros j y Hj. unfold spawn in Hj. cbn [goroutines] in Hj.
  apply list_lookup_fmap_Some in Hj as (k & -> & Hk). done.
Qed.

End Callers.

(** X11.  What concurrent callers get.  Goroutines enter [getKey] together
    against an expired cache; the endpoint answers the first request with
    certificates that all hold RSA keys, and the schedule takes less than
    the lifetime [refresh] gives the keys, which is
    [time.Duration(maxAge) * time.Second] in 64-bit arithmetic (not
    positive for a [max-age] of zero or less, wrapped for a huge one).  Then, in every schedule, a caller that has
    returned has returned the key the response holds for its own [kid], or
    a not-found error when the response does not name that [kid]: no
    caller returns an error of [refresh], a key of the old map, or the key
    of another caller's [kid]; and by then the cache holds the keys of the
    response. *)
Theorem getKey_callers_get_the_new_keys `{GoLibs}
    (w0 : world) (resp : http.Response) (rest : list (result http.Response string))
    (body : string) (certMap : gmap string string)
    (kids : list string) (schedule : list action) :
  time.Before (now w0) (expiry (keyCache w0)) = false ->
  network w0 = Ok resp :: rest ->
  http.Body resp = Ok body -> http.StatusCode resp = http.StatusOK ->
  json_Unmarshal_certMap body = Some certMap ->
  (∀ k certPEM, certMap !! k = Some certPEM -> is_Some (keyOfPEM certPEM)) ->
  elapsed schedule
  < time.Seconds (parseMaxAge (http.Get (http.RespHeader resp) "Cache-Control")) ->
  let s := exec schedule (spawn w0 kids) in
  ∀ i g r, goroutines s !! i = Some g -> at_pc g = Done r ->
    kids !! i = Some (kid g) ∧
    match certMap !! kid g ≫= keyOfPEM with
    | Some key => r = Ok key
    | None => r = Err (ErrNotInCache (kid g)) ∨ r = Err (ErrNotFoundAfterRefresh (kid g))
    end ∧
    ∀ k, keys (keyCache (shared s)) !! k = certMap !! k ≫= keyOfPEM.
Proof.
  intros Hexpired Hnet Hb Hs Hj Hall Hbound s i g r Hi Hdone.
  split; [by eapply exec_kids|].
  destruct (parseCerts_total (map_to_list certMap) ∅) as [newKeys Hp].
  { intros kid certPEM Hin. apply elem_of_map_to_list in Hin. by eapply Hall. }
  pose proof (parseCerts_map _ _ Hp) as Hkeys.
  set (maxAge := parseMaxAge (http.Get (http.RespHeader resp) "Cache-Control")) in *.
  destruct (exec_answers w0 resp rest maxAge body certMap newKeys
              Hexpired Hb Hs Hj Hp eq_refl schedule (spawn w0 kids))
    as [Hinv Hinst].
  - by apply spawn_Inv.
  - cbn [spawn shared]. rewrite Hexpired. discriminate.
  - unfold deadline. simpl. lia.
  - fold s in Hinv, Hinst.
    assert (Hnow : now (shared s) < deadline w0 maxAge).
    { subst s. rewrite exec_clock. unfold deadline. simpl. lia. }
    destruct Hinst as [Hk Hsettled];
      [by eapply (Done_after_install w0 resp rest maxAge)|].
    specialize (Hsettled i g Hi). unfold settled in Hsettled. rewrite Hdone in Hsettled.
    unfold answered in Hsettled. rewrite Hkeys in Hsettled.
    split; [done|]. intros k. by rewrite Hk.
Qed.

(** Three callers race into the empty cache of a fresh process: the two
    that ask for the key of the response get it, the third gets a
    not-found error. *)
Lemma getKey_callers_get_the_new_keys_witness :
  let w0 := Vectors.world0 emptyCache [Ok Vectors.goodResponse] in
  let round := [Run 0%nat; Run 1%nat; Run 2%nat; Tick 1000000%N] in
  let s := exec (H := Vectors.libs) (concat (replicate 20 round))
             (spawn w0 ["key-valid"; "key-valid"; "key-other"]) in
  ∃ r0 r2,
    map at_pc (goroutines s) = [Done r0; Done r0; Done r2] ∧
    r0 = Ok Vectors.keyValid ∧
    (r2 = Err (ErrNotInCache "key-other")
     ∨ r2 = Err (ErrNotFoundAfterRefresh "key-other")).
Proof.
  intros w0 round s.
  assert (Hall : ∀ k certPEM,
            ({[ "key-valid" := Vectors.pemRSA ]} : gmap string string) !! k = Some certPEM ->
            is_Some (keyOfPEM (H := Vectors.libs) certPEM)).
  { intros k certPEM Hk. apply lookup_singleton_Some in Hk as [_ <-]. by eexists. }
  pose proof (getKey_callers_get_the_new_keys (H := Vectors.libs) w0 Vectors.goodResponse []
                Vectors.bodyOneRSA {[ "key-valid" := Vectors.pemRSA ]}
                ["key-valid"; "key-valid"; "key-other"] (concat (replicate 20 round))
                ltac:(vm_compute; reflexivity) eq_refl eq_refl eq_refl
                ltac:(vm_compute; reflexivity) Hall
                ltac:(vm_compute; reflexivity)) as Hthm.
  cbv zeta in Hthm.
  eexists _, _. split; [vm_compute; reflexivity|]. split.
  - refine (proj1 (proj2 (Hthm 0%nat {| kid := "key-valid"; at_pc := Done _ |} _ _ eq_refl))).
    vm_compute. reflexivity.
  - refine (proj1 (proj2 (Hthm 2%nat {| kid := "key-other"; at_pc := Done _ |} _ _ eq_refl))).
    vm_compute. reflexivity.
Defined.

(** ** Concurrent callers: requests *)

Section Requests.
Context `{GoLibs}.

(** A step sends a request only from [R_Get], and then exactly one. *)
Lemma step_fetches (w : world) (m : RWMutex) (g : goroutine) w' m' p' :
  step w m g = Some (w', m', p') ->
  fetches (trace w')
  = (fetches (trace w) + match at_pc g with R_Get => 1 | _ => 0 end)%nat.
Proof.
  unfold step. destruct (at_pc g) as [| |ret| | | |r|err| | |ret|ret].
  - destruct (writer m); [done|]. intros [= <- _ _]. simpl. rewrite fetches_cons. simpl. lia.
  - destruct (time.Before (now w) _); intros [= <- _ _]; lia.
  - intros [= <- _ _]. lia.
  - destruct (_ || _); [done|]. intros [= <- _ _]. simpl. rewrite fetches_cons. simpl. lia.
  - destruct (time.Before (now w) _); intros [= <- _ _]; lia.
  - destruct (http_Get googleCertsURL w) as [r1 w1] eqn:E. intros [= <- _ _].
    unfold http_Get in E.
    destruct (network w); injection E as _ <-; simpl; rewrite fetches_cons; simpl; lia.
  - destruct (refresh_install_no_fetch r w) as (new & E & F).
    destruct (refresh_install r w) as [err w1]. intros [= <- _ _].
    simpl in E. rewrite E, fetches_app, (fetches_none _ F). lia.
  - intros [= <- _ _]. lia.
  - destruct (writer m); [done|]. intros [= <- _ _]. lia.
  - intros [= <- _ _]. lia.
  - intros [= <- _ _]. lia.
  - done.
Qed.

(** A goroutine past the point where [refresh] sends its request does not
    come back before it. *)
Lemma step_beforeFetch (w : world) (m : RWMutex) (g : goroutine) w' m' p' :
  step w m g = Some (w', m', p') ->
  beforeFetch p' = true ->
  beforeFetch (at_pc g) = true ∧ at_pc g ≠ R_Get.
Proof.
  unfold step. destruct (at_pc g) as [| |ret| | | |r|err| | |ret|ret].
  - destruct (writer m); [done|]. by intros [= _ _ <-].
  - destruct (time.Before (now w) _); by intros [= _ _ <-].
  - intros [= _ _ <-]. by destruct ret.
  - destruct (_ || _); [done|]. by intros [= _ _ <-].
  - destruct (time.Before (now w) _); by intros [= _ _ <-].
  - destruct (http_Get _ _). by intros [= _ _ <-].
  - destruct (refresh_install _ _). by intros [= _ _ <-].
  - intros [= _ _ <-]. by destruct err.
  - destruct (writer m); [done|]. by intros [= _ _ <-].
  - by intros [= _ _ <-].
  - by intros [= _ _ <-].
  - done.
Qed.

Lemma perform_requests (a : action) (s : system) :
  (fetches (trace (shared (perform a s)))
   + length (List.filter (fun g => beforeFetch (at_pc g)) (goroutines (perform a s)))
   ≤ fetches (trace (shared s))
     + length (List.filter (fun g => beforeFetch (at_pc g)) (goroutines s)))%nat.
Proof.
  destruct a as [i|d]; [|done].
  destruct (perform_Run s i) as [[-> _]|(g & w' & m' & p' & Hi & Hstep & ->)]; [done|].
  cbn [update shared goroutines].
  pose proof (count_insert (fun g => beforeFetch (at_pc g)) (goroutines s) i g
                {| kid := kid g; at_pc := p' |} Hi) as Hcount.
  cbn [at_pc] in Hcount.
  rewrite (step_fetches _ _ _ _ _ _ Hstep).
  pose proof (step_beforeFetch _ _ _ _ _ _ Hstep) as Hmono.
  destruct (beforeFetch p') eqn:Hb'.
  - destruct Hmono as [Hb Hne]; [done|]. rewrite Hb in Hcount.
    destruct (at_pc g); try lia. done.
  - destruct (at_pc g); simpl in *; lia.
Qed.

End Requests.

(** X12.  Requests under contention, whatever the schedule and whatever the
    endpoint answers.  A call of [getKey] sends at most one request: the
    requests sent so far, together with the callers that may still send
    one, never exceed the number of callers. *)
Theorem getKey_sends_one_request_per_call_at_most `{GoLibs}
    (w : world) (kids : list string) (schedule : list action) :
  let s := exec schedule (spawn w kids) in
  (fetches (trace (shared s))
   + length (List.filter (fun g => beforeFetch (at_pc g)) (goroutines s))
   ≤ fetches (trace w) + length kids)%nat ∧
  (fetches (trace (shared s)) ≤ fetches (trace w) + length kids)%nat.
Proof.
  intros s.
  assert (Hgen : ∀ s0,
    (fetches (trace (shared (exec schedule s0)))
     + length (List.filter (fun g => beforeFetch (at_pc g)) (goroutines (exec schedule s0)))
     ≤ fetches (trace (shared s0))
       + length (List.filter (fun g => beforeFetch (at_pc g)) (goroutines s0)))%nat).
  { induction schedule as [|a schedule IH]; intros s0; [done|].
    simpl. etrans; [apply IH | apply perform_requests]. }
  specialize (Hgen (spawn w kids)). fold s in Hgen.
  pose proof (count_le_length (fun g => beforeFetch (at_pc g)) (goroutines (spawn w kids)))
    as Hle.
  unfold spawn in Hle at 2. cbn [goroutines] in Hle. rewrite length_fmap in Hle.
  cbn [spawn shared] in Hgen. lia.
Qed.

(** ** Concurrent callers: a valid cache *)

Section Served.
Context `{GoLibs}.
Variable w0 : world.

Lemma perform_served (a : action) (s : system) :
  keyCache (shared s) = keyCache w0 ∧ network (shared s) = network w0 ∧
  fetches (trace (shared s)) = fetches (trace w0) ∧ writer (mu s) = false ∧
  (∀ j g, goroutines s !! j = Some g -> served (keyCache w0) g) ->
  now (shared s) < expiry (keyCache w0) ->
  keyCache (shared (perform a s)) = keyCache w0 ∧
  network (shared (perform a s)) = network w0 ∧
  fetches (trace (shared (perform a s))) = fetches (trace w0) ∧
  writer (mu (perform a s)) = false ∧
  (∀ j g, goroutines (perform a s) !! j = Some g -> served (keyCache w0) g).
Proof.
  intros (Hk & Hn & Hf & Hw & Hall) Hnow. destruct a as [i|d]; [|done].
  destruct (perform_Run s i) as [[-> _]|(g & w' & m' & p' & Hi & Hstep & ->)]; [done|].
  pose proof (Hall i g Hi) as Hg. unfold served in Hg.
  pose proof (step_fetches _ _ _ _ _ _ Hstep) as Hfetch.
  cbn [update shared mu goroutines].
  assert (Hfresh : time.Before (now (shared s)) (expiry (keyCache (shared s))) = true).
  { unfold time.Before. apply Z.ltb_lt. by rewrite Hk. }
  revert Hstep Hfetch. unfold step.
  destruct (at_pc g) as [| |[r|]| | | | | | | | |r] eqn:Hpc; try done.
  - rewrite Hw. intros [= <- <- <-] Hfetch. cbn [emit snd keyCache network] in *.
    split; [done|]. split; [done|]. split; [lia|]. split; [done|].
    apply (insert_pointwise (served (keyCache w0)) _ i g); [done|by eauto|done].
  - rewrite Hfresh. intros [= <- <- <-] Hfetch.
    split; [done|]. split; [done|]. split; [lia|]. split; [done|].
    apply (insert_pointwise (served (keyCache w0)) _ i g); [done|by eauto|].
    unfold served. cbn [at_pc kid]. by rewrite Hk.
  - intros [= <- <- <-] Hfetch.
    split; [done|]. split; [done|]. split; [lia|]. split; [done|].
    apply (insert_pointwise (served (keyCache w0)) _ i g); [done|by eauto|done].
Qed.

Lemma exec_served (schedule : list action) (s : system) :
  keyCache (shared s) = keyCache w0 ∧ network (shared s) = network w0 ∧
  fetches (trace (shared s)) = fetches (trace w0) ∧ writer (mu s) = false ∧
  (∀ j g, goroutines s !! j = Some g -> served (keyCache w0) g) ->
  now (shared s) + elapsed schedule < expiry (keyCache w0) ->
  keyCache (shared (exec schedule s)) = keyCache w0 ∧
  network (shared (exec schedule s)) = network w0 ∧
  fetches (trace (shared (exec schedule s))) = fetches (trace w0) ∧
  writer (mu (exec schedule s)) = false ∧
  (∀ j g, goroutines (exec schedule s) !! j = Some g -> served (keyCache w0) g).
Proof.
  revert s. induction schedule as [|a schedule IH]; intros s Hinv Hbound; [done|].
  simpl in *. pose proof (elapsed_nonneg schedule) as Hpos.
  pose proof (perform_clock a s) as Hclock.
  apply IH.
  - apply perform_served; [done|]. destruct a; lia.
  - destruct a; lia.
Qed.

End Served.

(** X13.  Callers of [getKey] against a cache that stays valid for the whole
    schedule.  No caller ever waits: nobody asks for the write lock, so
    every goroutine that has not returned can take its next step, however
    many callers there are.  No request is sent, the cache and the network
    are left as they were, and each caller returns what the map holds for
    its [kid]. *)
Theorem getKey_valid_cache_serves_all `{GoLibs}
    (w : world) (kids : list string) (schedule : list action) :
  now w + elapsed schedule < expiry (keyCache w) ->
  let s := exec schedule (spawn w kids) in
  keyCache (shared s) = keyCache w ∧ network (shared s) = network w ∧
  fetches (trace (shared s)) = fetches (trace w) ∧
  ∀ i g, goroutines s !! i = Some g ->
    (isDone g = true ∨ canRun s i) ∧
    ∀ r, at_pc g = Done r ->
         r = match keys (keyCache w) !! kid g with
             | Some key => Ok key
             | None => Err (ErrNotInCache (kid g))
             end.
Proof.
  intros Hbound s.
  destruct (exec_served w schedule (spawn w kids)) as (Hk & Hn & Hf & Hw & Hall).
  { repeat split; try done. intros j g Hj. unfold served.
    by rewrite (spawn_entry _ _ _ _ Hj). }
  { done. }
  fold s in Hk, Hn, Hf, Hw, Hall.
  split; [done|]. split; [done|]. split; [done|].
  intros i g Hi. pose proof (Hall i g Hi) as Hg. unfold served in Hg. split.
  - destruct (at_pc g) as [| |[r|]| | | | | | | | |r] eqn:Hpc; try done.
    + right. exists g. split; [done|]. split.
      * unfold step. by rewrite Hpc, Hw.
      * intros _ j g' Hj. specialize (Hall j g' Hj). unfold served in Hall.
        by destruct (at_pc g') as [| |[?|]| | | | | | | | |].
    + right. exists g. split; [done|]. split; [|by rewrite Hpc].
      unfold step. rewrite Hpc. by destruct (time.Before _ _).
    + right. exists g. split; [done|]. split; [|by rewrite Hpc].
      unfold step. by rewrite Hpc.
    + left. unfold isDone. by rewrite Hpc.
  - intros r Hr. rewrite Hr in Hg. by subst r.
Qed.

(** Three callers against the warm cache of the vectors: all return, no
    request is sent. *)
Lemma getKey_valid_cache_serves_all_witness :
  let s := exec (H := Vectors.libs)
             (concat (replicate 3 [Run 0%nat; Run 1%nat; Run 2%nat; Tick 1000000%N]))
             (spawn (Vectors.world0 Vectors.warmCache [])
                ["key-valid"; "key-valid"; "key-other"]) in
  fetches (trace (shared s)) = 0%nat ∧
  map at_pc (goroutines s)
  = [Done (Ok Vectors.keyValid); Done (Ok Vectors.keyValid);
     Done (Err (ErrNotInCache "key-other"))].
Proof.
  intros s. split; [|vm_compute; reflexivity].
  apply (getKey_valid_cache_serves_all (H := Vectors.libs)
           (Vectors.world0 Vectors.warmCache [])
           ["key-valid"; "key-valid"; "key-other"]
           (concat (replicate 3 [Run 0%nat; Run 1%nat; Run 2%nat; Tick 1000000%N]))).
  vm_compute. reflexivity.
Defined.

(** ** The production verifier when the certificates cannot be had *)

(** X14.  [verifyIDToken] fails closed.  Once the cache has expired and the
    fetch of the certificates fails, for whatever reason, every token is
    refused, also one whose key is still in the expired map; the map and
    its expiry stay as they were, so the next call tries again.  The
    handler answers such a request with the UNAUTHENTICATED response. *)
Theorem verifyIDToken_fails_closed `{GoLibs}
    (tokenString projectID : string) (w : world) :
  time.Before (now w) (expiry (keyCache w)) = false ->
  failingFetch (nextFetch w) ->
  (∃ err, fst (verifyIDToken tokenString projectID w) = Err err) ∧
  keyCache (snd (verifyIDToken tokenString projectID w)) = keyCache w ∧
  ∀ cfg r, AuthEmulatorHost cfg = "" ->
    fst (newMux_apiMe cfg newResponseWriter r w) = unauthenticated newResponseWriter.
Proof.
  intros Hexp Hfail.
  assert (Hkey : ∀ kid w1, keyCache w1 = keyCache w -> now w1 = now w ->
                           network w1 = network w ->
            (∃ e, fst (getKey kid w1) = Err (ErrRefresh e)) ∧
            keyCache (snd (getKey kid w1)) = keyCache w).
  { intros kid w1 Hk Hn Hnet.
    assert (Hexp1 : time.Before (now w1) (expiry (keyCache w1)) = false) by congruence.
    assert (Hnext : nextFetch w1 = nextFetch w) by (unfold nextFetch; by rewrite Hnet).
    rewrite (getKey_expired kid w1 Hexp1). cbv zeta. rewrite Hnext.
    match goal with |- context [refresh_install _ ?w2] =>
      destruct (refresh_install_failing (nextFetch w) w2 Hfail) as [e ->] end.
    split; [by exists e | done]. }
  assert (Hrefused : ∀ tok pid, ∃ err, fst (verifyIDToken tok pid w) = Err err).
  { intros tok pid. unfold verifyIDToken, bind. cbn [emit fst snd].
    destruct (jwt.ParseUnverified _ _) as [token|e]; [|by eexists].
    destruct (negb _); [by eexists|].
    destruct (jwt.Header token !! "kid") as [[| | |kid| |]|]; try by eexists.
    destruct (String.eqb kid ""); [by eexists|].
    match goal with |- context [getKey kid ?w1] =>
      destruct (Hkey kid w1) as [[e He] _]; [done..|];
      destruct (getKey kid w1) as [[pubKey|err] w2] end; [discriminate|].
    by eexists. }
  split; [apply Hrefused|]. split.
  - destruct (verifyIDToken_shape tokenString projectID w) as [E|[kid [E|E]]];
      rewrite E; [done| |]; cbn [emit snd keyCache];
      by destruct (Hkey kid (snd (emit (Call_verifyIDToken tokenString projectID) w))).
  - intros cfg r Hhost.
    destruct (strings.HasPrefix (http.Get (http.ReqHeader r) "Authorization") "Bearer ")
      eqn:Hp.
    + rewrite (apiMe_verifies _ _ _ _ Hp). cbv zeta. unfold selectedVerifier.
      rewrite Hhost. cbn [String.eqb].
      match goal with |- context [verifyIDToken ?tok ?pid w] =>
        destruct (Hrefused tok pid) as [err Herr];
        destruct (verifyIDToken tok pid w) as [[user|err'] w1] end; [discriminate|done].
    + by destruct (apiMe_rejects cfg newResponseWriter r w Hp) as [-> _].
Qed.

(** A cache that expired a nanosecond ago and still holds the key of the
    signed token of the vectors, and no network: the token is refused. *)
Lemma verifyIDToken_fails_closed_witness :
  let stale := {| keys := {[ "key-valid" := Vectors.keyValid ]};
                  expiry := Vectors.t0 - 1 |} in
  keys stale !! "key-valid" = Some Vectors.keyValid ∧
  ∃ err,
    fst (verifyIDToken (H := Vectors.libs)
           (Vectors.token Vectors.hRS256 Vectors.cValid Vectors.sigValid)
           "test-project-123" (Vectors.world0 stale []))
    = Err err.
Proof.
  intros stale. split; [vm_compute; reflexivity|].
  apply (verifyIDToken_fails_closed (H := Vectors.libs)
           (Vectors.token Vectors.hRS256 Vectors.cValid Vectors.sigValid)
           "test-project-123" (Vectors.world0 stale [])).
  - vm_compute. reflexivity.
  - apply (NetworkFailure (H := Vectors.libs)).
Defined.

(** ** [responseCapture] *)

Lemma calls_snoc {W : Type} `{server.Writer W} (cs : list call) (c : call) (w : W) :
  calls (cs ++ [c]) w = calls [c] (calls cs w).
Proof. unfold calls. by rewrite foldl_app. Qed.

Lemma head_app_or {A : Type} (l k : list A) :
  head (l ++ k) = match head l with Some y => Some y | None => head k end.
Proof. by destruct l. Qed.

(** X15.  A [responseCapture] passes every call on to the writer it wraps,
    which therefore ends in the state it would have reached without the
    capture.  The status it holds is the code of the last call of
    [WriteHeader], and 200 when there was none, whereas the status the
    writer has put on the wire is that of the first call that wrote the
    header: the code of a [WriteHeader], or 200 for a [Write] that came
    first. *)
Theorem responseCapture_holds_the_last_code (cs : list call) (w : server.Recorder) :
  Forall (fun code : Z => 200 <= code <= 999) (omap passedCode cs) ->
  server.rec_Status w = None ->
  let rc := calls cs {| server.rc_ResponseWriter := w; server.status := http.StatusOK |} in
  server.rc_ResponseWriter rc = calls cs w ∧
  server.status rc = default http.StatusOK (last (omap passedCode cs)) ∧
  server.rec_Status (calls cs w) = head (omap headerWritten cs).
Proof.
  intros _ Hnew. cbn zeta.
  induction cs as [|c cs IH] using rev_ind.
  - cbn. by rewrite Hnew.
  - destruct IH as (IH1 & IH2 & IH3).
    rewrite !calls_snoc, !omap_app, head_app_or, <- IH3.
    destruct (calls cs {| server.rc_ResponseWriter := w;
                          server.status := http.StatusOK |}) as [inner st].
    cbn in IH1, IH2. subst inner st.
    destruct c as [key value|code|p]; cbn.
    + rewrite app_nil_r. by destruct (server.rec_Status (calls cs w)).
    + rewrite last_snoc. by destruct (server.rec_Status (calls cs w)).
    + rewrite app_nil_r. by destruct (server.rec_Status (calls cs w)).
Qed.

Lemma responseCapture_holds_the_last_code_witness :
  let cs := [Call_Write (server.Text "late"); Call_WriteHeader 404] in
  let rc := calls cs {| server.rc_ResponseWriter := server.NewRecorder;
                        server.status := http.StatusOK |} in
  server.status rc = 404 ∧ server.rec_Status (calls cs server.NewRecorder) = Some 200.
Proof.
  intros cs rc.
  destruct (responseCapture_holds_the_last_code cs server.NewRecorder) as (_ & H1 & H2).
  - repeat constructor; cbn; lia.
  - reflexivity.
  - split; [exact H1 | exact H2].
Defined.

(** ** The logging middleware around the handlers of [newMux] *)

Section Middleware.
Context `{GoLibs}.
Variables homePage profilePage : firebaseConfig -> string.

Lemma loggingMiddleware_run (next : server.Handler) (counter : Z) (w : server.Recorder)
    (r : server.Request) (world : world) :
  server.loggingMiddleware next counter w r world =
    let '(rc, world') :=
      next _ _ {| server.rc_ResponseWriter := w; server.status := http.StatusOK |} r world in
    ((server.rc_ResponseWriter rc, server.uint64 (counter + 1),
      {| server.request_id :=
           server.Sprintf_d_d (server.UnixNano (now world)) (server.uint64 (counter + 1));
         server.method := server.Method r;
         server.path := server.URL_Path r;
         server.log_status := server.status rc;
         server.latency_us :=
           server.Microseconds (server.Sub (now world') (now world)) |}), world').
Proof.
  unfold server.loggingMiddleware, server.Since, bind, time_Now, ret.
  by destruct (next _ _ _ r world) as [rc world'].
Qed.

(** The handler of [GET /api/me] on the writer of the server gives the
    response of [newMux_apiMe]. *)
Lemma server_apiMe_agrees (cfg : firebaseConfig) (w : server.Recorder)
    (r : server.Request) (world : world) :
  newMux_apiMe cfg (asResponseWriter w) (asRequest r) world =
    (asResponseWriter (server.newMux_apiMe cfg w r world).1,
     (server.newMux_apiMe cfg w r world).2).
Proof.
  assert (Hjson : ∀ (A : Type) (MA : Marshal A) (st : Z) (v : A),
             asResponseWriter (server.writeJSON w st v) = writeJSON (asResponseWriter w) st v).
  { intros A MA st v. unfold server.writeJSON, writeJSON, asResponseWriter, Encode; cbn.
    by rewrite omap_app. }
  unfold newMux_apiMe, server.newMux_apiMe, writeError, server.writeError, asRequest; cbn.
  destruct (_ || _); [by rewrite <- Hjson|].
  unfold bind.
  destruct (if negb _ then _ else _) as [[user|err] world'].
  - cbn. by rewrite <- Hjson.
  - unfold slog, emit, ret; cbn. by rewrite <- Hjson.
Qed.

(** X16.  For each handler [newMux] registers, run behind the logging
    middleware on a writer whose header is not yet written: the writer ends
    as if the handler had run on it directly, with the same effects; the
    status of the record that is logged is the status the writer has sent;
    that status is 404 exactly for the catch-all handler, 401 only for
    [GET /api/me], and 200 otherwise; the record names the method and the
    path of the request, and the counter of the closure has advanced by
    one. *)
Theorem loggingMiddleware_logs_the_status_sent (cfg : firebaseConfig) (pattern : string)
    (h : server.Handler) (counter : Z) (w0 : server.Recorder) (r : server.Request)
    (world0 : world) :
  (pattern, h) ∈ server.newMux homePage profilePage cfg ->
  server.rec_Status w0 = None ->
  ∃ out world' l,
    server.loggingMiddleware h counter w0 r world0
      = ((out, server.uint64 (counter + 1), l), world') ∧
    h server.Recorder _ w0 r world0 = (out, world') ∧
    server.rec_Status out = Some (server.log_status l) ∧
    (server.log_status l = server.StatusNotFound <-> pattern = "/") ∧
    (server.log_status l = http.StatusOK ∨
     server.log_status l = server.StatusNotFound ∨
     server.log_status l = http.StatusUnauthorized ∧ pattern = "GET /api/me") ∧
    server.method l = server.Method r ∧
    server.path l = server.URL_Path r.
Proof.
  intros Hin Hnew. unfold server.newMux in Hin.
  rewrite !elem_of_cons, elem_of_nil in Hin.
  destruct Hin as [Heq|[Heq|[Heq|[Heq|[]]]]]; injection Heq as -> ->;
    rewrite loggingMiddleware_run.
  - unfold server.newMux_home, ret; cbn. rewrite Hnew.
    eexists _, _, _. repeat split; try done. by left.
  - unfold server.newMux_profile, ret; cbn. rewrite Hnew.
    eexists _, _, _. repeat split; try done. by left.
  - unfold server.newMux_apiMe, server.writeError, server.writeJSON, bind, ret; cbn.
    destruct (_ || _).
    { rewrite Hnew. eexists _, _, _. repeat split; try done. by right; right. }
    destruct (if negb _ then _ else _) as [[user|err] world'].
    + cbn. rewrite Hnew. eexists _, _, _. repeat split; try done. by left.
    + unfold slog, emit; cbn. rewrite Hnew.
      eexists _, _, _. repeat split; try done. by right; right.
  - unfold server.newMux_notFound, ret; cbn. rewrite Hnew.
    eexists _, _, _. repeat split; try done. by right; left.
Qed.

End Middleware.

Lemma loggingMiddleware_logs_the_status_sent_witness :
  ∃ out world' l,
    server.loggingMiddleware
        (fun W _ => server.newMux_apiMe (H := Vectors.libs) Vectors.productionCfg)
        0 server.NewRecorder
        {| server.Method := "GET"; server.URL_Path := "/api/me"; server.Header := ∅ |}
        (Vectors.world0 emptyCache [])
      = ((out, 1, l), world') ∧
    server.rec_Status out = Some 401 ∧ server.log_status l = 401.
Proof.
  destruct (loggingMiddleware_logs_the_status_sent (H := Vectors.libs)
              (fun _ => "home") (fun _ => "profile") Vectors.productionCfg
              "GET /api/me"
              (fun W _ => server.newMux_apiMe (H := Vectors.libs) Vectors.productionCfg)
              0 server.NewRecorder
              {| server.Method := "GET"; server.URL_Path := "/api/me"; server.Header := ∅ |}
              (Vectors.world0 emptyCache []))
    as (out & world' & l & Hrun & _ & Hsent & _ & Hcode & _).
  - unfold server.newMux. rewrite !elem_of_cons. right; right; left. reflexivity.
  - reflexivity.
  - exists out, world', l. split; [exact Hrun|].
    vm_compute in Hrun. injection Hrun as <- <- <-. split; reflexivity.
Defined.

(** ** Request identifiers *)

Lemma pretty_N_go_hasDash (x : N) (s : string) :
  hasDash s = false -> hasDash (pretty.pretty_N_go x s) = false.
Proof.
  revert s. induction (N.lt_wf_0 x) as [x _ IH]; intros s Hs.
  destruct (decide (0 < x)%N) as [Hx|Hx].
  - rewrite pretty.pretty_N_go_step by done.
    apply IH; [by apply N.div_lt|].
    cbn. rewrite Hs, orb_false_r.
    unfold pretty.pretty_N_char. by repeat case_match.
  - assert (x = 0%N) as -> by lia. by rewrite pretty.pretty_N_go_0.
Qed.

Lemma pretty_hasDash (z : Z) : 0 <= z -> hasDash (pretty.pretty z) = false.
Proof.
  intros Hz. destruct z as [|p|p]; [done| |lia].
  unfold pretty.pretty, pretty.pretty_Z, pretty.pretty, pretty.pretty_positive,
    pretty.pretty, pretty.pretty_N.
  case_decide; [done|]. by apply pretty_N_go_hasDash.
Qed.

Lemma hasDash_app (a d : string) : hasDash (a +:+ String "-" d) = true.
Proof.
  induction a as [|c a IH]; [done|].
  change (Ascii.eqb c "-" || hasDash (a +:+ String "-" d) = true).
  by rewrite IH, orb_true_r.
Qed.

Lemma append_dash_inj (a a' d d' : string) :
  hasDash d = false -> hasDash d' = false ->
  a +:+ String "-" d = a' +:+ String "-" d' -> d = d'.
Proof.
  intros Hd Hd'. revert a'. induction a as [|c a IH]; intros [|c' a'] Heq; cbn in Heq.
  - by injection Heq.
  - injection Heq as _ ->. by rewrite hasDash_app in Hd.
  - injection Heq as _ <-. by rewrite hasDash_app in Hd'.
  - injection Heq as _ Heq. by apply (IH a').
Qed.

Lemma Sprintf_d_d_inj (a a' b b' : Z) :
  0 <= b -> 0 <= b' -> server.Sprintf_d_d a b = server.Sprintf_d_d a' b' -> b = b'.
Proof.
  intros Hb Hb' Heq. apply (inj pretty.pretty).
  by apply (append_dash_inj (pretty.pretty a) (pretty.pretty a')); [apply pretty_hasDash..|].
Qed.

Lemma uint64_range (z : Z) : 0 <= server.uint64 z < 2 ^ 64.
Proof. unfold server.uint64. apply Z.mod_pos_bound. lia. Qed.

Lemma uint64_succ (z : Z) : server.uint64 (server.uint64 z + 1) = server.uint64 (z + 1).
Proof. unfold server.uint64. by rewrite Z.add_mod_idemp_l by lia. Qed.

Lemma serve_cons (next : server.Handler) (counter : Z) (r : server.Request)
    (rs : list server.Request) (w : world) :
  ∃ t out w',
    (server.serve next counter (r :: rs) w).1 =
      {| server.request_id := server.Sprintf_d_d t (server.uint64 (counter + 1));
         server.method := server.method out; server.path := server.path out;
         server.log_status := server.log_status out;
         server.latency_us := server.latency_us out |}
      :: (server.serve next (server.uint64 (counter + 1)) rs w').1.
Proof.
  cbn [server.serve]. unfold bind at 1.
  unfold server.loggingMiddleware, server.Since, bind at 1 2 3, time_Now, ret.
  destruct (next _ _ _ r w) as [rc w1]. cbn.
  unfold bind, ret.
  destruct (server.serve next (server.uint64 (counter + 1)) rs w1) as [ls w2] eqn:E.
  eexists _, {| server.request_id := ""; server.method := _ |}, w1. cbn.
  by rewrite E.
Qed.

Lemma serve_ids (next : server.Handler) (rs : list server.Request) (counter : Z) (w : world)
    (i : nat) (l : server.requestLog) :
  (server.serve next counter rs w).1 !! i = Some l ->
  ∃ t, server.request_id l = server.Sprintf_d_d t (server.uint64 (counter + 1 + Z.of_nat i)).
Proof.
  revert counter w i. induction rs as [|r rs IH]; intros counter w i Hl; [done|].
  destruct (serve_cons next counter r rs w) as (t & out & w' & Heq).
  rewrite Heq in Hl. destruct i as [|i].
  - injection Hl as <-. exists t. cbn. by rewrite Z.add_0_r.
  - cbn in Hl. apply IH in Hl as [t' ->]. exists t'. f_equal.
    unfold server.uint64. rewrite <- Z.add_assoc, Z.add_mod_idemp_l by lia.
    f_equal. lia.
Qed.

Lemma serve_length (next : server.Handler) (rs : list server.Request) (counter : Z)
    (w : world) :
  length (server.serve next counter rs w).1 = length rs.
Proof.
  revert counter w. induction rs as [|r rs IH]; intros counter w; [done|].
  destruct (serve_cons next counter r rs w) as (t & out & w' & ->). cbn. by rewrite IH.
Qed.

(** X17.  Requests served one after the other by the closure of
    [loggingMiddleware], whatever the handler and the clock do: one record
    is logged per request, and as long as there are at most 2^64 of them no
    two records carry the same [request_id]. *)
Theorem loggingMiddleware_request_ids_differ (next : server.Handler) (counter : Z)
    (rs : list server.Request) (w : world) :
  Z.of_nat (length rs) <= 2 ^ 64 ->
  length (server.serve next counter rs w).1 = length rs ∧
  NoDup (server.request_id <$> (server.serve next counter rs w).1).
Proof.
  intros Hlen. split; [apply serve_length|].
  apply NoDup_alt. intros i j id Hi Hj.
  apply list_lookup_fmap_Some in Hi as (li & Hli & Hi).
  apply list_lookup_fmap_Some in Hj as (lj & Hlj & Hj).
  pose proof (lookup_lt_Some _ _ _ Hi) as Hilt.
  pose proof (lookup_lt_Some _ _ _ Hj) as Hjlt.
  rewrite serve_length in Hilt, Hjlt.
  apply serve_ids in Hi as [ti Hi]. apply serve_ids in Hj as [tj Hj].
  rewrite <- Hli in Hi. rewrite <- Hlj, Hi in Hj.
  apply Sprintf_d_d_inj in Hj; [|apply uint64_range..].
  unfold server.uint64 in Hj.
  assert (Hmod : (counter + 1 + Z.of_nat i - (counter + 1 + Z.of_nat j)) mod 2 ^ 64 = 0).
  { by rewrite Zminus_mod, Hj, Z.sub_diag. }
  apply Z.mod_divide in Hmod; [|lia]. destruct Hmod as [k Hk].
  assert (k = 0) as -> by nia. lia.
Qed.

Lemma loggingMiddleware_request_ids_differ_witness :
  let r := {| server.Method := "GET"; server.URL_Path := "/nowhere"; server.Header := ∅ |} in
  NoDup (server.request_id <$>
           (server.serve (fun W _ => server.newMux_notFound) (2 ^ 64 - 2) [r; r; r]
              (Vectors.world0 emptyCache [])).1).
Proof.
  intros r.
  apply (loggingMiddleware_request_ids_differ (fun W _ => server.newMux_notFound)
           (2 ^ 64 - 2) [r; r; r] (Vectors.world0 emptyCache [])).
  cbn. lia.
Defined.

(** ** [main] *)

(** X18.  [main] reaches [http.ListenAndServe] exactly when [PORT] and the
    three required Firebase variables are set and not empty.  It then
    listens on [":" + PORT] with the configuration read from the
    environment, the last record written being the INFO record with that
    address.  In every other case it exits with status 1 after writing
    exactly one record, at level ERROR; when [PORT] is missing that record
    is the one about [PORT], whatever the Firebase variables are.  The key
    cache and the network are not touched. *)
Theorem main_listens_or_exits (env : gmap string string) (w : world) :
  ((∃ addr cfg, (server.main env w).1 = server.ListenAndServe addr cfg) <->
   Forall (fun v => Getenv env v ≠ "") ("PORT" :: requiredVars)) ∧
  (∀ addr cfg, (server.main env w).1 = server.ListenAndServe addr cfg ->
     addr = ":" +:+ Getenv env "PORT" ∧
     cfg = {| ProjectID := Getenv env "FIREBASE_PROJECT_ID";
              APIKey := Getenv env "FIREBASE_API_KEY";
              AuthDomain := Getenv env "FIREBASE_AUTH_DOMAIN";
              AuthEmulatorHost := Getenv env "FIREBASE_AUTH_EMULATOR_HOST" |} ∧
     head (events_of (server.main env) w)
       = Some (Log "INFO" "server starting" [("addr", LStr addr)])) ∧
  (∀ code, (server.main env w).1 = server.os_Exit code ->
     code = 1 ∧ ∃ msg attrs, events_of (server.main env) w = [Log "ERROR" msg attrs]) ∧
  (Getenv env "PORT" = "" ->
     events_of (server.main env) w
       = [Log "ERROR" "PORT environment variable is required but not set" []]) ∧
  keyCache (server.main env w).2 = keyCache w ∧
  network (server.main env w).2 = network w.
Proof.
  unfold events_of, server.main, requiredVars.
  rewrite !Forall_cons, Forall_nil.
  destruct (String.eqb_spec (Getenv env "PORT") "") as [Hport|Hport].
  { unfold bind, ret, slog, emit; cbn -[emitted]. split_and!; try done.
    - split; [by intros (addr & cfg & ?) | by intros (? & _)].
    - intros code [= <-]. split; [done|]. eexists _, _. by apply emitted_app.
    - intros _. by apply emitted_app. }
  unfold loadFirebaseConfig, bind, ret, slog, emit; cbn -[emitted].
  destruct (String.eqb_spec (Getenv env "FIREBASE_PROJECT_ID") "") as [H1|H1];
    destruct (String.eqb_spec (Getenv env "FIREBASE_API_KEY") "") as [H2|H2];
    destruct (String.eqb_spec (Getenv env "FIREBASE_AUTH_DOMAIN") "") as [H3|H3]; cbn -[emitted];
    try (split_and!; try done;
         [ split; [by intros (addr & cfg & ?) | by intros (_ & ? & ? & ? & _)]
         | intros code [= <-]; split; [done|]; eexists _, _; by apply emitted_app ]).
  destruct (String.eqb_spec (Getenv env "FIREBASE_AUTH_EMULATOR_HOST") "") as [H4|H4]; cbn -[emitted].
  - split_and!; try done.
    + split; [done | by eexists _, _].
    + intros addr cfg [= <- <-]. split_and!; [done | by rewrite H4 |].
      by erewrite (emitted_app _ _ [_]) by done.
  - split_and!; try done.
    + split; [done | by eexists _, _].
    + intros addr cfg [= <- <-]. split_and!; [done | done |].
      by erewrite (emitted_app _ _ [_; _]) by done.
Qed.
